(** * Incremental planar-graph editor: class [Graph] of app.js

    A shallow embedding of the engine of app.js (class [Graph], and the
    effect of the [GraphApp] commands on it).  The definitions come
    first: the model, the notions the properties are stated with, the
    binary64 numbers and the states used as examples.  The properties
    follow, then the runs of the program on binary64.

    - JavaScript numbers used as coordinates are kept abstract behind the
      interface [JSNumber]; [Float64] instantiates it with IEEE-754
      binary64, which is what the program runs on.
    - Numbers used as array positions, vertex indices and identifiers are
      integers in every run and are modelled by [Z] ([-1] is the
      "not found" of [indexOf]).
    - Methods of [Graph] are computations in the monad [M]: they read and
      write the fields of [this] and can end in a [TypeError]. *)

From Stdlib Require Import ZArith List Bool Lia Permutation.
From Stdlib Require Import Floats.
Import ListNotations.
Local Open Scope Z_scope.

(** ** JavaScript arrays holding integers *)

Module JS.

(** [arr.length] *)
Definition length {A : Type} (l : list A) : Z := Z.of_nat (List.length l).

(** [arr[i]]: [None] is [undefined] (position out of range). *)
Definition get {A : Type} (l : list A) (i : Z) : option A :=
  if i <? 0 then None else nth_error l (Z.to_nat i).

Fixpoint indexOf_from (l : list Z) (v : Z) (i : Z) : Z :=
  match l with
  | [] => -1
  | a :: l' => if a =? v then i else indexOf_from l' v (i + 1)
  end.

(** [arr.indexOf(v)] *)
Definition indexOf (l : list Z) (v : Z) : Z := indexOf_from l v 0.

(** [arr.includes(v)] *)
Definition includes (l : list Z) (v : Z) : bool := existsb (Z.eqb v) l.

(** Relative position of a [slice] bound. *)
Definition clamp (len k : Z) : Z :=
  if k <? 0 then Z.max (len + k) 0 else Z.min k len.

(** [arr.slice(s, e)] *)
Definition slice {A : Type} (l : list A) (s e : Z) : list A :=
  let k := clamp (length l) s in
  let f := clamp (length l) e in
  firstn (Z.to_nat (f - k)) (skipn (Z.to_nat k) l).

(** [arr.slice(s)] *)
Definition sliceFrom {A : Type} (l : list A) (s : Z) : list A :=
  slice l s (length l).

(** [a % n] on integers; [None] is [NaN] (n = 0). *)
Definition rem (a n : Z) : option Z :=
  if n =? 0 then None else Some (Z.rem a n).

(** [arr.map((e, i) => ...)] helper: the elements with their positions. *)
Fixpoint indexed_from {A : Type} (i : Z) (l : list A) : list (Z * A) :=
  match l with
  | [] => []
  | a :: l' => (i, a) :: indexed_from (i + 1) l'
  end.

Definition indexed {A : Type} (l : list A) : list (Z * A) := indexed_from 0 l.

(** The integers [n] on which [++] is the successor: a number holds [n]
    and [n + 1] exactly from [-2^53] up to [2^53 - 1]; at [2^53] the
    increment leaves the number as it is. *)
Definition incrementable (n : Z) : Prop := - 2 ^ 53 <= n < 2 ^ 53.

End JS.

(** ** Numbers *)

(** The operations of JavaScript numbers the engine uses.  [nlt] is [<],
    [neq] is [===], [npow] is the operator [**], [nofZ] reads an integer
    literal or an array length as a number. *)
Class JSNumber (R : Type) : Type := {
  nadd : R -> R -> R;
  nsub : R -> R -> R;
  nmul : R -> R -> R;
  ndiv : R -> R -> R;
  npow : R -> R -> R;
  nlt : R -> R -> bool;
  neq : R -> R -> bool;
  nofZ : Z -> R;
  Math_sqrt : R -> R;
  Math_cos : R -> R;
  Math_sin : R -> R;
  Math_atan2 : R -> R -> R;
  Math_max : R -> R -> R;
  Math_min : R -> R -> R;
  Math_PI : R
}.

Declare Scope js_scope.
Delimit Scope js_scope with js.
Infix "+" := nadd : js_scope.
Infix "-" := nsub : js_scope.
Infix "*" := nmul : js_scope.
Infix "/" := ndiv : js_scope.
Infix "<?" := nlt : js_scope.
Notation "a >? b" := (nlt b a) : js_scope.
Infix "===" := neq (at level 70, no associativity) : js_scope.
Notation "# n" := (nofZ n%Z) (at level 1, n at level 0, format "# n") : js_scope.

(** ** Messages and results *)

(** The diagnostic texts are template strings; a message is kept as its
    template and the values spliced into it.  [Diagnostic] are the
    messages of the validation objects, [Message] those of the results. *)
Inductive Diagnostic : Type :=
| MsgIntersectsExisting (id1 id2 : Z)
    (* New edge would intersect existing edge V${v1.id}-V${v2.id} *)
| MsgNewEdgesIntersect
    (* New edges would intersect each other *)
| MsgTooCloseToVertex
    (* New vertex would be too close to existing vertex *)
| MsgTooCloseToEdge
    (* New vertex too close to existing edge *)
| MsgNotOutside
    (* Vertex must be placed outside current graph with sufficient margin *)
| MsgIntegrity (a b c d : Z).
    (* Graph integrity error - crossing between V${a}-V${b} and V${c}-V${d}! *)

Inductive Message : Type :=
| MsgSelectTwo
    (* Must select exactly 2 periphery vertices *)
| MsgNotInPeriphery
    (* Selected vertices must be in periphery *)
| MsgSegmentTooSmall
    (* Segment must contain at least 2 vertices *)
| MsgNoPlacement
    (* Cannot find valid position that maintains planarity - ... *)
| MsgCannotAdd (m : option Diagnostic)
    (* Cannot add vertex: ${finalValidation.message} *)
| MsgRolledBack (m : option Diagnostic)
    (* Operation rolled back: ${integrityCheck.message} *)
| MsgAdded (vertexId : Z) (segmentLength : Z)
    (* Added vertex V${id} connecting to segment of ${n} vertices - ... *)
| MsgNeedTwoPeriphery.
    (* Need at least 2 periphery vertices *)

(** [{ valid, message }] *)
Record Validation : Type := mkValidation {
  valid : bool;
  vmessage : option Diagnostic
}.

Definition Valid : Validation := mkValidation true None.
Definition Invalid (m : Diagnostic) : Validation := mkValidation false (Some m).

(** [{ success, message }] *)
Record Result : Type := mkResult {
  success : bool;
  message : Message
}.

Section Engine.

Context {R : Type} {num : JSNumber R}.
Local Open Scope js_scope.

(** ** Data *)

(** An object with fields [x] and [y]. *)
Record Point : Type := mkPoint { px : R; py : R }.

(** [{ x, y, visible, id }] *)
Record Vertex : Type := mkVertex {
  vx : R;
  vy : R;
  visible : bool;
  vid : Z
}.

Definition pos (v : Vertex) : Point := mkPoint (vx v) (vy v).

(** [{ start, end }]; a field is [None] when it holds [undefined]. *)
Record EdgeObj : Type := mkEdge {
  start : option Point;
  end_ : option Point
}.

(** The fields of [Graph] the engine computes with ([hoveredVertex],
    [showIndices] and [vertexRadius] only serve the renderer).  The
    identifiers and the counter [maxVertexId] are kept as integers, and
    [++this.maxVertexId] as the successor: this is the increment of the
    number while the counter is [JS.incrementable].  What is stated of
    the value of a new identifier or of the counter after an increment
    is stated for that range. *)
Record Graph : Type := mkGraph {
  vertices : list Vertex;
  edges : list (Z * Z);
  periphery : list Z;
  selectedVertices : list Z;
  segmentVertices : list Z;
  manualMode : bool;
  maxVertexId : Z
}.

Definition set_vertices (vs : list Vertex) (g : Graph) : Graph :=
  mkGraph vs (edges g) (periphery g) (selectedVertices g)
          (segmentVertices g) (manualMode g) (maxVertexId g).

Definition set_edges (es : list (Z * Z)) (g : Graph) : Graph :=
  mkGraph (vertices g) es (periphery g) (selectedVertices g)
          (segmentVertices g) (manualMode g) (maxVertexId g).

Definition set_periphery (p : list Z) (g : Graph) : Graph :=
  mkGraph (vertices g) (edges g) p (selectedVertices g)
          (segmentVertices g) (manualMode g) (maxVertexId g).

Definition set_selectedVertices (s : list Z) (g : Graph) : Graph :=
  mkGraph (vertices g) (edges g) (periphery g) s
          (segmentVertices g) (manualMode g) (maxVertexId g).

Definition set_segmentVertices (s : list Z) (g : Graph) : Graph :=
  mkGraph (vertices g) (edges g) (periphery g) (selectedVertices g)
          s (manualMode g) (maxVertexId g).

Definition set_manualMode (b : bool) (g : Graph) : Graph :=
  mkGraph (vertices g) (edges g) (periphery g) (selectedVertices g)
          (segmentVertices g) b (maxVertexId g).

Definition set_maxVertexId (n : Z) (g : Graph) : Graph :=
  mkGraph (vertices g) (edges g) (periphery g) (selectedVertices g)
          (segmentVertices g) (manualMode g) n.

(** ** The monad of methods *)

(** How a call ends: it returns [a] leaving [this] as [g]; a [TypeError]
    (a property read on [undefined]) propagates, leaving [this] as
    mutated so far; or the run leaves the model ([Beyond]): the
    [while (true)] of [getPeripherySegment] never exits, or an index
    array would receive [undefined]. *)
Inductive outcome (A : Type) : Type :=
| Ret (a : A) (g : Graph)
| Throw (g : Graph)
| Beyond.

Arguments Ret {A} a g.
Arguments Throw {A} g.
Arguments Beyond {A}.

Definition M (A : Type) : Type := Graph -> outcome A.

Definition ret {A : Type} (a : A) : M A := fun g => Ret a g.

Definition bind {A B : Type} (m : M A) (f : A -> M B) : M B :=
  fun g =>
    match m g with
    | Ret a g' => f a g'
    | Throw g' => Throw g'
    | Beyond => Beyond
    end.

Definition gets {A : Type} (f : Graph -> A) : M A := fun g => Ret (f g) g.

Definition modify (f : Graph -> Graph) : M unit := fun g => Ret tt (f g).

(** Reading a property of [o]: a [TypeError] when [o] is [undefined]. *)
Definition orThrow {A : Type} (o : option A) : M A :=
  fun g => match o with Some a => Ret a g | None => Throw g end.

Definition beyond {A : Type} : M A := fun _ => Beyond.

Notation "x <- m ;; k" := (bind m (fun x => k))
  (at level 61, m at next level, right associativity).
Notation "m ;; k" := (bind m (fun _ => k))
  (at level 61, right associativity).

(** [for (const x of xs) { ... }] whose body may [return] a value
    ([Some]) or fall through to the next element ([None]). *)
Fixpoint forOf {A B : Type} (xs : list A) (body : A -> M (option B))
  : M (option B) :=
  match xs with
  | [] => ret None
  | a :: xs' =>
      r <- body a ;;
      match r with
      | Some b => ret (Some b)
      | None => forOf xs' body
      end
  end.

(** [for (i ...) for (j = i + 1 ...) { ... }] over the pairs of a list. *)
Fixpoint forPairs {A B : Type} (xs : list A) (body : A -> A -> M (option B))
  : M (option B) :=
  match xs with
  | [] => ret None
  | a :: xs' =>
      r <- forOf xs' (body a) ;;
      match r with
      | Some b => ret (Some b)
      | None => forPairs xs' body
      end
  end.

(** [!v1.visible || !v2.visible || ...], left to right: [None] is the
    [TypeError] of reading [visible] on [undefined]. *)
Fixpoint anyHidden (vs : list (option Vertex)) : option bool :=
  match vs with
  | [] => Some false
  | None :: _ => None
  | Some v :: rest => if visible v then anyHidden rest else Some true
  end.

(** ** Geometry primitives *)

(** [ccw(A, B, C)] *)
Definition ccw (A B C : Point) : bool :=
  (py C - py A) * (px B - px A) >? (py B - py A) * (px C - px A).

(** [segmentsIntersect(p1, p2, p3, p4)] *)
Definition segmentsIntersect (p1 p2 p3 p4 : Point) : bool :=
  xorb (ccw p1 p3 p4) (ccw p2 p3 p4) && xorb (ccw p1 p2 p3) (ccw p1 p2 p4).

(** The same call on arguments that may be [undefined]: the first
    conjunct already reads a coordinate of each of the four. *)
Definition segmentsIntersectU (p1 p2 p3 p4 : option Point) : option bool :=
  match p1, p2, p3, p4 with
  | Some a, Some b, Some c, Some d => Some (segmentsIntersect a b c d)
  | _, _, _, _ => None
  end.

(** [distance(p1, p2)] *)
Definition distance (p1 p2 : Point) : R :=
  Math_sqrt (npow (px p1 - px p2) #2 + npow (py p1 - py p2) #2).

(** The literal [0.001]: the binary64 nearest to 1/1000, which is what
    the correctly rounded quotient of 1 by 1000 is. *)
Definition tolerance : R := #1 / #1000.

(** [edgesShareVertex(edge1, edge2)] *)
Definition edgesShareVertex (edge1 edge2 : EdgeObj) : bool :=
  match start edge1, end_ edge1, start edge2, end_ edge2 with
  | Some s1, Some e1, Some s2, Some e2 =>
      (distance s1 s2 <? tolerance) || (distance s1 e2 <? tolerance) ||
      (distance e1 s2 <? tolerance) || (distance e1 e2 <? tolerance)
  | _, _, _, _ => false
  end.

(** [pointToLineDistance(point, lineStart, lineEnd)] *)
Definition pointToLineDistance (point lineStart lineEnd : Point) : R :=
  let A := px lineEnd - px lineStart in
  let B := py lineEnd - py lineStart in
  let C := px point - px lineStart in
  let D := py point - py lineStart in
  let dot := A * C + B * D in
  let lenSq := A * A + B * B in
  if lenSq === #0 then distance point lineStart
  else
    let param := Math_max #0 (Math_min #1 (dot / lenSq)) in
    let closest := mkPoint (px lineStart + param * A) (py lineStart + param * B) in
    distance point closest.

(** [normalizeVector(vector)] *)
Definition normalizeVector (vector : Point) : Point :=
  let len := Math_sqrt (px vector * px vector + py vector * py vector) in
  if len === #0 then mkPoint #1 #0
  else mkPoint (px vector / len) (py vector / len).

(** The loop of [pointInPolygon]: [pj] is [polygon[j]], the element
    before [polygon[i]] (the last one at the start). *)
Fixpoint pointInPolygon_loop (point pj : Point) (rest : list Point)
  (inside : bool) : bool :=
  match rest with
  | [] => inside
  | pi :: rest' =>
      let crosses :=
        xorb (py pi >? py point) (py pj >? py point) &&
        (px point <?
           (px pj - px pi) * (py point - py pi) / (py pj - py pi) + px pi) in
      pointInPolygon_loop point pi rest' (if crosses then negb inside else inside)
  end.

(** [pointInPolygon(point, polygon)] *)
Definition pointInPolygon (point : Point) (polygon : list Point) : bool :=
  match polygon with
  | [] => false
  | p0 :: _ => pointInPolygon_loop point (last polygon p0) polygon false
  end.

(** [calculatePolygonCenter(polygon)] *)
Definition calculatePolygonCenter (polygon : list Point) : Point :=
  let cx := fold_left (fun c v => c + px v) polygon #0 in
  let cy := fold_left (fun c v => c + py v) polygon #0 in
  mkPoint (cx / (nofZ (JS.length polygon))) (cy / (nofZ (JS.length polygon))).

(** [expandPolygon(polygon, margin)] *)
Definition expandPolygon (polygon : list Point) (margin : R) : list Point :=
  let center := calculatePolygonCenter polygon in
  map (fun vertex =>
         let dx := px vertex - px center in
         let dy := py vertex - py center in
         let len := Math_sqrt (dx * dx + dy * dy) in
         if len === #0 then vertex
         else
           let normalizedDx := dx / len in
           let normalizedDy := dy / len in
           mkPoint (px vertex + normalizedDx * margin)
                   (py vertex + normalizedDy * margin))
      polygon.

(** ** Convex hull *)

(** A vertex object together with its position in [this.vertices]: the
    position stands for the identity of the object, which is what
    [findIndex(v => v === vertex)] looks up. *)
Definition VertexRef : Type := (Z * Vertex)%type.

Definition vref (r : VertexRef) : Point := pos (snd r).

(** The loop choosing [start]: the largest [y], then the smallest [x].
    It carries [start] together with [visibleVertices[start]]. *)
Fixpoint findStart (rest : list VertexRef) (i : Z) (start : Z * VertexRef)
  : Z * VertexRef :=
  match rest with
  | [] => start
  | v :: rest' =>
      if (py (vref v) >? py (vref (snd start))) ||
         ((py (vref v) === py (vref (snd start))) &&
          (px (vref v) <? px (vref (snd start))))
      then findStart rest' (i + 1)%Z (i, v)
      else findStart rest' (i + 1)%Z start
  end.

(** [points.filter((_, i) => i !== start)] *)
Definition removeAt {A : Type} (l : list A) (start : Z) : list A :=
  map snd (filter (fun ia => negb (fst ia =? start)%Z) (JS.indexed l)).

(** The comparator handed to [sort]. *)
Definition compareAngle (startPoint a b : VertexRef) : R :=
  let angleA := Math_atan2 (py (vref a) - py (vref startPoint))
                           (px (vref a) - px (vref startPoint)) in
  let angleB := Math_atan2 (py (vref b) - py (vref startPoint))
                           (px (vref b) - px (vref startPoint)) in
  angleA - angleB.

(** [Array.prototype.sort(compareFn)].  The language requires the sort to
    be stable and leaves the order of comparisons to the engine; this is
    the insertion sort that puts an element before the first one it
    compares below, which is the array every conforming engine returns
    when the comparator is consistent on the array. *)
Fixpoint insertSorted {A : Type} (compareFn : A -> A -> R) (a : A)
  (sorted : list A) : list A :=
  match sorted with
  | [] => [a]
  | b :: sorted' =>
      if compareFn a b <? #0 then a :: b :: sorted'
      else b :: insertSorted compareFn a sorted'
  end.

Definition sort {A : Type} (compareFn : A -> A -> R) (l : list A) : list A :=
  fold_left (fun sorted a => insertSorted compareFn a sorted) l [].

(** [while (hull.length > 1 && this.ccw(...) <= 0) hull.pop()], on the
    hull kept as a stack (last element first).  [ccw] is a boolean, and
    [b <= 0] holds exactly when [b] is [false]. *)
Fixpoint popWhile (point : VertexRef) (hull : list VertexRef) : list VertexRef :=
  match hull with
  | top :: below =>
      match below with
      | under :: _ =>
          if negb (ccw (vref under) (vref top) (vref point))
          then popWhile point below
          else hull
      | [] => hull
      end
  | [] => hull
  end.

(** The sweep: [hull] as a stack, each point pushed after the pops. *)
Definition sweep (startPoint : VertexRef) (sortedPoints : list VertexRef)
  : list VertexRef :=
  rev (fold_left (fun hull point => point :: popWhile point hull)
                 sortedPoints [startPoint]).

(** The points handed to the sweep, in order. *)
Definition sortedPoints (visibleVertices : list VertexRef) (start : Z)
  (startPoint : VertexRef) : list VertexRef :=
  sort (compareAngle startPoint) (removeAt visibleVertices start).

(** [getConvexHull()] on the array of vertices. *)
Definition convexHull (vs : list Vertex) : list VertexRef :=
  let visibleVertices := filter (fun v => visible (snd v)) (JS.indexed vs) in
  if (JS.length visibleVertices <? 3)%Z then visibleVertices
  else
    match visibleVertices with
    | [] => []
    | v0 :: rest =>
        let (start, startPoint) := findStart rest 1 (0, v0) in
        sweep startPoint (sortedPoints visibleVertices start startPoint)
    end.

Definition getConvexHull : M (list VertexRef) :=
  vs <- gets vertices ;;
  ret (convexHull vs).

(** [isOutsideGraph(x, y, margin)] *)
Definition isOutsideGraph (x y margin : R) : M bool :=
  hull <- getConvexHull ;;
  if (JS.length hull <? 3)%Z then ret true
  else if margin >? #0 then
    let expandedHull := expandPolygon (map vref hull) margin in
    ret (negb (pointInPolygon (mkPoint x y) expandedHull))
  else ret (negb (pointInPolygon (mkPoint x y) (map vref hull))).

(** ** Validation *)

(** [validateNewEdges(newVertexPos, segmentVertices)] *)
Definition validateNewEdges (newVertexPos : Point) (segmentVertices : list Z)
  : M Validation :=
  vs <- gets vertices ;;
  let newEdges :=
    map (fun vIdx => mkEdge (Some newVertexPos) (option_map pos (JS.get vs vIdx)))
        segmentVertices in
  r <- forOf (JS.indexed newEdges) (fun '(i, newEdge) =>
    es <- gets edges ;;
    r1 <- forOf es (fun existingEdge =>
      vs <- gets vertices ;;
      let v1 := JS.get vs (fst existingEdge) in
      let v2 := JS.get vs (snd existingEdge) in
      hidden <- orThrow (anyHidden [v1; v2]) ;;
      if hidden then ret None
      else
        let existingEdgeObj := mkEdge (option_map pos v1) (option_map pos v2) in
        if edgesShareVertex newEdge existingEdgeObj then ret None
        else
          crossing <- orThrow (segmentsIntersectU (start newEdge) (end_ newEdge)
                                 (option_map pos v1) (option_map pos v2)) ;;
          if crossing then
            id1 <- orThrow (option_map vid v1) ;;
            id2 <- orThrow (option_map vid v2) ;;
            ret (Some (Invalid (MsgIntersectsExisting id1 id2)))
          else ret None) ;;
    match r1 with
    | Some v => ret (Some v)
    | None =>
        forOf (JS.indexed newEdges) (fun '(j, otherNewEdge) =>
          if (i =? j)%Z then ret None
          else if edgesShareVertex newEdge otherNewEdge then ret None
          else
            crossing <- orThrow (segmentsIntersectU (start newEdge) (end_ newEdge)
                                   (start otherNewEdge) (end_ otherNewEdge)) ;;
            if crossing then ret (Some (Invalid MsgNewEdgesIntersect))
            else ret None)
    end) ;;
  match r with
  | Some v => ret v
  | None => ret Valid
  end.

(** The accumulation of [calculateCentroid]; [None] when a segment entry
    names no vertex ([vertex.x] on [undefined]). *)
Fixpoint sumSegment (vs : list Vertex) (segmentVertices : list Z) (cx cy : R)
  : option (R * R) :=
  match segmentVertices with
  | [] => Some (cx, cy)
  | vIdx :: rest =>
      match JS.get vs vIdx with
      | Some vertex => sumSegment vs rest (cx + vx vertex) (cy + vy vertex)
      | None => None
      end
  end.

(** [calculateCentroid(segmentVertices)] *)
Definition calculateCentroid (segmentVertices : list Z) : M Point :=
  vs <- gets vertices ;;
  c <- orThrow (sumSegment vs segmentVertices #0 #0) ;;
  ret (mkPoint (fst c / nofZ (JS.length segmentVertices))
               (snd c / nofZ (JS.length segmentVertices))).

(** [calculateGraphCenter()] *)
Definition calculateGraphCenter : M Point :=
  vs <- gets vertices ;;
  let visibleVertices := filter visible vs in
  let gx := fold_left (fun g v => g + vx v) visibleVertices #0 in
  let gy := fold_left (fun g v => g + vy v) visibleVertices #0 in
  ret (mkPoint (gx / nofZ (JS.length visibleVertices))
               (gy / nofZ (JS.length visibleVertices))).

(** [validateBasicPosition(candidate)] *)
Definition validateBasicPosition (candidate : Point) : M Validation :=
  vs <- gets vertices ;;
  r1 <- forOf vs (fun v =>
    if negb (visible v) then ret None
    else
      let dist := distance candidate (pos v) in
      if dist <? #50 then ret (Some (Invalid MsgTooCloseToVertex))
      else ret None) ;;
  match r1 with
  | Some v => ret v
  | None =>
      es <- gets edges ;;
      r2 <- forOf es (fun e =>
        vs <- gets vertices ;;
        let vi := JS.get vs (fst e) in
        let vj := JS.get vs (snd e) in
        hidden <- orThrow (anyHidden [vi; vj]) ;;
        if hidden then ret None
        else
          pi <- orThrow (option_map pos vi) ;;
          pj <- orThrow (option_map pos vj) ;;
          let dist := pointToLineDistance candidate pi pj in
          if dist <? #30 then ret (Some (Invalid MsgTooCloseToEdge))
          else ret None) ;;
      match r2 with
      | Some v => ret v
      | None =>
          outside <- isOutsideGraph (px candidate) (py candidate) #40 ;;
          if negb outside then ret (Invalid MsgNotOutside)
          else ret Valid
      end
  end.

(** [validateGraphIntegrity()] *)
Definition validateGraphIntegrity : M Validation :=
  es <- gets edges ;;
  r <- forPairs es (fun edge1 edge2 =>
    if (fst edge1 =? fst edge2)%Z || (fst edge1 =? snd edge2)%Z ||
       (snd edge1 =? fst edge2)%Z || (snd edge1 =? snd edge2)%Z
    then ret None
    else
      vs <- gets vertices ;;
      let v1 := JS.get vs (fst edge1) in
      let v2 := JS.get vs (snd edge1) in
      let v3 := JS.get vs (fst edge2) in
      let v4 := JS.get vs (snd edge2) in
      hidden <- orThrow (anyHidden [v1; v2; v3; v4]) ;;
      if hidden then ret None
      else
        crossing <- orThrow (segmentsIntersectU (option_map pos v1) (option_map pos v2)
                               (option_map pos v3) (option_map pos v4)) ;;
        if crossing then
          a <- orThrow (option_map vid v1) ;;
          b <- orThrow (option_map vid v2) ;;
          c <- orThrow (option_map vid v3) ;;
          d <- orThrow (option_map vid v4) ;;
          ret (Some (Invalid (MsgIntegrity a b c d)))
        else ret None) ;;
  match r with
  | Some v => ret v
  | None => ret Valid
  end.

(** ** Placement search *)

(** The candidate of one attempt, as the loop body computes it. *)
Definition candidateAt (centroid direction : Point) (attempt : nat) : Point :=
  let distance := #80 + nofZ (Z.of_nat attempt) * #20 in
  let angleOffset := nofZ (Z.of_nat (attempt mod 8)) * (Math_PI / #4) in
  let testDirection :=
    mkPoint (px direction * Math_cos angleOffset - py direction * Math_sin angleOffset)
            (px direction * Math_sin angleOffset + py direction * Math_cos angleOffset) in
  mkPoint (px centroid + px testDirection * distance)
          (py centroid + py testDirection * distance).

(** [for (let attempt = ...; attempt < maxAttempts; attempt++)], with
    [remaining = maxAttempts - attempt] iterations left. *)
Fixpoint attempts (centroid direction : Point) (segmentVertices : list Z)
  (remaining : nat) (attempt : nat) : M (option Point) :=
  match remaining with
  | O => ret None
  | S remaining' =>
      let candidate := candidateAt centroid direction attempt in
      basicValidation <- validateBasicPosition candidate ;;
      if negb (valid basicValidation)
      then attempts centroid direction segmentVertices remaining' (S attempt)
      else
        intersectionCheck <- validateNewEdges candidate segmentVertices ;;
        if valid intersectionCheck then ret (Some candidate)
        else attempts centroid direction segmentVertices remaining' (S attempt)
  end.

Definition maxAttempts : nat := 32.

(** [findNonIntersectingPosition(segmentVertices)]; [None] is [null]. *)
Definition findNonIntersectingPosition (segmentVertices : list Z)
  : M (option Point) :=
  centroid <- calculateCentroid segmentVertices ;;
  graphCenter <- calculateGraphCenter ;;
  let direction :=
    normalizeVector (mkPoint (px centroid - px graphCenter)
                             (py centroid - py graphCenter)) in
  attempts centroid direction segmentVertices maxAttempts 0.

(** ** Periphery *)

(** The [while (true)] of [getPeripherySegment], run for at most [fuel]
    iterations ([None]: not finished).  [current] is [None] once it is
    [NaN] (the periphery is empty); an entry of the segment is [None]
    when [periphery[current]] is [undefined]. *)
Fixpoint getPeripherySegment_loop (fuel : nat) (periphery : list Z)
  (current : option Z) (endIdx : Z) (segment : list (option Z))
  : option (list (option Z)) :=
  match fuel with
  | O => None
  | S fuel' =>
      let segment' :=
        segment ++ [match current with
                    | Some c => JS.get periphery c
                    | None => None
                    end] in
      if match current with Some c => (c =? endIdx)%Z | None => false end
      then Some segment'
      else
        getPeripherySegment_loop fuel' periphery
          match current with
          | Some c => JS.rem (c + 1)%Z (JS.length periphery)
          | None => None
          end
          endIdx segment'
  end.

(** [getPeripherySegment(startIdx, endIdx)] on a periphery, with
    bounded iterations. *)
Definition getPeripherySegment_run (fuel : nat) (periphery : list Z)
  (startIdx endIdx : Z) : option (list (option Z)) :=
  if (startIdx =? endIdx)%Z then Some [JS.get periphery startIdx]
  else getPeripherySegment_loop fuel periphery (Some startIdx) endIdx [].

(** All entries defined. *)
Fixpoint allDefined (l : list (option Z)) : option (list Z) :=
  match l with
  | [] => Some []
  | Some a :: l' => option_map (cons a) (allDefined l')
  | None :: _ => None
  end.

(** [getPeripherySegment(startIdx, endIdx)] as a method.  The loop is
    given one iteration more than the periphery has entries: that is
    enough when [startIdx] is a position of the periphery and the loop
    exits (theorem [getPeripherySegment_terminates]); when [startIdx] is
    no position, the first entry pushed is [undefined]. *)
Definition getPeripherySegment (startIdx endIdx : Z) : M (list Z) :=
  p <- gets periphery ;;
  match getPeripherySegment_run (S (List.length p)) p startIdx endIdx with
  | Some segment =>
      match allDefined segment with
      | Some l => ret l
      | None => beyond
      end
  | None => beyond
  end.

(** The area sum of [ensureClockwiseOrder] over the pairs
    [(periphery[i], periphery[(i + 1) % n])]; [None] when an entry names
    no vertex. *)
Fixpoint areaLoop (vs : list Vertex) (first : Z) (rest : list Z) (area : R)
  : option R :=
  match rest with
  | [] => Some area
  | i :: rest' =>
      let j := match rest' with [] => first | k :: _ => k end in
      match JS.get vs j, JS.get vs i with
      | Some vj, Some vi =>
          areaLoop vs first rest' (area + (vx vj - vx vi) * (vy vj + vy vi))
      | _, _ => None
      end
  end.

Definition signedArea (vs : list Vertex) (periphery : list Z) : option R :=
  match periphery with
  | [] => Some #0
  | first :: _ => areaLoop vs first periphery #0
  end.

(** [ensureClockwiseOrder()] *)
Definition ensureClockwiseOrder : M unit :=
  p <- gets periphery ;;
  if (JS.length p <? 3)%Z then ret tt
  else
    vs <- gets vertices ;;
    area <- orThrow (signedArea vs p) ;;
    if area <? #0 then modify (fun g => set_periphery (rev (periphery g)) g)
    else ret tt.

(** [updatePeriphery()] *)
Definition updatePeriphery : M unit :=
  hull <- getConvexHull ;;
  modify (set_periphery (map fst hull)) ;;
  ensureClockwiseOrder.

(** [updatePeripheryAfterSegmentReplacement(startIdx, endIdx, newVertexIdx)] *)
Definition updatePeripheryAfterSegmentReplacement
  (startIdx endIdx newVertexIdx : Z) : M unit :=
  p <- gets periphery ;;
  let newPeriphery :=
    if (startIdx <=? endIdx)%Z
    then JS.slice p 0 startIdx ++ [newVertexIdx] ++ JS.sliceFrom p (endIdx + 1)%Z
    else JS.slice p (endIdx + 1)%Z startIdx ++ [newVertexIdx] in
  modify (set_periphery newPeriphery) ;;
  ensureClockwiseOrder.

(** ** Insertion *)

Definition failure (m : Message) : Result := mkResult false m.

(** [this.vertices.pop()] *)
Definition pop {A : Type} (l : list A) : list A := removelast l.

(** [processSegmentSelection()].  [++this.maxVertexId] is the successor
    of the counter, as it is while the counter is [JS.incrementable]. *)
Definition processSegmentSelection : M Result :=
  sel <- gets selectedVertices ;;
  match sel with
  | [v1Idx; v2Idx] =>
      p <- gets periphery ;;
      let p1Idx := JS.indexOf p v1Idx in
      let p2Idx := JS.indexOf p v2Idx in
      if (p1Idx =? -1)%Z || (p2Idx =? -1)%Z
      then ret (failure MsgNotInPeriphery)
      else
        segment <- getPeripherySegment p1Idx p2Idx ;;
        modify (set_segmentVertices segment) ;;
        seg <- gets segmentVertices ;;
        if (JS.length seg <? 2)%Z then ret (failure MsgSegmentTooSmall)
        else
          seg <- gets segmentVertices ;;
          newPosition <- findNonIntersectingPosition seg ;;
          match newPosition with
          | None => ret (failure MsgNoPlacement)
          | Some newPosition =>
              seg <- gets segmentVertices ;;
              finalValidation <- validateNewEdges newPosition seg ;;
              if negb (valid finalValidation)
              then ret (failure (MsgCannotAdd (vmessage finalValidation)))
              else
                vs <- gets vertices ;;
                let newVertexIdx := JS.length vs in
                modify (fun g => set_maxVertexId (maxVertexId g + 1)%Z g) ;;
                newId <- gets maxVertexId ;;
                modify (fun g =>
                  set_vertices
                    (vertices g ++
                       [mkVertex (px newPosition) (py newPosition) true newId]) g) ;;
                seg <- gets segmentVertices ;;
                modify (fun g =>
                  set_edges (edges g ++ map (fun vIdx => (newVertexIdx, vIdx)) seg) g) ;;
                updatePeripheryAfterSegmentReplacement p1Idx p2Idx newVertexIdx ;;
                integrityCheck <- validateGraphIntegrity ;;
                if negb (valid integrityCheck)
                then
                  modify (fun g => set_vertices (pop (vertices g)) g) ;;
                  seg <- gets segmentVertices ;;
                  modify (fun g =>
                    set_edges (JS.slice (edges g) 0 (- JS.length seg)%Z) g) ;;
                  updatePeriphery ;;
                  ret (failure (MsgRolledBack (vmessage integrityCheck)))
                else
                  modify (set_selectedVertices []) ;;
                  modify (set_segmentVertices []) ;;
                  newId <- gets maxVertexId ;;
                  seg <- gets segmentVertices ;;
                  ret (mkResult true (MsgAdded newId (JS.length seg)))
          end
  | _ => ret (failure MsgSelectTwo)
  end.

(** [initializeTriangle()]; it leaves [manualMode] alone. *)
Definition initializeTriangle : M unit :=
  modify (fun g =>
    mkGraph
      [ mkVertex #0 #(-100) true 1;
        mkVertex #(-87) #50 true 2;
        mkVertex #87 #50 true 3 ]
      [ (0, 1); (1, 2); (2, 0) ]%Z
      [ 0; 1; 2 ]%Z
      [] []
      (manualMode g)
      3%Z).

(** The graph [new Graph()] builds. *)
Definition newGraph : Graph :=
  mkGraph
    [ mkVertex #0 #(-100) true 1;
      mkVertex #(-87) #50 true 2;
      mkVertex #87 #50 true 3 ]
    [ (0, 1); (1, 2); (2, 0) ]%Z
    [ 0; 1; 2 ]%Z
    [] []
    false
    3%Z.

(** [addRandomSegment()].  [r1] is the value of
    [Math.floor(Math.random() * (maxSegmentSize - 1))] and [r2] that of
    [Math.floor(Math.random() * this.periphery.length)]; [Math.random()]
    is below 1, so [r2] is a position of the periphery. *)
Definition addRandomSegment (r1 r2 : Z) : M Result :=
  p <- gets periphery ;;
  if (JS.length p <? 2)%Z then ret (failure MsgNeedTwoPeriphery)
  else
    let segmentSize := Z.max 2 (r1 + 2) in
    let startIdx := r2 in
    match JS.rem (startIdx + segmentSize - 1)%Z (JS.length p) with
    | None => beyond
    | Some endIdx =>
        match JS.get p startIdx, JS.get p endIdx with
        | Some a, Some b =>
            modify (set_selectedVertices [a; b]) ;;
            result <- processSegmentSelection ;;
            modify (set_selectedVertices []) ;;
            modify (set_segmentVertices []) ;;
            ret result
        | _, _ => beyond
        end
    end.

(** ** The commands of [GraphApp], as they act on the graph

    Canvas drawing, the DOM and the view state are left out, with the
    reads of the graph that drawing makes; what stays is every read and
    write of [this.graph] by the handlers themselves. *)

(** Reading [vertices[idx].id] for each entry, as the template strings
    do. *)
Fixpoint readIds (vs : list Vertex) (idxs : list Z) : option (list Z) :=
  match idxs with
  | [] => Some []
  | i :: rest =>
      match JS.get vs i with
      | Some v => option_map (cons (vid v)) (readIds vs rest)
      | None => None
      end
  end.

(** [updateSegmentVisualization()] *)
Definition updateSegmentVisualization : M unit :=
  sel <- gets selectedVertices ;;
  match sel with
  | [v1Idx; v2Idx] =>
      p <- gets periphery ;;
      let p1Idx := JS.indexOf p v1Idx in
      let p2Idx := JS.indexOf p v2Idx in
      if negb (p1Idx =? -1)%Z && negb (p2Idx =? -1)%Z
      then
        segmentVertices <- getPeripherySegment p1Idx p2Idx ;;
        modify (set_segmentVertices segmentVertices) ;;
        vs <- gets vertices ;;
        orThrow (readIds vs [v1Idx; v2Idx]) ;;
        vs <- gets vertices ;;
        orThrow (readIds vs segmentVertices) ;;
        findNonIntersectingPosition segmentVertices ;;
        ret tt
      else ret tt
  | _ => modify (set_segmentVertices [])
  end.

(** [updateUI()] *)
Definition updateUI : M unit :=
  validateGraphIntegrity ;;
  updateSegmentVisualization.

(** [startTriangle()] *)
Definition startTriangle : M unit :=
  initializeTriangle ;;
  modify (set_manualMode false) ;;
  updateUI.

(** [GraphApp.addRandomSegment()] *)
Definition appAddRandomSegment (r1 r2 : Z) : M unit :=
  addRandomSegment r1 r2 ;;
  updateUI.

(** [toggleManualMode()] *)
Definition toggleManualMode : M unit :=
  modify (fun g => set_manualMode (negb (manualMode g)) g) ;;
  mm <- gets manualMode ;;
  (if negb mm
   then modify (set_selectedVertices []) ;; modify (set_segmentVertices [])
   else ret tt) ;;
  updateUI.

(** [clearSelection()] *)
Definition clearSelection : M unit :=
  modify (set_selectedVertices []) ;;
  modify (set_segmentVertices []) ;;
  updateUI.

(** [redrawOptimize()] *)
Definition redrawOptimize : M unit :=
  updatePeriphery ;;
  validateGraphIntegrity ;;
  updateUI.

(** [goToVertex()] with the number typed in the input field already
    parsed ([vertexNum]; a text that is no number, or one below 1, only
    shows a message). *)
Definition goToVertex (vertexNum : Z) : M unit :=
  if (vertexNum <? 1)%Z then ret tt
  else
    modify (fun g =>
      set_vertices
        (map (fun v => mkVertex (vx v) (vy v) (vid v <=? vertexNum)%Z (vid v))
             (vertices g)) g) ;;
    updateUI.

(** [handleMouseDown(e)], with [vertexIndex] the vertex under the pointer
    as [getVertexAt] found it ([-1]: none). *)
Definition handleMouseDown (vertexIndex : Z) : M unit :=
  mm <- gets manualMode ;;
  p <- gets periphery ;;
  if mm && negb (vertexIndex =? -1)%Z && JS.includes p vertexIndex
  then
    sel <- gets selectedVertices ;;
    (if JS.includes sel vertexIndex
     then modify (set_selectedVertices
                    (filter (fun i => negb (i =? vertexIndex)%Z) sel))
     else if (JS.length sel <? 2)%Z
     then
       modify (set_selectedVertices (sel ++ [vertexIndex])) ;;
       vs <- gets vertices ;;
       orThrow (readIds vs [vertexIndex]) ;;
       ret tt
     else ret tt) ;;
    updateSegmentVisualization ;;
    sel <- gets selectedVertices ;;
    if (JS.length sel =? 2)%Z
    then processSegmentSelection ;; updateUI
    else ret tt
  else ret tt.

(** The commands a user can issue. *)
Inductive Command : Type :=
| StartTriangle
| AddRandom (r1 r2 : Z)
| ToggleManualMode
| ClearSelection
| RedrawOptimize
| GoToVertex (vertexNum : Z)
| MouseDown (vertexIndex : Z).

Definition exec (c : Command) : M unit :=
  match c with
  | StartTriangle => startTriangle
  | AddRandom r1 r2 => appAddRandomSegment r1 r2
  | ToggleManualMode => toggleManualMode
  | ClearSelection => clearSelection
  | RedrawOptimize => redrawOptimize
  | GoToVertex n => goToVertex n
  | MouseDown i => handleMouseDown i
  end.

(** The state a command leaves behind, whether it returned or threw (an
    event handler that throws leaves the graph as mutated so far);
    [None] when the run leaves the model. *)
Definition stateAfter {A : Type} (o : outcome A) : option Graph :=
  match o with
  | Ret _ g => Some g
  | Throw g => Some g
  | Beyond => None
  end.

(** A sequence of commands, each run on the state the previous left. *)
Fixpoint run (cs : list Command) (g : Graph) : option Graph :=
  match cs with
  | [] => Some g
  | c :: cs' =>
      match stateAfter (exec c g) with
      | Some g' => run cs' g'
      | None => None
      end
  end.

(** * Definitions the properties are stated with *)

(** ** Frames *)

(** [reads m]: run on any state, [m] returns or throws, and leaves the
    state as it found it. *)
Definition reads {A : Type} (m : M A) : Prop :=
  forall g,
    match m g with
    | Ret _ g' => g' = g
    | Throw g' => g' = g
    | Beyond => False
    end.

(** [grows m]: however [m] ends, the counter is not below what it was. *)
Definition grows {A : Type} (m : M A) : Prop :=
  forall g,
    match m g with
    | Ret _ g' | Throw g' => (maxVertexId g <= maxVertexId g')%Z
    | Beyond => True
    end.

(** ** Segments and periphery *)

(** The entries the loop pushes from [current] on, [k] of them. *)
Fixpoint arcFrom (periphery : list Z) (current : Z) (k : nat) : list (option Z) :=
  match k with
  | O => []
  | S k' =>
      JS.get periphery current ::
      arcFrom periphery ((current + 1) mod JS.length periphery)%Z k'
  end.

(** The periphery [ensureClockwiseOrder] leaves, from the vertices and
    the periphery it finds; [None] when it throws. *)
Definition clockwise (vs : list Vertex) (p : list Z) : option (list Z) :=
  if (JS.length p <? 3)%Z then Some p
  else
    match signedArea vs p with
    | Some area => Some (if area <? #0 then rev p else p)
    | None => None
    end.

(** ** The steps of an insertion *)

(** The state when the new vertex and its edges have been appended. *)
Definition committed (g : Graph) (newPosition : Point) : Graph :=
  mkGraph
    (vertices g ++
       [mkVertex (px newPosition) (py newPosition) true (maxVertexId g + 1)%Z])
    (edges g ++
       map (fun vIdx => (JS.length (vertices g), vIdx)) (segmentVertices g))
    (periphery g) (selectedVertices g) (segmentVertices g) (manualMode g)
    (maxVertexId g + 1)%Z.

(** The state when the rollback has popped the vertex and the edges. *)
Definition popped (g : Graph) : Graph :=
  set_edges (JS.slice (edges g) 0 (- JS.length (segmentVertices g))%Z)
            (set_vertices (pop (vertices g)) g).

(** The state when a successful insertion has cleared the selection. *)
Definition cleared (g : Graph) : Graph :=
  set_segmentVertices [] (set_selectedVertices [] g).

(** What [processSegmentSelection] does from the commit on: [g2] is the
    state with the new vertex and edges appended. *)
Definition afterCommit (p1Idx p2Idx newVertexIdx : Z) (g2 : Graph)
  : outcome Result :=
  match updatePeripheryAfterSegmentReplacement p1Idx p2Idx newVertexIdx g2 with
  | Ret _ g3 =>
      match validateGraphIntegrity g3 with
      | Ret integrityCheck _ =>
          if negb (valid integrityCheck)
          then
            match updatePeriphery (popped g3) with
            | Ret _ g5 =>
                Ret (failure (MsgRolledBack (vmessage integrityCheck))) g5
            | Throw g5 => Throw g5
            | Beyond => Beyond
            end
          else
            Ret (mkResult true (MsgAdded (maxVertexId g3) 0)) (cleared g3)
      | Throw _ => Throw g3
      | Beyond => Beyond
      end
  | Throw g3 => Throw g3
  | Beyond => Beyond
  end.

(** [processSegmentSelection], call by call: the reading methods leave
    the state they are run on. *)
Definition processSegmentSelection_steps (g : Graph) : outcome Result :=
  match selectedVertices g with
  | [v1Idx; v2Idx] =>
      let p1Idx := JS.indexOf (periphery g) v1Idx in
      let p2Idx := JS.indexOf (periphery g) v2Idx in
      if (p1Idx =? -1)%Z || (p2Idx =? -1)%Z
      then Ret (failure MsgNotInPeriphery) g
      else
        match getPeripherySegment p1Idx p2Idx g with
        | Ret segment _ =>
            let g1 := set_segmentVertices segment g in
            if (JS.length segment <? 2)%Z
            then Ret (failure MsgSegmentTooSmall) g1
            else
              match findNonIntersectingPosition segment g1 with
              | Ret None _ => Ret (failure MsgNoPlacement) g1
              | Ret (Some newPosition) _ =>
                  match validateNewEdges newPosition segment g1 with
                  | Ret finalValidation _ =>
                      if negb (valid finalValidation)
                      then Ret (failure (MsgCannotAdd (vmessage finalValidation))) g1
                      else afterCommit p1Idx p2Idx (JS.length (vertices g))
                             (committed g1 newPosition)
                  | Throw _ => Throw g1
                  | Beyond => Beyond
                  end
              | Throw _ => Throw g1
              | Beyond => Beyond
              end
        | Throw _ => Throw g
        | Beyond => Beyond
        end
  | _ => Ret (failure MsgSelectTwo) g
  end.

(** ** The placement search, as specified *)

(** A vector turned by an angle. *)
Definition rotate (v : Point) (angle : R) : Point :=
  mkPoint (px v * Math_cos angle - py v * Math_sin angle)
          (px v * Math_sin angle + py v * Math_cos angle).

(** The candidate of attempt [k]: the centroid plus the base direction
    rotated by [(k mod 8)] times 45 degrees, scaled by [80 + 20 k]. *)
Definition specCandidate (centroid direction : Point) (k : nat) : Point :=
  let turned := rotate direction (nofZ (Z.of_nat (k mod 8)) * (Math_PI / #4)) in
  let dist := #80 + nofZ (Z.of_nat k) * #20 in
  mkPoint (px centroid + px turned * dist) (py centroid + py turned * dist).

(** A candidate passes when the distance and margin checks accept it
    and then the intersection check does. *)
Definition passes (segment : list Z) (candidate : Point) : M bool :=
  basic <- validateBasicPosition candidate ;;
  if negb (valid basic) then ret false
  else
    crossing <- validateNewEdges candidate segment ;;
    ret (valid crossing).

(** The first of the candidates that passes, [None] if none does. *)
Fixpoint firstPassing (segment : list Z) (candidates : list Point)
  : M (option Point) :=
  match candidates with
  | [] => ret None
  | c :: rest =>
      ok <- passes segment c ;;
      if ok then ret (Some c) else firstPassing segment rest
  end.

(** The sum of numbers, added one after the other to 0. *)
Definition total (xs : list R) : R := fold_left nadd xs #0.

(** The centroid of points: the mean of their coordinates. *)
Definition centroidOf (points : list Point) : Point :=
  mkPoint (total (map px points) / nofZ (JS.length points))
          (total (map py points) / nofZ (JS.length points)).

(** The positions of the vertices a segment names; [None] when an entry
    names no vertex. *)
Fixpoint positionsOf (vs : list Vertex) (segment : list Z)
  : option (list Point) :=
  match segment with
  | [] => Some []
  | vIdx :: rest =>
      match JS.get vs vIdx, positionsOf vs rest with
      | Some v, Some points => Some (pos v :: points)
      | _, _ => None
      end
  end.

(** The graph center: the centroid of the visible vertices. *)
Definition graphCenterOf (vs : list Vertex) : Point :=
  centroidOf (map pos (filter visible vs)).

(** The length of a vector. *)
Definition norm (v : Point) : R := Math_sqrt (px v * px v + py v * py v).

(** The base direction: the vector from the graph center to the
    centroid, scaled to length 1, or (1, 0) when it has length 0. *)
Definition baseDirection (centroid graphCenter : Point) : Point :=
  let v := mkPoint (px centroid - px graphCenter)
                   (py centroid - py graphCenter) in
  if norm v === #0 then mkPoint #1 #0
  else mkPoint (px v / norm v) (py v / norm v).

(** The search of the specification: the candidates of attempts 0 to 31
    around the segment centroid, the base direction pointing from the
    graph center to it. *)
Definition placementSearch (segment : list Z) : M (option Point) :=
  vs <- gets vertices ;;
  points <- orThrow (positionsOf vs segment) ;;
  let centroid := centroidOf points in
  let direction := baseDirection centroid (graphCenterOf vs) in
  firstPassing segment (map (specCandidate centroid direction) (seq 0 32)).

(** ** Comparators *)

(** [a] sorts before [b]. *)
Definition before {A : Type} (compareFn : A -> A -> R) (a b : A) : bool :=
  compareFn a b <? #0.

(** Neither sorts before the other. *)
Definition tie {A : Type} (compareFn : A -> A -> R) (a b : A) : bool :=
  negb (before compareFn a b) && negb (before compareFn b a).

(** The comparator is consistent on [l] (a strict weak order on its
    elements), which is when the language fixes the result of [sort]. *)
Definition consistentAt {A : Type} (compareFn : A -> A -> R) (a b c : A)
  : bool :=
  let lt := before compareFn in
  let eq := tie compareFn in
  negb (lt a a) &&
  (negb (lt a b) || negb (lt b a)) &&
  (negb (lt a b && lt b c) || lt a c) &&
  (negb (eq a b && eq b c) || eq a c).

Definition consistent {A : Type} (compareFn : A -> A -> R) (l : list A)
  : bool :=
  forallb
    (fun a => forallb (fun b => forallb (consistentAt compareFn a b) l) l) l.

(** The elements of [l] selected by [P] are tied with one another. *)
Definition tiedGroup {A : Type} (compareFn : A -> A -> R) (P : A -> bool)
  (l : list A) : bool :=
  forallb
    (fun a => forallb (fun b => negb (P a && P b) || tie compareFn a b) l) l.

(** The polar angle of [a] around the anchor [startPoint], as the hull
    sort computes it. *)
Definition polarAngle (startPoint a : VertexRef) : R :=
  Math_atan2 (py (vref a) - py (vref startPoint))
             (px (vref a) - px (vref startPoint)).

(** No element of [l] sorts before one that stands ahead of it. *)
Fixpoint ordered {A : Type} (compareFn : A -> A -> R) (l : list A) : Prop :=
  match l with
  | [] => True
  | x :: rest =>
      (forall y, In y rest -> before compareFn y x = false) /\
      ordered compareFn rest
  end.

(** In a sorted prefix, no element stands ahead of a member of the group
    that sorts before it. *)
Fixpoint settled {A : Type} (compareFn : A -> A -> R) (P : A -> bool)
  (sorted : list A) : Prop :=
  match sorted with
  | [] => True
  | y :: rest =>
      (forall p, In p rest -> P p = true -> before compareFn p y = false) /\
      settled compareFn P rest
  end.

(** ** The area sum, and when it is exact *)

(** The positions of the vertices a periphery names; [None] when an
    entry names no vertex. *)
Fixpoint lookupAll (vs : list Vertex) (p : list Z) : option (list Vertex) :=
  match p with
  | [] => Some []
  | i :: p' =>
      match JS.get vs i, lookupAll vs p' with
      | Some v, Some l => Some (v :: l)
      | _, _ => None
      end
  end.

(** The area sum over vertex objects: [area += (vj.x - vi.x) * (vj.y + vi.y)]
    for each [vi] of [rest], [vj] the next one, or [first] after the last. *)
Fixpoint areaSum (first : Vertex) (rest : list Vertex) (area : R) : R :=
  match rest with
  | [] => area
  | vi :: rest' =>
      let vj := match rest' with [] => first | v :: _ => v end in
      areaSum first rest' (area + (vx vj - vx vi) * (vy vj + vy vi))
  end.

(** One term of the sum over integer points. *)
Definition zterm (a b : Z * Z) : Z := ((fst b - fst a) * (snd b + snd a))%Z.

(** The sum of the terms along a path. *)
Fixpoint pathSum (l : list (Z * Z)) : Z :=
  match l with
  | [] => 0
  | a :: tl =>
      match tl with
      | [] => 0
      | b :: _ => zterm a b + pathSum tl
      end
  end%Z.

(** The closed sum of a polygon: along the points and back to the
    first. *)
Definition closedSum (l : list (Z * Z)) : Z :=
  match l with
  | [] => 0%Z
  | a :: _ => pathSum (l ++ [a])
  end.

(** The integer point a vertex is at, [val] reading the numbers as
    integers. *)
Definition zpoint (val : R -> Z) (v : Vertex) : Z * Z := (val (vx v), val (vy v)).

(** The three operations of one term lose nothing. *)
Definition termExact (val : R -> Z) (vi vj : Vertex) : bool :=
  let dx := vx vj - vx vi in
  let sy := vy vj + vy vi in
  let term := dx * sy in
  (val dx =? val (vx vj) - val (vx vi))%Z &&
  (val sy =? val (vy vj) + val (vy vi))%Z &&
  (val term =? val dx * val sy)%Z.

(** Every addition of the running sum loses nothing, and the test
    [area < 0] on the result is the test on its integer reading. *)
Fixpoint sumExact (val : R -> Z) (first : Vertex) (rest : list Vertex) (area : R) : bool :=
  match rest with
  | [] => Bool.eqb (area <? #0) (val area <? 0)%Z
  | vi :: rest' =>
      let vj := match rest' with [] => first | v :: _ => v end in
      let term := (vx vj - vx vi) * (vy vj + vy vi) in
      let area' := area + term in
      termExact val vi vj &&
      (val area' =? val area + val term)%Z &&
      sumExact val first rest' area'
  end.

(** The area sum of a periphery is computed exactly. *)
Definition areaExact (val : R -> Z) (vs : list Vertex) (p : list Z) : bool :=
  match lookupAll vs p with
  | Some (v :: l) => (val #0 =? 0)%Z && sumExact val v (v :: l) #0
  | _ => true
  end.


(** ** Positions in the vertex array *)

(** [i] is a position of [this.vertices]. *)
Definition isVertex (g : Graph) (i : Z) : Prop :=
  (0 <= i < JS.length (vertices g))%Z.

(** Every edge joins two positions of [this.vertices]. *)
Definition edgesInRange (g : Graph) : Prop :=
  forall e, In e (edges g) -> isVertex g (fst e) /\ isVertex g (snd e).

(** Every entry of the periphery is a position of [this.vertices]. *)
Definition peripheryInRange (g : Graph) : Prop :=
  forall i, In i (periphery g) -> isVertex g i.

(** ** What the scans look for *)

(** The pairs [(xs[i], xs[j])] with [i < j], in the order of the two
    nested loops. *)
Fixpoint pairs {A : Type} (xs : list A) : list (A * A) :=
  match xs with
  | [] => []
  | a :: xs' => map (pair a) xs' ++ pairs xs'
  end.

(** Two edges have a vertex index in common. *)
Definition sharesIndex (edge1 edge2 : Z * Z) : bool :=
  (fst edge1 =? fst edge2)%Z || (fst edge1 =? snd edge2)%Z ||
  (snd edge1 =? fst edge2)%Z || (snd edge1 =? snd edge2)%Z.

(** Two edges cross, as the integrity scan sees it: no vertex index in
    common, the four end vertices visible, and [segmentsIntersect] true
    of the four. *)
Definition crosses (vs : list Vertex) (edge1 edge2 : Z * Z) : bool :=
  negb (sharesIndex edge1 edge2) &&
  match JS.get vs (fst edge1), JS.get vs (snd edge1),
        JS.get vs (fst edge2), JS.get vs (snd edge2) with
  | Some v1, Some v2, Some v3, Some v4 =>
      visible v1 && visible v2 && visible v3 && visible v4 &&
      segmentsIntersect (pos v1) (pos v2) (pos v3) (pos v4)
  | _, _, _, _ => false
  end.

(** A visible vertex less than 50 away from the candidate. *)
Definition tooCloseToVertex (candidate : Point) (v : Vertex) : bool :=
  visible v && (distance candidate (pos v) <? #50).

(** An edge with both end vertices visible, less than 30 away from the
    candidate. *)
Definition tooCloseToEdge (vs : list Vertex) (candidate : Point) (e : Z * Z)
  : bool :=
  match JS.get vs (fst e), JS.get vs (snd e) with
  | Some vi, Some vj =>
      visible vi && visible vj &&
      (pointToLineDistance candidate (pos vi) (pos vj) <? #30)
  | _, _ => false
  end.

(** The new edge from [newVertexPos] to the vertex [v] crosses the
    existing edge [e], as [validateNewEdges] sees it: the two end
    vertices of [e] visible, no end point shared, and
    [segmentsIntersect] true. *)
Definition newEdgeBlocked (vs : list Vertex) (newVertexPos : Point)
  (v : Vertex) (e : Z * Z) : bool :=
  match JS.get vs (fst e), JS.get vs (snd e) with
  | Some v1, Some v2 =>
      visible v1 && visible v2 &&
      negb (edgesShareVertex (mkEdge (Some newVertexPos) (Some (pos v)))
                             (mkEdge (Some (pos v1)) (Some (pos v2)))) &&
      segmentsIntersect newVertexPos (pos v) (pos v1) (pos v2)
  | _, _ => false
  end.

(** Two new edges, to the vertices [v] and [w], cross each other. *)
Definition newEdgesCross (newVertexPos : Point) (v w : Vertex) : bool :=
  negb (edgesShareVertex (mkEdge (Some newVertexPos) (Some (pos v)))
                         (mkEdge (Some newVertexPos) (Some (pos w)))) &&
  segmentsIntersect newVertexPos (pos v) newVertexPos (pos w).

(** ** What a method looks at *)

(** Two runs end alike: with the same answer, or both with a
    [TypeError], or both outside the model. *)
Definition sameAnswer {A : Type} (o1 o2 : outcome A) : Prop :=
  match o1, o2 with
  | Ret a _, Ret b _ => a = b
  | Throw _, Throw _ => True
  | Beyond, Beyond => True
  | _, _ => False
  end.

(** [m] only reads, and what it reads are the vertex array and the edge
    array: run on two states that agree on them, it ends alike. *)
Definition readsGraphOnly {A : Type} (m : M A) : Prop :=
  reads m /\
  forall g1 g2,
    vertices g1 = vertices g2 -> edges g1 = edges g2 ->
    sameAnswer (m g1) (m g2).

(** ** States the editor keeps itself in *)

(** The graph data hold together: edges and periphery entries are
    positions of the vertex array, no identifier is assigned twice, and
    none is above the counter. *)
Definition sound (g : Graph) : Prop :=
  edgesInRange g /\
  peripheryInRange g /\
  NoDup (map vid (vertices g)) /\
  (forall v, In v (vertices g) -> (vid v <= maxVertexId g)%Z).

(** The selection holds at most two vertices, none twice, and is empty
    outside manual mode. *)
Definition selectionKept (g : Graph) : Prop :=
  (List.length (selectedVertices g) <= 2)%nat /\
  NoDup (selectedVertices g) /\
  (manualMode g = false -> selectedVertices g = []).

(** The random draws of a command are values [Math.floor] can return
    there: [Math.random()] is at least 0 and below 1. *)
Definition drawsInRange (c : Command) (g : Graph) : Prop :=
  match c with
  | AddRandom r1 r2 =>
      (JS.length (periphery g) < 2)%Z \/
      ((0 <= r1 < Z.min 6 (JS.length (periphery g)) - 1)%Z /\
       (0 <= r2 < JS.length (periphery g))%Z)
  | _ => True
  end.

(** The states of the editor: the graph [new Graph()] builds, and the
    state any command leaves (returning or throwing) when issued in a
    state of the editor. *)
Inductive reachable : Graph -> Prop :=
| reachable_new : reachable newGraph
| reachable_step (g g' : Graph) (c : Command) :
    reachable g ->
    drawsInRange c g ->
    stateAfter (exec c g) = Some g' ->
    reachable g'.

(** * The renderer *)

(** The view of [GraphRenderer]: [zoom], [panX], [panY], and the size
    of the canvas with [window.devicePixelRatio]. *)
Record View : Type := mkView {
  zoom : R;
  panX : R;
  panY : R;
  canvasWidth : R;
  canvasHeight : R;
  devicePixelRatio : R
}.

(** [worldToScreen(x, y)] *)
Definition worldToScreen (w : View) (x y : R) : Point :=
  let centerX := canvasWidth w / (#2 * devicePixelRatio w) in
  let centerY := canvasHeight w / (#2 * devicePixelRatio w) in
  mkPoint (centerX + (x + panX w) * zoom w) (centerY + (y + panY w) * zoom w).

(** [screenToWorld(x, y)] *)
Definition screenToWorld (w : View) (x y : R) : Point :=
  let centerX := canvasWidth w / (#2 * devicePixelRatio w) in
  let centerY := canvasHeight w / (#2 * devicePixelRatio w) in
  mkPoint ((x - centerX) / zoom w - panX w) ((y - centerY) / zoom w - panY w).

(** [a <= b] on numbers: [a < b] or [a == b], which is false when either
    is [NaN]. *)
Definition nle (a b : R) : bool := (a <? b) || (a === b).

(** The loop of [getVertexAt], from position [i] on. *)
Fixpoint getVertexAt_loop (worldPos : Point) (radius : R) (i : Z)
  (vs : list Vertex) : Z :=
  match vs with
  | [] => (-1)%Z
  | vertex :: rest =>
      if negb (visible vertex)
      then getVertexAt_loop worldPos radius (i + 1)%Z rest
      else
        let dist := distance worldPos (pos vertex) in
        if nle dist radius then i
        else getVertexAt_loop worldPos radius (i + 1)%Z rest
  end.

(** [getVertexAt(screenX, screenY)] *)
Definition getVertexAt (w : View) (screenX screenY : R) : M Z :=
  let worldPos := screenToWorld w screenX screenY in
  let radius := Math_max #18 (zoom w * #25) / zoom w in
  vs <- gets vertices ;;
  ret (getVertexAt_loop worldPos radius 0 vs).

(** What [render()] reads of the graph, in the order it reads it; the
    calls on the canvas context are left out.  Each loop below reads a
    property of [vertices[...]], which throws on [undefined]. *)

(** [drawEdges()]: [v1.visible] and [v2.visible] of each edge. *)
Definition drawEdges : M unit :=
  es <- gets edges ;;
  forOf es (fun e =>
    vs <- gets vertices ;;
    orThrow (anyHidden [JS.get vs (fst e); JS.get vs (snd e)]) ;;
    ret (@None unit)) ;;
  ret tt.

(** The loops over a list of vertex indices that read [vertex.visible]
    (or [vertex.x]) of each. *)
Definition readEach (idxs : list Z) : M unit :=
  forOf idxs (fun idx =>
    vs <- gets vertices ;;
    orThrow (JS.get vs idx) ;;
    ret (@None unit)) ;;
  ret tt.

(** [drawPeripheryOutline()] *)
Definition drawPeripheryOutline : M unit :=
  p <- gets periphery ;;
  if (JS.length p <? 3)%Z then ret tt
  else readEach p.

(** [drawSegmentHighlight()] *)
Definition drawSegmentHighlight : M unit :=
  sel <- gets selectedVertices ;;
  match sel with
  | [v1Idx; v2Idx] =>
      p <- gets periphery ;;
      let p1Idx := JS.indexOf p v1Idx in
      let p2Idx := JS.indexOf p v2Idx in
      if (p1Idx =? -1)%Z || (p2Idx =? -1)%Z then ret tt
      else
        segmentVertices <- getPeripherySegment p1Idx p2Idx ;;
        readEach segmentVertices
  | _ => ret tt
  end.

(** [renderIntersectionPreview()] *)
Definition renderIntersectionPreview : M unit :=
  mm <- gets manualMode ;;
  sel <- gets selectedVertices ;;
  match sel with
  | [v1Idx; v2Idx] =>
      if mm then
        p <- gets periphery ;;
        let p1Idx := JS.indexOf p v1Idx in
        let p2Idx := JS.indexOf p v2Idx in
        if negb (p1Idx =? -1)%Z && negb (p2Idx =? -1)%Z
        then
          segmentVertices <- getPeripherySegment p1Idx p2Idx ;;
          previewPosition <- findNonIntersectingPosition segmentVertices ;;
          match previewPosition with
          | Some _ => readEach segmentVertices
          | None => ret tt
          end
        else ret tt
      else ret tt
  | _ => ret tt
  end.

(** [render()]; [drawVertices()] reads the vertices at the positions
    below [vertices.length] only. *)
Definition render : M unit :=
  drawEdges ;;
  drawPeripheryOutline ;;
  drawSegmentHighlight ;;
  renderIntersectionPreview.

(** A vertex the pointer can pick: visible, and within [radius] of
    [worldPos]. *)
Definition inReach (worldPos : Point) (radius : R) (v : Vertex) : bool :=
  visible v && nle (distance worldPos (pos v)) radius.

End Engine.

Arguments Point R : clear implicits.
Arguments Vertex R : clear implicits.
Arguments EdgeObj R : clear implicits.
Arguments Graph R : clear implicits.
Arguments VertexRef R : clear implicits.
Arguments outcome R A : clear implicits.
Arguments M R A : clear implicits.
Arguments View R : clear implicits.
Arguments Ret {R A} a g.
Arguments Throw {R A} g.
Arguments Beyond {R A}.
Arguments mkPoint {R} px py.
Arguments mkVertex {R} vx vy visible vid.
Arguments mkEdge {R} start end_.
Arguments mkGraph {R} vertices edges periphery selectedVertices
  segmentVertices manualMode maxVertexId.
Arguments mkView {R} zoom panX panY canvasWidth canvasHeight
  devicePixelRatio.

(** ** IEEE-754 binary64: the numbers of the running program *)

Module Float64.

Local Open Scope float_scope.

(** An integer read as a number (exact below 2^53 in magnitude). *)
Definition ofZ (z : Z) : float :=
  match z with
  | Z0 => 0
  | Zpos _ => PrimFloat.of_uint63 (Uint63.of_Z z)
  | Zneg p => - PrimFloat.of_uint63 (Uint63.of_Z (Zpos p))
  end.

(** [Math.PI] *)
Definition PI : float := 0x1.921fb54442d18p+1.

(** [Math.max] and [Math.min] of two arguments: [NaN] if either is, and
    [-0] below [+0]. *)
Definition max (a b : float) : float :=
  if PrimFloat.is_nan a || PrimFloat.is_nan b then nan
  else if a <? b then b
  else if b <? a then a
  else if PrimFloat.get_sign a then b else a.

Definition min (a b : float) : float :=
  if PrimFloat.is_nan a || PrimFloat.is_nan b then nan
  else if a <? b then a
  else if b <? a then b
  else if PrimFloat.get_sign a then a else b.

(** [x ** y].  The engine only squares; a square is the rounded
    product. *)
Definition pow (x y : float) : float :=
  if y =? 2 then x * x else nan.

(** *** The transcendental functions

    ECMAScript leaves [Math.cos], [Math.sin] and [Math.atan2]
    implementation-approximated.  The engine calls the first two only on
    the eight angles [k * (Math.PI / 4)], [k = 0..7]: they are tabulated
    here with the binary64 nearest to the exact value.  [atan2] is only
    compared with itself (it orders the hull sweep): it is computed to
    within a few units in the last place, with the exact values the
    standard fixes on the axes. *)

Definition octant (a : float) : option nat :=
  find (fun k => a =? ofZ (Z.of_nat k) * (PI / 4)) (seq 0 8).

Definition cos (a : float) : float :=
  match octant a with
  | Some 0%nat => 1
  | Some 1%nat => 0x1.6a09e667f3bcdp-1
  | Some 2%nat => 0x1.1a62633145c07p-54
  | Some 3%nat => -0x1.6a09e667f3bccp-1
  | Some 4%nat => -1
  | Some 5%nat => -0x1.6a09e667f3bcep-1
  | Some 6%nat => -0x1.a79394c9e8a0ap-53
  | Some 7%nat => 0x1.6a09e667f3bcbp-1
  | _ => nan
  end.

Definition sin (a : float) : float :=
  match octant a with
  | Some 0%nat => 0
  | Some 1%nat => 0x1.6a09e667f3bccp-1
  | Some 2%nat => 1
  | Some 3%nat => 0x1.6a09e667f3bcdp-1
  | Some 4%nat => 0x1.1a62633145c07p-53
  | Some 5%nat => -0x1.6a09e667f3bccp-1
  | Some 6%nat => -1
  | Some 7%nat => -0x1.6a09e667f3bcep-1
  | _ => nan
  end.

(** The arctangent series, for arguments below 0.1. *)
Definition atanSeries (t : float) : float :=
  let s := t * t in
  t * (1 - s * (1 / 3 - s * (1 / 5 - s * (1 / 7 - s * (1 / 9 -
       s * (1 / 11 - s * (1 / 13 - s / 15))))))).

(** [atan t = 2 * atan (t / (1 + sqrt (1 + t^2)))] *)
Definition halfAngle (t : float) : float := t / (1 + PrimFloat.sqrt (1 + t * t)).

Definition atanPos (t : float) : float :=
  if t <=? 1 then 8 * atanSeries (halfAngle (halfAngle (halfAngle t)))
  else PI / 2 - 8 * atanSeries (halfAngle (halfAngle (halfAngle (1 / t)))).

Definition atan2 (y x : float) : float :=
  if PrimFloat.is_nan x || PrimFloat.is_nan y then nan
  else if y =? 0 then
    if (0 <? x) || ((x =? 0) && negb (PrimFloat.get_sign x)) then y
    else if PrimFloat.get_sign y then - PI else PI
  else if x =? 0 then
    if y <? 0 then - (PI / 2) else PI / 2
  else
    let a := atanPos (PrimFloat.abs y / PrimFloat.abs x) in
    let b := if x <? 0 then PI - a else a in
    if y <? 0 then - b else b.

(** A number that is neither an infinity nor [NaN]. *)
Definition finite (x : float) : bool :=
  match Prim2SF x with
  | S754_zero _ | S754_finite _ _ _ => true
  | _ => false
  end.

(** What a number is, the sign of a zero apart. *)
Definition unsigned (x : spec_float) : spec_float :=
  match x with
  | S754_zero _ => S754_zero false
  | _ => x
  end.

(** Two numbers are the same but for the sign of a zero: no comparison
    tells them apart. *)
Definition same (x y : float) : Prop :=
  unsigned (Prim2SF x) = unsigned (Prim2SF y).

#[export] Instance number : JSNumber float := {|
  nadd := PrimFloat.add;
  nsub := PrimFloat.sub;
  nmul := PrimFloat.mul;
  ndiv := PrimFloat.div;
  npow := pow;
  nlt := PrimFloat.ltb;
  neq := PrimFloat.eqb;
  nofZ := ofZ;
  Math_sqrt := PrimFloat.sqrt;
  Math_cos := cos;
  Math_sin := sin;
  Math_atan2 := atan2;
  Math_max := max;
  Math_min := min;
  Math_PI := PI
|}.

End Float64.

(** * States of the editor on binary64 *)

Module States.

Import Float64.
Local Open Scope float_scope.

(** The integer a finite number holds (truncated when it holds none). *)
Definition toZ (x : float) : Z :=
  match Prim2SF x with
  | S754_finite s m e =>
      let v := Z.shiftl (Z.pos m) e in if s then (- v)%Z else v
  | _ => 0%Z
  end.

(** The graph of a fresh editor with the manual mode switched on. *)
Definition manual : Graph float := set_manualMode true newGraph.

(** ** A placement that is not found

    Clicking vertices 2 and 3 of the triangle inserts vertex 4 below its
    base; "redraw" recomputes the periphery as [2; 0; 1; 3] (storage
    indices); clicking index 2 and then index 3 selects the arc from
    position 0 to position 3, which is the whole periphery.  [crowded]
    is the state in which [processSegmentSelection] is then called. *)
Definition crowded : Graph float :=
  mkGraph
    [ mkVertex 0 (-100) true 1; mkVertex (-87) 50 true 2;
      mkVertex 87 50 true 3; mkVertex 0 130 true 4 ]
    [ (0, 1); (1, 2); (2, 0); (3, 1); (3, 2) ]%Z
    [ 2; 0; 1; 3 ]%Z
    [ 2; 3 ]%Z
    [ 2; 0; 1; 3 ]%Z
    true
    4%Z.

(** [crowded] but for the last click. *)
Definition crowdedBeforeClick : Graph float :=
  set_segmentVertices [] (set_selectedVertices [2%Z] crowded).

(** ** An insertion that is rolled back

    Vertex 4 is inserted on the segment (0, 2), hidden ("go to" 3), the
    periphery redrawn, vertex 5 inserted on the segment (2, 0), and all
    vertices shown again ("go to" 6): the edges of vertex 4 and of
    vertex 5 now cross.  [tangled] is the state in which the clicks on
    indices 4 and 1 then call [processSegmentSelection]. *)
Definition tangled : Graph float :=
  mkGraph
    [ mkVertex 0 (-100) true 1; mkVertex (-87) 50 true 2;
      mkVertex 87 50 true 3;
      mkVertex (-0x1.4aeb4c3dbdbd8p-45) (-200) true 4;
      mkVertex 0x1.c371c8443d521p+6 (-0x1.03736a44a4b68p+6) true 5 ]
    [ (0, 1); (1, 2); (2, 0); (3, 0); (3, 1); (3, 2); (4, 2); (4, 0) ]%Z
    [ 4; 1 ]%Z
    [ 4; 1 ]%Z
    [ 4; 1 ]%Z
    true
    5%Z.

(** The state the rolled-back insertion leaves. *)
Definition untangled : Graph float :=
  set_maxVertexId 6 (set_periphery [ 2; 4; 3; 1 ]%Z tangled).

(** ** A thin hull far from the origin

    Four vertices in convex position with integer coordinates within 5
    of each other and 2^52 below the x axis: the differences of the
    area sum are exact, the sums [y_j + y_i] exceed 2^53 and round. *)
Definition sliver : Graph float :=
  mkGraph
    [ mkVertex 2 (-4503599627370497) true 1;
      mkVertex (-2) (-4503599627370499) true 2;
      mkVertex 1 (-4503599627370497) true 3;
      mkVertex (-3) (-4503599627370498) true 4 ]
    [ (2, 3); (3, 1); (1, 0); (0, 2) ]%Z
    [ 2; 3; 1; 0 ]%Z [] [] false 4%Z.

(** ** Points in line with the anchor of the hull

    The anchor (0, 0), two points on its horizontal, the farther one
    stored first, and a point above the line (smaller [y]). *)
Definition aligned : list (Vertex float) :=
  [ mkVertex 0 0 true 1; mkVertex 2 0 true 2;
    mkVertex 1 0 true 3; mkVertex 1 (-1) true 4 ].

(** The same points, the nearer of the two stored first. *)
Definition alignedSwapped : list (Vertex float) :=
  [ mkVertex 0 0 true 1; mkVertex 1 0 true 3;
    mkVertex 2 0 true 2; mkVertex 1 (-1) true 4 ].

(** The state after the first insertion (vertex 4 on the base of the
    triangle). *)
Definition afterFirst : Graph float :=
  mkGraph
    [ mkVertex 0 (-100) true 1; mkVertex (-87) 50 true 2;
      mkVertex 87 50 true 3; mkVertex 0 130 true 4 ]
    [ (0, 1); (1, 2); (2, 0); (3, 1); (3, 2) ]%Z
    [ 0; 3 ]%Z [] [] true 4%Z.

(** [tangled] but for the last click. *)
Definition tangledBeforeClick : Graph float :=
  set_segmentVertices [] (set_selectedVertices [4%Z] tangled).

(** The anchor of [aligned], with its position in the array. *)
Definition anchor : VertexRef float := (0%Z, mkVertex 0 0 true 1).

(** The points level with the anchor: their polar angle is 0. *)
Definition level (r : VertexRef float) : bool := py (vref r) =? 0.

(** The periphery of the triangle, recomputed. *)
Definition redrawn : Graph float := set_periphery [2; 0; 1]%Z manual.

(** The triangle after "go to" 2: its third vertex is hidden. *)
Definition twoShown : Graph float :=
  mkGraph
    [ mkVertex 0 (-100) true 1; mkVertex (-87) 50 true 2;
      mkVertex 87 50 false 3 ]
    [ (0, 1); (1, 2); (2, 0) ]%Z
    [ 0; 1; 2 ]%Z [] [] false 3%Z.

End States.

(** * The earlier engine: class [Graph] of part_000

    The earlier version of the class places a vertex with [addVertex],
    joined to the selected vertices, at a position proposed by
    [findOptimalPosition].  Its data are those of the later version
    (it has no [segmentVertices], which is left alone here); [ccw],
    [distance], [pointToLineDistance], [pointInPolygon] and
    [ensureClockwiseOrder] are the same code in both versions. *)

Module Part000.

Section Engine.

Context {R : Type} {num : JSNumber R}.
Local Open Scope js_scope.

Local Notation "x <- m ;; k" := (bind m (fun x => k))
  (at level 61, m at next level, right associativity).
Local Notation "m ;; k" := (bind m (fun _ => k))
  (at level 61, right associativity).

(** The texts of the answers. *)
Inductive Notice : Type :=
| TooCloseToVertex
    (* Too close to existing vertex *)
| TooCloseToEdge
    (* Too close to existing edge *)
| NotOutside
    (* Vertex must be placed outside current graph *)
| LimitReached
    (* Maximum vertex limit reached (10,000) *)
| Added (id : Z).
    (* Vertex ${this.maxVertexId} added successfully *)

(** [{ success, message }]; [validateVertexPosition] answers
    [{ success: true }], without a message. *)
Record Answer : Type := mkAnswer {
  success : bool;
  message : option Notice
}.

(** [getConvexHull()] on the array of vertices: all of them, hidden or
    not. *)
Definition convexHull (vs : list (Vertex R)) : list (VertexRef R) :=
  let points := JS.indexed vs in
  if (JS.length points <? 3)%Z then points
  else
    match points with
    | [] => []
    | v0 :: rest =>
        let (start, startPoint) := findStart rest 1 (0%Z, v0) in
        sweep startPoint (sortedPoints points start startPoint)
    end.

Definition getConvexHull : M R (list (VertexRef R)) :=
  vs <- gets vertices ;;
  ret (convexHull vs).

(** [isOutsideGraph(x, y)] *)
Definition isOutsideGraph (x y : R) : M R bool :=
  hull <- getConvexHull ;;
  ret (negb (pointInPolygon (mkPoint x y) (map vref hull))).

(** [validateVertexPosition(x, y, excludeIndex)] *)
Definition validateVertexPosition (x y : R) (excludeIndex : Z) : M R Answer :=
  vs <- gets vertices ;;
  r1 <- forOf (JS.indexed vs) (fun iv =>
    if (fst iv =? excludeIndex)%Z then ret None
    else
      let dist := distance (mkPoint x y) (pos (snd iv)) in
      if dist <? #44 then ret (Some (mkAnswer false (Some TooCloseToVertex)))
      else ret None) ;;
  match r1 with
  | Some a => ret a
  | None =>
      es <- gets edges ;;
      r2 <- forOf es (fun e =>
        if (fst e =? excludeIndex)%Z || (snd e =? excludeIndex)%Z then ret None
        else
          vs <- gets vertices ;;
          lineEnd <- orThrow (option_map pos (JS.get vs (snd e))) ;;
          lineStart <- orThrow (option_map pos (JS.get vs (fst e))) ;;
          let dist := pointToLineDistance (mkPoint x y) lineStart lineEnd in
          if dist <? #22 then ret (Some (mkAnswer false (Some TooCloseToEdge)))
          else ret None) ;;
      match r2 with
      | Some a => ret a
      | None =>
          outside <- isOutsideGraph x y ;;
          if negb outside then ret (mkAnswer false (Some NotOutside))
          else ret (mkAnswer true None)
      end
  end.

(** [updatePeriphery()]: [indexOf] finds a vertex object at its own
    position. *)
Definition updatePeriphery : M R unit :=
  hull <- getConvexHull ;;
  modify (set_periphery (map fst hull)) ;;
  ensureClockwiseOrder.

(** [addVertex(x, y)].  [++this.maxVertexId] is the successor of the
    counter, as it is while the counter is [JS.incrementable]. *)
Definition addVertex (x y : R) : M R Answer :=
  vs <- gets vertices ;;
  if (10000 <=? JS.length vs)%Z
  then ret (mkAnswer false (Some LimitReached))
  else
    modify (fun g => set_maxVertexId (maxVertexId g + 1)%Z g) ;;
    id <- gets maxVertexId ;;
    let newVertex := mkVertex x y true id in
    let newIndex := JS.length vs in
    validation <- validateVertexPosition x y newIndex ;;
    if negb (success validation) then ret validation
    else
      modify (fun g => set_vertices (vertices g ++ [newVertex]) g) ;;
      selected <- gets selectedVertices ;;
      modify (fun g =>
                set_edges (edges g ++
                           map (fun vertexIndex => (vertexIndex, newIndex))
                               selected) g) ;;
      updatePeriphery ;;
      modify (set_selectedVertices []) ;;
      maxId <- gets maxVertexId ;;
      ret (mkAnswer true (Some (Added maxId))).

(** [wouldCauseIntersection(newEdge)] *)
Definition wouldCauseIntersection (newEdge : Z * Z) : M R bool :=
  let (i, j) := newEdge in
  vs <- gets vertices ;;
  let p1 := option_map pos (JS.get vs i) in
  let p2 := option_map pos (JS.get vs j) in
  es <- gets edges ;;
  r <- forOf es (fun e =>
    let (k, l) := e in
    if (k =? i)%Z || (k =? j)%Z || (l =? i)%Z || (l =? j)%Z then ret None
    else
      vs <- gets vertices ;;
      let p3 := option_map pos (JS.get vs k) in
      let p4 := option_map pos (JS.get vs l) in
      crossing <- orThrow (segmentsIntersectU p1 p2 p3 p4) ;;
      if crossing then ret (Some true) else ret None) ;;
  match r with
  | Some b => ret b
  | None => ret false
  end.

(** The centroid of the selected vertices; [None] when an entry names
    no vertex ([this.vertices[index].x] on [undefined]). *)
Definition centroid (vs : list (Vertex R)) (selectedIndices : list Z)
  : option (Point R) :=
  match sumSegment vs selectedIndices #0 #0 with
  | Some c =>
      Some (mkPoint (fst c / nofZ (JS.length selectedIndices))
                    (snd c / nofZ (JS.length selectedIndices)))
  | None => None
  end.

(** The graph center: the mean of all the vertices. *)
Definition graphCenter (vs : list (Vertex R)) : Point R :=
  let gx := fold_left (fun g v => g + vx v) vs #0 in
  let gy := fold_left (fun g v => g + vy v) vs #0 in
  mkPoint (gx / nofZ (JS.length vs)) (gy / nofZ (JS.length vs)).

(** [selectedIndices[1] || selectedIndices[0]]: the first entry when
    the second is [undefined] or [0]. *)
Definition secondOrFirst (selectedIndices : list Z) : option Z :=
  match JS.get selectedIndices 1 with
  | Some i => if (i =? 0)%Z then JS.get selectedIndices 0 else Some i
  | None => JS.get selectedIndices 0
  end.

(** [arr[i]] where [i] may be [undefined]. *)
Definition getU {A : Type} (l : list A) (i : option Z) : option A :=
  match i with
  | Some i => JS.get l i
  | None => None
  end.

(** The position of the fallback: 100 along the perpendicular of the
    first selected edge.  [-edgeDy] is the product by [-1], which is
    exact. *)
Definition fallback (c v1 v2 : Point R) : Point R :=
  let edgeDx := px v2 - px v1 in
  let edgeDy := py v2 - py v1 in
  let perpDx := #(-1) * edgeDy in
  let perpDy := edgeDx in
  let perpLen := Math_sqrt (perpDx * perpDx + perpDy * perpDy) in
  mkPoint (px c + (perpDx / perpLen) * #100)
          (py c + (perpDy / perpLen) * #100).

(** The values of [dist] in [for (dist = 60; dist <= 200; dist += 20)]. *)
Definition distances : list Z := [60; 80; 100; 120; 140; 160; 180; 200]%Z.

(** The candidate at distance [dist] from the centroid [c] along
    [(ndx, ndy)]. *)
Definition candidate (c : Point R) (ndx ndy : R) (dist : Z) : Point R :=
  mkPoint (px c + ndx * nofZ dist) (py c + ndy * nofZ dist).

(** [findOptimalPosition(selectedIndices)]; [None] is [null]. *)
Definition findOptimalPosition (selectedIndices : list Z)
  : M R (option (Point R)) :=
  vs <- gets vertices ;;
  c <- orThrow (centroid vs selectedIndices) ;;
  let g := graphCenter vs in
  let dx := px c - px g in
  let dy := py c - py g in
  let len := Math_sqrt (dx * dx + dy * dy) in
  if len === #0 then
    vs <- gets vertices ;;
    v2 <- orThrow (option_map pos (getU vs (secondOrFirst selectedIndices))) ;;
    v1 <- orThrow (option_map pos (getU vs (JS.get selectedIndices 0))) ;;
    ret (Some (fallback c v1 v2))
  else
    let ndx := dx / len in
    let ndy := dy / len in
    forOf distances (fun dist =>
      let p := candidate c ndx ndy dist in
      validation <- validateVertexPosition (px p) (py p) (-1) ;;
      if success validation then ret (Some p) else ret None).

End Engine.

End Part000.

(** * Properties *)

Section Properties.

Context {R : Type} {num : JSNumber R}.
Local Open Scope js_scope.

Local Abbreviation Point := (Point R).
Local Abbreviation Vertex := (Vertex R).
Local Abbreviation Graph := (Graph R).
Local Abbreviation VertexRef := (VertexRef R).
Local Abbreviation outcome := (outcome R).
Local Abbreviation M := (M R).
Local Abbreviation View := (View R).
Local Abbreviation reads := (@reads R _).
Local Abbreviation grows := (@grows R _).

(** ** Methods that only read [this] *)

Lemma reads_ret {A : Type} (a : A) : reads (ret a).
Proof. intro g. reflexivity. Qed.

Lemma reads_gets {A : Type} (f : Graph -> A) : reads (gets f).
Proof. intro g. reflexivity. Qed.

Lemma reads_orThrow {A : Type} (o : option A) : reads (orThrow o).
Proof. intro g. unfold orThrow. destruct o; reflexivity. Qed.

Lemma reads_bind {A B : Type} (m : M A) (f : A -> M B) :
  reads m -> (forall a, reads (f a)) -> reads (bind m f).
Proof.
  intros Hm Hf g. unfold bind. specialize (Hm g).
  destruct (m g) as [a g' | g' | ]; subst; try easy.
  apply Hf.
Qed.

Lemma reads_forOf {A B : Type} (xs : list A) (body : A -> M (option B)) :
  (forall a, reads (body a)) -> reads (forOf xs body).
Proof.
  intro Hb. induction xs as [| a xs IH]; simpl.
  - apply reads_ret.
  - apply reads_bind; [apply Hb |].
    intros [b |]; [apply reads_ret | exact IH].
Qed.

Lemma reads_forPairs {A B : Type} (xs : list A) (body : A -> A -> M (option B)) :
  (forall a b, reads (body a b)) -> reads (forPairs xs body).
Proof.
  intro Hb. induction xs as [| a xs IH]; simpl.
  - apply reads_ret.
  - apply reads_bind; [apply reads_forOf; apply Hb |].
    intros [b |]; [apply reads_ret | exact IH].
Qed.

(** What a reading method tells about one run. *)
Lemma reads_Ret {A : Type} (m : M A) (g g' : Graph) (a : A) :
  reads m -> m g = Ret a g' -> g' = g.
Proof. intros H E. specialize (H g). rewrite E in H. exact H. Qed.

Lemma reads_Throw {A : Type} (m : M A) (g g' : Graph) :
  reads m -> m g = Throw g' -> g' = g.
Proof. intros H E. specialize (H g). rewrite E in H. exact H. Qed.

Lemma reads_Beyond {A : Type} (m : M A) (g : Graph) :
  reads m -> m g <> Beyond.
Proof. intros H E. specialize (H g). rewrite E in H. exact H. Qed.

Create HintDb frame.
#[local] Hint Resolve reads_ret reads_gets reads_orThrow : frame.

(** Goals [reads m] for [m] built from the combinators above. *)
Ltac frame :=
  repeat first
    [ progress intros
    | solve [auto with frame]
    | apply reads_bind
    | apply reads_forOf
    | apply reads_forPairs
    | match goal with
      | |- reads (if ?b then _ else _) => destruct b
      | |- reads (match ?o with Some _ => _ | None => _ end) => destruct o
      | |- reads (let (_, _) := ?p in _) => destruct p
      | |- reads (match ?p with (_, _) => _ end) => destruct p
      end ].

Lemma reads_getConvexHull : reads getConvexHull.
Proof. unfold getConvexHull. frame. Qed.

Lemma reads_isOutsideGraph (x y margin : R) : reads (isOutsideGraph x y margin).
Proof. unfold isOutsideGraph. pose proof reads_getConvexHull. frame. Qed.

Lemma reads_validateNewEdges (newVertexPos : Point) (segmentVertices : list Z) :
  reads (validateNewEdges newVertexPos segmentVertices).
Proof. unfold validateNewEdges. frame. Qed.

Lemma reads_calculateCentroid (segmentVertices : list Z) :
  reads (calculateCentroid segmentVertices).
Proof. unfold calculateCentroid. frame. Qed.

Lemma reads_calculateGraphCenter : reads calculateGraphCenter.
Proof. unfold calculateGraphCenter. frame. Qed.

Lemma reads_validateBasicPosition (candidate : Point) :
  reads (validateBasicPosition candidate).
Proof.
  unfold validateBasicPosition.
  pose proof (reads_isOutsideGraph (px candidate) (py candidate) #40).
  frame.
Qed.

Lemma reads_validateGraphIntegrity : reads validateGraphIntegrity.
Proof. unfold validateGraphIntegrity. frame. Qed.

#[local] Hint Resolve reads_getConvexHull reads_isOutsideGraph
  reads_validateNewEdges reads_calculateCentroid reads_calculateGraphCenter
  reads_validateBasicPosition reads_validateGraphIntegrity : frame.

Lemma reads_attempts (centroid direction : Point) (segmentVertices : list Z)
  (remaining attempt : nat) :
  reads (attempts centroid direction segmentVertices remaining attempt).
Proof.
  revert attempt. induction remaining as [| n IH]; intro attempt; simpl.
  - apply reads_ret.
  - apply reads_bind; [auto with frame |]. intro basicValidation.
    destruct (negb (valid basicValidation)); [apply IH |].
    apply reads_bind; [auto with frame |]. intro intersectionCheck.
    destruct (valid intersectionCheck); [apply reads_ret | apply IH].
Qed.

Lemma reads_findNonIntersectingPosition (segmentVertices : list Z) :
  reads (findNonIntersectingPosition segmentVertices).
Proof.
  unfold findNonIntersectingPosition.
  apply reads_bind; [auto with frame |]. intro centroid.
  apply reads_bind; [auto with frame |]. intro graphCenter.
  apply reads_attempts.
Qed.

#[local] Hint Resolve reads_findNonIntersectingPosition : frame.

(** C8.  The placement search mutates no graph state: run on any state
    and any segment, [findNonIntersectingPosition] returns (a position
    or [null]) or throws, and in both cases the vertex list, the edge
    list, the periphery, the selection and the segment-vertex list are
    the ones it was called with. *)
Theorem findNonIntersectingPosition_mutates_nothing :
  forall (segment : list Z) (g : Graph),
  exists g',
    (findNonIntersectingPosition segment g = Throw g' \/
     exists r, findNonIntersectingPosition segment g = Ret r g') /\
    vertices g' = vertices g /\
    edges g' = edges g /\
    periphery g' = periphery g /\
    selectedVertices g' = selectedVertices g /\
    segmentVertices g' = segmentVertices g.
Proof.
  intros segment g.
  pose proof (reads_findNonIntersectingPosition segment g) as H.
  destruct (findNonIntersectingPosition segment g) as [r g' | g' | ] eqn:E;
    [ | | contradiction ]; subst g'; exists g; repeat split; eauto.
Qed.

(** ** Extraction of a periphery segment *)

Lemma JS_get_Some {A : Type} (l : list A) (i : Z) :
  (0 <= i < JS.length l)%Z -> exists a, JS.get l i = Some a.
Proof.
  intros [H0 H1]. unfold JS.get, JS.length in *.
  destruct (i <? 0)%Z eqn:E; [apply Z.ltb_lt in E; lia |].
  destruct (nth_error l (Z.to_nat i)) as [a |] eqn:En; [eauto |].
  apply nth_error_None in En. lia.
Qed.

Lemma JS_get_range {A : Type} (l : list A) (i : Z) (a : A) :
  JS.get l i = Some a -> (0 <= i < JS.length l)%Z.
Proof.
  unfold JS.get, JS.length. destruct (i <? 0)%Z eqn:E; [discriminate |].
  apply Z.ltb_ge in E. intro H.
  assert (nth_error l (Z.to_nat i) <> None) as Hn by congruence.
  apply nth_error_Some in Hn. lia.
Qed.

Lemma arcFrom_length (periphery : list Z) (current : Z) (k : nat) :
  List.length (arcFrom periphery current k) = k.
Proof. revert current. induction k; intro c; simpl; auto. Qed.

Lemma allDefined_app (l1 l2 : list (option Z)) :
  allDefined l1 <> None -> allDefined l2 <> None -> allDefined (l1 ++ l2) <> None.
Proof.
  induction l1 as [| [a |] l1 IH]; simpl; intros H1 H2; auto.
  destruct (allDefined l1) eqn:E1; simpl in *; [| congruence].
  destruct (allDefined (l1 ++ l2)); simpl; [discriminate |].
  apply IH; congruence.
Qed.

Lemma arcFrom_defined (periphery : list Z) (current : Z) (k : nat) :
  (0 <= current < JS.length periphery)%Z ->
  allDefined (arcFrom periphery current k) <> None.
Proof.
  revert current. induction k as [| k IH]; intros c Hc; simpl; [discriminate |].
  destruct (JS_get_Some periphery c Hc) as [a Ha]. rewrite Ha.
  assert (0 <= (c + 1) mod JS.length periphery < JS.length periphery)%Z as Hn
    by (apply Z.mod_pos_bound; lia).
  specialize (IH _ Hn).
  destruct (allDefined (arcFrom periphery ((c + 1) mod JS.length periphery) k));
    simpl; congruence.
Qed.

(** From a position [current], the loop exits after [d + 1] iterations,
    [d] being the clockwise distance to [endIdx]. *)
Lemma getPeripherySegment_loop_exits (periphery : list Z) (endIdx : Z) :
  (0 <= endIdx < JS.length periphery)%Z ->
  forall (d : nat) (current : Z) (segment : list (option Z)) (fuel : nat),
    (0 <= current < JS.length periphery)%Z ->
    Z.of_nat d = ((endIdx - current) mod JS.length periphery)%Z ->
    (d < fuel)%nat ->
    getPeripherySegment_loop fuel periphery (Some current) endIdx segment =
      Some (segment ++ arcFrom periphery current (S d)).
Proof.
  intros He. set (n := JS.length periphery) in *.
  induction d as [| d IH]; intros c seg fuel Hc Hd Hf;
    (destruct fuel as [| fuel]; [lia |]); cbn [getPeripherySegment_loop].
  - assert (c = endIdx) as ->.
    { symmetry in Hd. apply Z.mod_divide in Hd; [| lia].
      destruct Hd as [q Hq]. assert (q = 0)%Z by nia. lia. }
    rewrite Z.eqb_refl. reflexivity.
  - assert (c <> endIdx) as Hne.
    { intros ->. rewrite Z.sub_diag, Z.mod_0_l in Hd; lia. }
    apply Z.eqb_neq in Hne. rewrite Hne.
    unfold JS.rem. fold n.
    destruct (n =? 0)%Z eqn:En; [apply Z.eqb_eq in En; lia |].
    rewrite Z.rem_mod_nonneg by lia.
    assert (0 <= (c + 1) mod n < n)%Z as Hn by (apply Z.mod_pos_bound; lia).
    rewrite (IH ((c + 1) mod n)%Z _ fuel Hn); [| | lia].
    + rewrite <- app_assoc. reflexivity.
    + pose proof (Z.mod_pos_bound (endIdx - c) n ltac:(lia)) as Hb.
      rewrite Zminus_mod_idemp_r.
      replace (endIdx - (c + 1))%Z with ((endIdx - c) - 1)%Z by lia.
      rewrite <- Zminus_mod_idemp_l, <- Hd.
      rewrite Z.mod_small; lia.
Qed.

(** When [endIdx] is no position of the periphery, the loop started at a
    non-negative [current] other than [endIdx] never exits. *)
Lemma getPeripherySegment_loop_never (periphery : list Z) (endIdx : Z) :
  ~ (0 <= endIdx < JS.length periphery)%Z ->
  forall (fuel : nat) (current : option Z) (segment : list (option Z)),
    match current with
    | Some c => (0 <= c)%Z /\ c <> endIdx
    | None => True
    end ->
    getPeripherySegment_loop fuel periphery current endIdx segment = None.
Proof.
  intros He. induction fuel as [| fuel IH]; intros cur seg Hc; [reflexivity |].
  cbn [getPeripherySegment_loop].
  destruct cur as [c |].
  - destruct Hc as [H0 Hne]. apply Z.eqb_neq in Hne. rewrite Hne.
    apply IH. unfold JS.rem.
    destruct (JS.length periphery =? 0)%Z eqn:En; [exact I |].
    apply Z.eqb_neq in En.
    assert (0 < JS.length periphery)%Z by (unfold JS.length in *; lia).
    rewrite Z.rem_mod_nonneg by lia.
    assert (0 <= (c + 1) mod JS.length periphery < JS.length periphery)%Z
      by (apply Z.mod_pos_bound; lia).
    split; [lia |]. intro Heq. apply He. rewrite <- Heq. lia.
  - apply IH. exact I.
Qed.

(** Between two positions the run ends with the arc of [d + 1] entries
    from [startIdx], [d] the clockwise distance to [endIdx]. *)
Lemma getPeripherySegment_run_arc (periphery : list Z) (startIdx endIdx : Z)
  (fuel : nat) :
  (0 <= startIdx < JS.length periphery)%Z ->
  (0 <= endIdx < JS.length periphery)%Z ->
  (List.length periphery <= fuel)%nat ->
  getPeripherySegment_run fuel periphery startIdx endIdx =
    Some (arcFrom periphery startIdx
            (S (Z.to_nat ((endIdx - startIdx) mod JS.length periphery)))).
Proof.
  intros Hs He Hf. unfold getPeripherySegment_run.
  set (n := JS.length periphery) in *.
  assert (0 <= (endIdx - startIdx) mod n < n)%Z as Hd
    by (apply Z.mod_pos_bound; lia).
  destruct (startIdx =? endIdx)%Z eqn:Ese.
  - apply Z.eqb_eq in Ese. subst endIdx.
    rewrite Z.sub_diag, Z.mod_0_l by lia. reflexivity.
  - rewrite (getPeripherySegment_loop_exits periphery endIdx He
               (Z.to_nat ((endIdx - startIdx) mod n)) startIdx []);
      try reflexivity; try assumption; fold n.
    + lia.
    + unfold n, JS.length in *. lia.
Qed.

(** C10.  [getPeripherySegment] terminates on every pair of positions of
    the periphery, within as many iterations as the periphery has
    entries, and returns at most that many entries, each a defined one;
    the bound on [endIdx] cannot be dropped: from a position [startIdx],
    with an [endIdx] that is no position, the loop (which advances modulo
    the length and only stops on [endIdx]) never exits, whatever the
    number of iterations granted. *)
Theorem getPeripherySegment_terminates :
  forall (periphery : list Z) (startIdx endIdx : Z),
    (0 <= startIdx < JS.length periphery)%Z ->
    ((0 <= endIdx < JS.length periphery)%Z ->
     exists segment,
       (forall fuel, (List.length periphery <= fuel)%nat ->
          getPeripherySegment_run fuel periphery startIdx endIdx = Some segment) /\
       (List.length segment <= List.length periphery)%nat /\
       allDefined segment <> None) /\
    (~ (0 <= endIdx < JS.length periphery)%Z ->
     forall fuel, getPeripherySegment_run fuel periphery startIdx endIdx = None).
Proof.
  intros p s e Hs. split.
  - intro He.
    exists (arcFrom p s (S (Z.to_nat ((e - s) mod JS.length p)))).
    pose proof (Z.mod_pos_bound (e - s) (JS.length p) ltac:(lia)) as Hd.
    split; [| split].
    + intros fuel Hf. apply getPeripherySegment_run_arc; assumption.
    + rewrite arcFrom_length. unfold JS.length in *. lia.
    + apply arcFrom_defined. exact Hs.
  - intros He fuel. unfold getPeripherySegment_run.
    destruct (s =? e)%Z eqn:Ese.
    + apply Z.eqb_eq in Ese. subst e. contradiction.
    + apply Z.eqb_neq in Ese.
      apply getPeripherySegment_loop_never; [exact He |]. split; [lia | exact Ese].
Qed.

(** ** The periphery updates *)

Lemma set_periphery_twice (p q : list Z) (g : Graph) :
  set_periphery p (set_periphery q g) = set_periphery p g.
Proof. reflexivity. Qed.

Lemma set_periphery_same (g : Graph) : set_periphery (periphery g) g = g.
Proof. destruct g; reflexivity. Qed.

Lemma ensureClockwiseOrder_eq (g : Graph) :
  ensureClockwiseOrder g =
    match clockwise (vertices g) (periphery g) with
    | Some p => Ret tt (set_periphery p g)
    | None => Throw g
    end.
Proof.
  unfold ensureClockwiseOrder, clockwise, bind, gets, orThrow, modify, ret.
  destruct (JS.length (periphery g) <? 3)%Z.
  - rewrite set_periphery_same. reflexivity.
  - destruct (signedArea (vertices g) (periphery g)) as [area |]; [| reflexivity].
    destruct (area <? #0); [reflexivity |].
    rewrite set_periphery_same. reflexivity.
Qed.

(** [updatePeriphery] sets the periphery to a list computed from the
    vertices alone. *)
Lemma updatePeriphery_eq (g : Graph) :
  updatePeriphery g =
    let hull := map fst (convexHull (vertices g)) in
    match clockwise (vertices g) hull with
    | Some p => Ret tt (set_periphery p g)
    | None => Throw (set_periphery hull g)
    end.
Proof.
  unfold updatePeriphery, getConvexHull, bind, gets, modify, ret.
  rewrite ensureClockwiseOrder_eq. cbn [vertices periphery set_periphery].
  destruct (clockwise (vertices g) (map fst (convexHull (vertices g)))); reflexivity.
Qed.

Lemma updatePeripheryAfterSegmentReplacement_eq (startIdx endIdx newVertexIdx : Z)
  (g : Graph) :
  updatePeripheryAfterSegmentReplacement startIdx endIdx newVertexIdx g =
    let p := periphery g in
    let newPeriphery :=
      if (startIdx <=? endIdx)%Z
      then JS.slice p 0 startIdx ++ [newVertexIdx] ++ JS.sliceFrom p (endIdx + 1)%Z
      else JS.slice p (endIdx + 1)%Z startIdx ++ [newVertexIdx] in
    match clockwise (vertices g) newPeriphery with
    | Some p' => Ret tt (set_periphery p' g)
    | None => Throw (set_periphery newPeriphery g)
    end.
Proof.
  unfold updatePeripheryAfterSegmentReplacement, bind, gets, modify, ret.
  rewrite ensureClockwiseOrder_eq. cbn [vertices periphery set_periphery].
  cbv zeta.
  match goal with |- context [clockwise _ ?q] => destruct (clockwise (vertices g) q) end;
    reflexivity.
Qed.

(** ** Positions found by [indexOf] *)

Lemma indexOf_from_range (l : list Z) (v i : Z) :
  JS.indexOf_from l v i <> (-1)%Z -> (0 <= i)%Z ->
  (i <= JS.indexOf_from l v i < i + JS.length l)%Z.
Proof.
  revert i. induction l as [| a l IH]; intros i H Hi; simpl in *; [congruence |].
  unfold JS.length in *. simpl List.length.
  destruct (a =? v)%Z; [lia |].
  specialize (IH (i + 1)%Z H ltac:(lia)). lia.
Qed.

Lemma indexOf_range (l : list Z) (v : Z) :
  JS.indexOf l v <> (-1)%Z -> (0 <= JS.indexOf l v < JS.length l)%Z.
Proof.
  intro H. pose proof (indexOf_from_range l v 0 H ltac:(lia)). unfold JS.indexOf. lia.
Qed.

(** ** [getPeripherySegment] as a method *)

Lemma getPeripherySegment_outcome (startIdx endIdx : Z) (g : Graph) :
  getPeripherySegment startIdx endIdx g = Beyond \/
  exists segment, getPeripherySegment startIdx endIdx g = Ret segment g.
Proof.
  unfold getPeripherySegment, bind, gets, beyond, ret.
  destruct (getPeripherySegment_run _ _ _ _) as [seg |]; [| auto].
  destruct (allDefined seg) as [l |]; eauto.
Qed.

Lemma allDefined_length (l : list (option Z)) (l' : list Z) :
  allDefined l = Some l' -> List.length l' = List.length l.
Proof.
  revert l'. induction l as [| [a |] l IH]; simpl; intros l' H.
  - injection H as <-. reflexivity.
  - destruct (allDefined l) as [r |]; simpl in H; [| discriminate].
    injection H as <-. simpl. f_equal. apply IH. reflexivity.
  - discriminate.
Qed.

(** Between two positions of the periphery the method returns the arc
    of [d + 1] entries, [d] being the clockwise distance from [startIdx]
    to [endIdx]. *)
Lemma getPeripherySegment_positions (startIdx endIdx : Z) (g : Graph) :
  (0 <= startIdx < JS.length (periphery g))%Z ->
  (0 <= endIdx < JS.length (periphery g))%Z ->
  exists segment,
    getPeripherySegment startIdx endIdx g = Ret segment g /\
    JS.length segment = ((endIdx - startIdx) mod JS.length (periphery g) + 1)%Z.
Proof.
  intros Hs He.
  unfold getPeripherySegment, bind, gets, beyond, ret.
  rewrite (getPeripherySegment_run_arc (periphery g) startIdx endIdx _ Hs He)
    by lia.
  pose proof (arcFrom_defined (periphery g) startIdx
                (S (Z.to_nat ((endIdx - startIdx) mod JS.length (periphery g)))) Hs)
    as Hdef.
  destruct (allDefined _) as [l |] eqn:El; [| congruence].
  exists l. split; [reflexivity |].
  apply allDefined_length in El. rewrite arcFrom_length in El.
  pose proof (Z.mod_pos_bound (endIdx - startIdx) (JS.length (periphery g))
                ltac:(lia)).
  unfold JS.length in *. lia.
Qed.

(** ** The steps of an insertion *)

(** Running a reading method: the three ways it can end. *)
Ltac run_reads E :=
  match goal with
  | |- context [match ?m ?g with Ret _ _ => _ | Throw _ => _ | Beyond => _ end] =>
      let H := fresh "Hreads" in
      assert (reads m) as H by auto with frame;
      destruct (m g) as [? ? | ? | ] eqn:E;
      [ apply (reads_Ret _ _ _ _ H) in E
      | apply (reads_Throw _ _ _ H) in E
      | exfalso; exact (reads_Beyond _ _ H E) ];
      try subst; clear H
  end.

Lemma processSegmentSelection_unfold (g : Graph) :
  processSegmentSelection g = processSegmentSelection_steps g.
Proof.
  unfold processSegmentSelection, processSegmentSelection_steps.
  unfold bind at 1. unfold gets at 1.
  destruct (selectedVertices g) as [| v1 [| v2 [| v3 sel]]]; try reflexivity.
  unfold bind at 1. unfold gets at 1. cbv zeta.
  destruct ((JS.indexOf (periphery g) v1 =? -1)%Z || (JS.indexOf (periphery g) v2 =? -1)%Z);
    [reflexivity |].
  unfold bind at 1.
  destruct (getPeripherySegment_outcome (JS.indexOf (periphery g) v1)
              (JS.indexOf (periphery g) v2) g) as [E | [segment E]];
    rewrite E; [reflexivity |].
  unfold bind at 1. unfold modify at 1.
  unfold bind at 1. unfold gets at 1.
  cbn [segmentVertices set_segmentVertices].
  set (g1 := set_segmentVertices segment g).
  destruct (JS.length segment <? 2)%Z; [reflexivity |].
  unfold bind at 1. unfold gets at 1. fold g1.
  unfold bind at 1.
  replace (segmentVertices g1) with segment by reflexivity.
  run_reads E1; [| reflexivity].
  destruct a as [newPosition |]; [| reflexivity].
  unfold bind at 1. unfold gets at 1.
  replace (segmentVertices g1) with segment by reflexivity.
  unfold bind at 1.
  run_reads E2; [| reflexivity].
  destruct (negb (valid a)); [reflexivity |].
  unfold afterCommit.
  repeat (unfold bind at 1; first [unfold gets at 1 | unfold modify at 1]).
  unfold bind at 1.
  replace (set_edges _ _) with (committed g1 newPosition) by reflexivity.
  replace (JS.length (vertices g1)) with (JS.length (vertices g)) by reflexivity.
  destruct (updatePeripheryAfterSegmentReplacement _ _ _ _) as [[] g3 | g3 | ];
    try reflexivity.
  unfold bind at 1.
  run_reads E3; [| reflexivity].
  destruct (negb (valid a0)).
  - repeat (unfold bind at 1; first [unfold gets at 1 | unfold modify at 1]).
    change (updatePeriphery (set_edges _ _)) with (updatePeriphery (popped g3)).
    destruct (updatePeriphery (popped g3)) as [[] g5 | g5 | ]; reflexivity.
  - reflexivity.
Qed.

(** ** Rejection and rollback *)

(** C2.  When the placement search returns no candidate, the insertion
    returns a failure result and the vertex list, the edge list and the
    periphery are those before the call.  The hypotheses say that the
    call reaches the search (two selected vertices, both on the
    periphery, a segment of at least two vertices) and that the search,
    run on the state the call has then, returns [null]. *)
Theorem processSegmentSelection_no_placement :
  forall (g : Graph) (v1Idx v2Idx : Z) (segment : list Z),
    selectedVertices g = [v1Idx; v2Idx] ->
    JS.indexOf (periphery g) v1Idx <> (-1)%Z ->
    JS.indexOf (periphery g) v2Idx <> (-1)%Z ->
    getPeripherySegment (JS.indexOf (periphery g) v1Idx)
                        (JS.indexOf (periphery g) v2Idx) g = Ret segment g ->
    (2 <= JS.length segment)%Z ->
    findNonIntersectingPosition segment (set_segmentVertices segment g) =
      Ret None (set_segmentVertices segment g) ->
    exists g',
      processSegmentSelection g = Ret (mkResult false MsgNoPlacement) g' /\
      vertices g' = vertices g /\
      edges g' = edges g /\
      periphery g' = periphery g.
Proof.
  intros g v1 v2 segment Hsel H1 H2 Hseg Hlen Hsearch.
  exists (set_segmentVertices segment g).
  split; [| repeat split].
  rewrite processSegmentSelection_unfold. unfold processSegmentSelection_steps.
  rewrite Hsel. cbv zeta.
  apply Z.eqb_neq in H1, H2. rewrite H1, H2. cbn [orb].
  rewrite Hseg.
  destruct (JS.length segment <? 2)%Z eqn:El; [apply Z.ltb_lt in El; lia |].
  rewrite Hsearch. reflexivity.
Qed.

Lemma JS_length_map {A B : Type} (f : A -> B) (l : list A) :
  JS.length (map f l) = JS.length l.
Proof. unfold JS.length. rewrite length_map. reflexivity. Qed.

Lemma pop_app_one {A : Type} (l : list A) (a : A) : pop (l ++ [a]) = l.
Proof. apply removelast_last. Qed.

(** [slice(0, -k)] takes back the [k >= 1] elements appended last. *)
Lemma slice_drop_appended {A : Type} (l m : list A) :
  (1 <= JS.length m)%Z -> JS.slice (l ++ m) 0 (- JS.length m) = l.
Proof.
  intro Hm. unfold JS.slice, JS.clamp, JS.length in *.
  rewrite length_app.
  destruct (0 <? 0)%Z eqn:E0; [discriminate |].
  destruct (- Z.of_nat (List.length m) <? 0)%Z eqn:E1;
    [| apply Z.ltb_ge in E1; lia].
  rewrite Z.min_l by lia. simpl skipn.
  replace (Z.to_nat _) with (List.length l) by lia.
  rewrite firstn_app, Nat.sub_diag, firstn_all. simpl. apply app_nil_r.
Qed.

(** ** What an insertion attempt leaves behind *)

(** Case analysis of a run of [processSegmentSelection_steps] kept in a
    hypothesis. *)
Ltac steps_cases Hrun :=
  repeat match type of Hrun with
  | context [match selectedVertices ?g with _ => _ end] =>
      let Hsel := fresh "Hsel" in
      destruct (selectedVertices g) as [| ? [| ? [| ? ?]]] eqn:Hsel
  | context [if ?b then _ else _] =>
      let Hb := fresh "Hb" in destruct b eqn:Hb
  | context [match clockwise ?vs ?p with _ => _ end] =>
      let Hc := fresh "Hc" in destruct (clockwise vs p) eqn:Hc
  | context [match ?m ?g with Ret _ _ => _ | Throw _ => _ | Beyond => _ end] =>
      let Hm := fresh "Hm" in destruct (m g) as [? ? | ? | ] eqn:Hm
  | context [match ?o with Some _ => _ | None => _ end] =>
      destruct o
  end.

(** The runs of the two periphery updates met on the way. *)
Ltac periphery_cases :=
  repeat match goal with
  | H : updatePeripheryAfterSegmentReplacement _ _ _ _ = _ |- _ =>
      rewrite updatePeripheryAfterSegmentReplacement_eq in H; cbv zeta in H;
      match type of H with
      | context [clockwise ?vs ?p] => destruct (clockwise vs p)
      end;
      try discriminate H;
      inversion H; clear H; subst
  | H : updatePeriphery _ = _ |- _ =>
      rewrite updatePeriphery_eq in H; cbv zeta in H;
      match type of H with
      | context [clockwise ?vs ?p] => destruct (clockwise vs p)
      end;
      try discriminate H;
      inversion H; clear H; subst
  end.

(** The runs of the reading methods met on the way. *)
Ltac reads_cases :=
  repeat match goal with
  | H : getPeripherySegment ?s ?e ?g = Ret _ _ |- _ =>
      let H' := fresh in
      destruct (getPeripherySegment_outcome s e g) as [H' | [? H']];
      rewrite H' in H; [discriminate H |]; injection H as <- <-; clear H'
  | H : getPeripherySegment ?s ?e ?g = Throw _ |- _ =>
      let H' := fresh in
      destruct (getPeripherySegment_outcome s e g) as [H' | [? H']];
      rewrite H' in H; discriminate H
  | H : ?m _ = Throw _ |- _ =>
      apply reads_Throw in H; [subst | solve [auto with frame]]
  | H : ?m _ = Ret _ _ |- _ =>
      apply reads_Ret in H; [subst | solve [auto with frame]]
  end.

(** A failed attempt that returns leaves the selection as it was. *)
Lemma processSegmentSelection_failure (g g' : Graph) (r : Result) :
  processSegmentSelection g = Ret r g' ->
  success r = false ->
  selectedVertices g' = selectedVertices g.
Proof.
  intros Hrun Hfail.
  rewrite processSegmentSelection_unfold in Hrun.
  unfold processSegmentSelection_steps, afterCommit in Hrun.
  cbv zeta in Hrun.
  steps_cases Hrun; try discriminate; periphery_cases;
    injection Hrun as <- <-; try discriminate; try reflexivity; assumption.
Qed.

(** A successful attempt: the message names the new identifier and a
    segment length of 0; the vertex and one edge per segment vertex have
    been appended; selection and segment list are empty. *)
Lemma processSegmentSelection_success (g g' : Graph) (r : Result) :
  processSegmentSelection g = Ret r g' ->
  success r = true ->
  exists (newPosition : Point) (segment : list Z),
    message r = MsgAdded (maxVertexId g + 1)%Z 0 /\
    (2 <= JS.length segment)%Z /\
    vertices g' =
      vertices g ++
        [mkVertex (px newPosition) (py newPosition) true (maxVertexId g + 1)%Z] /\
    edges g' =
      edges g ++ map (fun vIdx => (JS.length (vertices g), vIdx)) segment /\
    selectedVertices g' = [] /\
    segmentVertices g' = [] /\
    maxVertexId g' = (maxVertexId g + 1)%Z.
Proof.
  intros Hrun Hok.
  rewrite processSegmentSelection_unfold in Hrun.
  unfold processSegmentSelection_steps, afterCommit in Hrun.
  cbv zeta in Hrun.
  steps_cases Hrun; try discriminate; periphery_cases;
    injection Hrun as <- <-; try discriminate.
  match goal with
  | H : findNonIntersectingPosition ?seg _ = Ret (Some ?p) _ |- _ =>
      exists p, seg
  end.
  apply Z.ltb_ge in Hb0.
  repeat split; try reflexivity; assumption.
Qed.

(** Whatever way an attempt ends, the identifier counter is the one
    before or its successor. *)
Lemma processSegmentSelection_counter (g : Graph) :
  match processSegmentSelection g with
  | Ret _ g' | Throw g' =>
      maxVertexId g' = maxVertexId g \/ maxVertexId g' = (maxVertexId g + 1)%Z
  | Beyond => True
  end.
Proof.
  destruct (processSegmentSelection g) as [r g' | g' | ] eqn:Hrun; [| | exact I];
    rewrite processSegmentSelection_unfold in Hrun;
    unfold processSegmentSelection_steps, afterCommit in Hrun;
    cbv zeta in Hrun;
    steps_cases Hrun; try discriminate.
  all: try (injection Hrun as <- <-); try (injection Hrun as <-).
  all: try (periphery_cases; reads_cases; cbn; auto; fail).
Qed.

(** ** The identifier counter *)

(** A rolled-back attempt leaves the vertices it found and the counter
    incremented. *)
Lemma processSegmentSelection_rollback_state (g g' : Graph) (r : Result)
  (d : option Diagnostic) :
  processSegmentSelection g = Ret r g' ->
  message r = MsgRolledBack d ->
  vertices g' = vertices g /\ maxVertexId g' = (maxVertexId g + 1)%Z.
Proof.
  intros Hrun Hmsg.
  rewrite processSegmentSelection_unfold in Hrun.
  unfold processSegmentSelection_steps, afterCommit in Hrun.
  cbv zeta in Hrun.
  steps_cases Hrun; try discriminate; periphery_cases;
    injection Hrun as <- <-; try discriminate.
  split; [apply pop_app_one | reflexivity].
Qed.

Lemma grows_reads {A : Type} (m : M A) : reads m -> grows m.
Proof.
  intros H g. specialize (H g).
  destruct (m g); subst; try lia; exact I.
Qed.

Lemma grows_bind {A B : Type} (m : M A) (f : A -> M B) :
  grows m -> (forall a, grows (f a)) -> grows (bind m f).
Proof.
  intros Hm Hf g. unfold bind. specialize (Hm g).
  destruct (m g) as [a g' | g' | ]; try easy.
  specialize (Hf a g'). destruct (f a g'); try easy; lia.
Qed.

Lemma grows_modify (f : Graph -> Graph) :
  (forall g, (maxVertexId g <= maxVertexId (f g))%Z) -> grows (modify f).
Proof. intros H g. apply H. Qed.

Lemma grows_beyond {A : Type} : grows (@beyond R A).
Proof. intro g. exact I. Qed.

Lemma grows_getPeripherySegment (startIdx endIdx : Z) :
  grows (getPeripherySegment startIdx endIdx).
Proof.
  intro g.
  destruct (getPeripherySegment_outcome startIdx endIdx g) as [E | [seg E]];
    rewrite E; [exact I | lia].
Qed.

Lemma grows_updatePeriphery : grows updatePeriphery.
Proof.
  intro g. rewrite updatePeriphery_eq. cbv zeta.
  destruct (clockwise _ _); cbn; lia.
Qed.

Lemma grows_processSegmentSelection : grows processSegmentSelection.
Proof.
  intro g. pose proof (processSegmentSelection_counter g) as H.
  destruct (processSegmentSelection g); try exact I; lia.
Qed.

(** Goals [grows m] for [m] built from the methods above. *)
Ltac grows_tac :=
  repeat first
    [ progress intros
    | assumption
    | progress cbv zeta
    | apply grows_getPeripherySegment
    | apply grows_updatePeriphery
    | apply grows_processSegmentSelection
    | apply grows_beyond
    | apply grows_modify; intro; cbn; lia
    | apply grows_reads; solve [auto with frame]
    | apply grows_bind
    | match goal with
      | |- grows (if ?b then _ else _) => destruct b
      | |- grows (match ?o with Some _ => _ | None => _ end) => destruct o
      | |- grows (match ?l with [] => _ | _ :: _ => _ end) => destruct l
      end ].

Lemma grows_addRandomSegment (r1 r2 : Z) : grows (addRandomSegment r1 r2).
Proof. unfold addRandomSegment. grows_tac. Qed.

Lemma grows_updateSegmentVisualization : grows updateSegmentVisualization.
Proof. unfold updateSegmentVisualization. grows_tac. Qed.

Lemma grows_updateUI : grows updateUI.
Proof.
  unfold updateUI. apply grows_bind; [grows_tac |].
  intro. apply grows_updateSegmentVisualization.
Qed.

Lemma grows_handleMouseDown (vertexIndex : Z) : grows (handleMouseDown vertexIndex).
Proof.
  unfold handleMouseDown.
  pose proof grows_updateSegmentVisualization. pose proof grows_updateUI.
  grows_tac; auto.
Qed.

(** Every command but the reset leaves the counter at least where it
    was. *)
Lemma grows_exec (c : Command) : c <> StartTriangle -> grows (exec c).
Proof.
  pose proof grows_updateUI.
  intro Hc. destruct c; try congruence; cbn [exec].
  - unfold appAddRandomSegment. apply grows_bind; [apply grows_addRandomSegment | auto].
  - unfold toggleManualMode. grows_tac; auto.
  - unfold clearSelection. grows_tac; auto.
  - unfold redrawOptimize. grows_tac; auto.
  - unfold goToVertex. grows_tac; auto.
  - apply grows_handleMouseDown.
Qed.

Lemma run_grows (cs : list Command) :
  ~ In StartTriangle cs ->
  forall g g', run cs g = Some g' -> (maxVertexId g <= maxVertexId g')%Z.
Proof.
  induction cs as [| c cs IH]; intros Hno g g' Hrun; simpl in Hrun.
  - injection Hrun as <-. lia.
  - assert (c <> StartTriangle) as Hc by (intros ->; apply Hno; left; reflexivity).
    pose proof (grows_exec c Hc g) as Hg.
    destruct (exec c g) as [u g1 | g1 | ]; simpl in Hrun; [| | discriminate].
    + assert (maxVertexId g1 <= maxVertexId g')%Z
        by (apply IH; [intro; apply Hno; right |]; assumption).
      lia.
    + assert (maxVertexId g1 <= maxVertexId g')%Z
        by (apply IH; [intro; apply Hno; right |]; assumption).
      lia.
Qed.

(** C9 (as the code has it).  Along any sequence of commands without a
    reset to the triangle, the counter [maxVertexId] never decreases.
    While the counter stays in the range where [++] is the successor
    (from [-2^53] at the start of the sequence to below [2^53] in the
    state reached), a successful insertion in the state reached appends
    one vertex, whose identifier is the incremented counter and is
    above the counter of every earlier state (hence above every
    identifier assigned before); an insertion that is rolled back
    leaves the vertex list as it was and the counter incremented, so
    that identifier is skipped. *)
Theorem maxVertexId_monotone_between_resets :
  forall (cs : list Command) (g g1 : Graph),
    ~ In StartTriangle cs ->
    run cs g = Some g1 ->
    (maxVertexId g <= maxVertexId g1)%Z /\
    (forall r g2,
       (- 2 ^ 53 <= maxVertexId g)%Z ->
       (maxVertexId g1 < 2 ^ 53)%Z ->
       processSegmentSelection g1 = Ret r g2 ->
       (success r = true ->
        exists v,
          vertices g2 = vertices g1 ++ [v] /\
          vid v = maxVertexId g2 /\
          (maxVertexId g < vid v)%Z) /\
       (forall d, message r = MsgRolledBack d ->
          vertices g2 = vertices g1 /\
          maxVertexId g2 = (maxVertexId g1 + 1)%Z)).
Proof.
  intros cs g g1 Hno Hrun.
  pose proof (run_grows cs Hno g g1 Hrun) as Hle.
  split; [exact Hle |].
  intros r g2 _ _ Hins. split.
  - intro Hok.
    destruct (processSegmentSelection_success g1 g2 r Hins Hok)
      as (pos & seg & _ & _ & Hv & _ & _ & _ & Hmax).
    eexists. split; [exact Hv |]. cbn. split; lia.
  - intros d Hd.
    destruct (processSegmentSelection_rollback_state g1 g2 r d Hins Hd) as [Hv Hm].
    split; assumption.
Qed.

(** ** The placement search, as specified *)

Lemma attempts_firstPassing (centroid direction : Point) (segment : list Z)
  (remaining attempt : nat) (g : Graph) :
  attempts centroid direction segment remaining attempt g =
  firstPassing segment
    (map (specCandidate centroid direction) (seq attempt remaining)) g.
Proof.
  revert attempt. induction remaining as [| n IH]; intro attempt; [reflexivity |].
  cbn [attempts seq map firstPassing].
  change (candidateAt centroid direction attempt)
    with (specCandidate centroid direction attempt).
  unfold passes, bind, ret.
  destruct (validateBasicPosition _ g) as [basic g1 | g1 | ] eqn:Eb; try reflexivity.
  apply reads_Ret in Eb; [subst g1 | auto with frame].
  destruct (negb (valid basic)); [apply IH |].
  destruct (validateNewEdges _ _ g) as [crossing g2 | g2 | ] eqn:Ec; try reflexivity.
  apply reads_Ret in Ec; [subst g2 | auto with frame].
  destruct (valid crossing); [reflexivity | apply IH].
Qed.

Lemma reads_passes (segment : list Z) (candidate : Point) :
  reads (passes segment candidate).
Proof. unfold passes. frame. Qed.

(** What [firstPassing] returns over the attempts [a, a + n). *)
Lemma firstPassing_seq (segment : list Z) (f : nat -> Point) (g : Graph) :
  forall (n a : nat) (r : option Point) (g' : Graph),
    firstPassing segment (map f (seq a n)) g = Ret r g' ->
    match r with
    | Some p =>
        exists k, (a <= k < a + n)%nat /\ p = f k /\
          passes segment p g = Ret true g /\
          forall j, (a <= j < k)%nat -> passes segment (f j) g = Ret false g
    | None =>
        forall k, (a <= k < a + n)%nat -> passes segment (f k) g = Ret false g
    end.
Proof.
  induction n as [| n IH]; intros a r g' Hrun; cbn [seq map firstPassing] in Hrun.
  - injection Hrun as <- <-. intros k Hk. lia.
  - unfold bind in Hrun.
    destruct (passes segment (f a) g) as [ok g1 | g1 | ] eqn:Ep; try discriminate.
    apply reads_Ret in Ep as Hg; [subst g1 | apply reads_passes].
    destruct ok.
    + injection Hrun as <- <-. exists a. repeat split; try lia; assumption.
    + specialize (IH (S a) r g' Hrun). destruct r as [p |].
      * destruct IH as (k & Hk & Hp & Hok & Hbefore).
        exists k. repeat split; try lia; try assumption.
        intros j Hj. destruct (Nat.eq_dec j a) as [-> | Hne]; [exact Ep |].
        apply Hbefore. lia.
      * intros k Hk. destruct (Nat.eq_dec k a) as [-> | Hne]; [exact Ep |].
        apply IH. lia.
Qed.

Lemma fold_left_map_add {A : Type} (f : A -> R) (l : list A) :
  forall a : R,
    fold_left (fun c v => c + f v) l a = fold_left nadd (map f l) a.
Proof.
  induction l as [| v l IH]; intro a; [reflexivity |]. cbn. apply IH.
Qed.

Lemma positionsOf_length (vs : list Vertex) (segment : list Z) :
  forall points,
    positionsOf vs segment = Some points ->
    JS.length points = JS.length segment.
Proof.
  unfold JS.length.
  induction segment as [| i rest IH]; intros points H; cbn in H.
  - injection H as <-. reflexivity.
  - destruct (JS.get vs i); [| discriminate H].
    destruct (positionsOf vs rest) as [l |]; [| discriminate H].
    injection H as <-. cbn [List.length]. rewrite Nat2Z.inj_succ.
    rewrite (IH l eq_refl). rewrite <- Nat2Z.inj_succ. reflexivity.
Qed.

(** The sums of [calculateCentroid] are the sums of the coordinates of
    the positions the segment names. *)
Lemma sumSegment_positionsOf (vs : list Vertex) (segment : list Z) :
  forall cx cy : R,
    sumSegment vs segment cx cy =
      match positionsOf vs segment with
      | Some points =>
          Some (fold_left nadd (map px points) cx,
                fold_left nadd (map py points) cy)
      | None => None
      end.
Proof.
  induction segment as [| i rest IH]; intros cx cy; [reflexivity |].
  cbn [sumSegment positionsOf].
  destruct (JS.get vs i) as [v |]; [| reflexivity].
  rewrite IH. destruct (positionsOf vs rest); reflexivity.
Qed.

(** [calculateCentroid] computes the centroid of the segment. *)
Lemma calculateCentroid_centroidOf (segment : list Z) (g : Graph) :
  calculateCentroid segment g =
    match positionsOf (vertices g) segment with
    | Some points => Ret (centroidOf points) g
    | None => Throw g
    end.
Proof.
  unfold calculateCentroid, bind, gets, orThrow, ret.
  rewrite sumSegment_positionsOf.
  destruct (positionsOf (vertices g) segment) as [points |] eqn:E;
    [| reflexivity].
  unfold centroidOf, total. cbn [fst snd].
  rewrite (positionsOf_length _ _ _ E). reflexivity.
Qed.

(** [calculateGraphCenter] computes the centroid of the visible
    vertices. *)
Lemma calculateGraphCenter_graphCenterOf (g : Graph) :
  calculateGraphCenter g = Ret (graphCenterOf (vertices g)) g.
Proof.
  unfold calculateGraphCenter, bind, gets, ret, graphCenterOf, centroidOf,
    total.
  rewrite !map_map, JS_length_map.
  rewrite (fold_left_map_add vx), (fold_left_map_add vy). reflexivity.
Qed.

(** [normalizeVector] of the difference is the base direction. *)
Lemma normalizeVector_baseDirection (centroid graphCenter : Point) :
  normalizeVector (mkPoint (px centroid - px graphCenter)
                           (py centroid - py graphCenter)) =
    baseDirection centroid graphCenter.
Proof. reflexivity. Qed.


(** ** The sort of the hull sweep *)

Lemma filter_none {A : Type} (P : A -> bool) (l : list A) :
  (forall a, In a l -> P a = false) -> filter P l = [].
Proof.
  induction l as [| a l IH]; intro H; simpl; [reflexivity |].
  rewrite (H a (or_introl eq_refl)). apply IH.
  intros b Hb. apply H. right. exact Hb.
Qed.

Section Stable.

Variable A : Type.
Variable compareFn : A -> A -> R.

Variable l : list A.
Variable P : A -> bool.
Hypothesis Hconsistent : consistent compareFn l = true.
Hypothesis Htied : tiedGroup compareFn P l = true.

Lemma consistentAt_in (a b c : A) :
  In a l -> In b l -> In c l -> consistentAt compareFn a b c = true.
Proof.
  intros Ha Hb Hc. unfold consistent in Hconsistent.
  rewrite forallb_forall in Hconsistent. specialize (Hconsistent a Ha).
  rewrite forallb_forall in Hconsistent. specialize (Hconsistent b Hb).
  rewrite forallb_forall in Hconsistent. exact (Hconsistent c Hc).
Qed.

(** Case analysis on every comparison that occurs in [H]. *)
Ltac before_cases H :=
  repeat match type of H with
  | context [before compareFn ?x ?y] => destruct (before compareFn x y)
  end;
  simpl in *; try congruence.

Lemma before_asym (a b : A) :
  In a l -> In b l ->
  before compareFn a b = true -> before compareFn b a = false.
Proof.
  intros Ha Hb Hab. pose proof (consistentAt_in a b b Ha Hb Hb) as H.
  unfold consistentAt, tie in H. before_cases H.
Qed.

Lemma before_trans (a b c : A) :
  In a l -> In b l -> In c l ->
  before compareFn a b = true -> before compareFn b c = true ->
  before compareFn a c = true.
Proof.
  intros Ha Hb Hc Hab Hbc. pose proof (consistentAt_in a b c Ha Hb Hc) as H.
  unfold consistentAt, tie in H. before_cases H.
Qed.

Lemma tie_trans (a b c : A) :
  In a l -> In b l -> In c l ->
  tie compareFn a b = true -> tie compareFn b c = true ->
  tie compareFn a c = true.
Proof.
  intros Ha Hb Hc Hab Hbc. pose proof (consistentAt_in a b c Ha Hb Hc) as H.
  unfold consistentAt in H. rewrite Hab, Hbc in H.
  destruct (tie compareFn a c); [reflexivity |].
  destruct (before compareFn a a), (before compareFn a b),
    (before compareFn b a), (before compareFn b c), (before compareFn a c);
    simpl in H; discriminate.
Qed.

Lemma group_tie (a b : A) :
  In a l -> In b l -> P a = true -> P b = true -> tie compareFn a b = true.
Proof.
  intros Ha Hb Pa Pb. unfold tiedGroup in Htied.
  rewrite forallb_forall in Htied. specialize (Htied a Ha).
  rewrite forallb_forall in Htied. specialize (Htied b Hb).
  rewrite Pa, Pb in Htied. exact Htied.
Qed.

Lemma tie_sym (a b : A) : tie compareFn a b = tie compareFn b a.
Proof. unfold tie. apply andb_comm. Qed.

(** Two members of the group stand alike before any element. *)
Lemma group_before (a b y : A) :
  In a l -> In b l -> In y l -> P a = true -> P b = true ->
  before compareFn a y = true -> before compareFn b y = true.
Proof.
  intros Ha Hb Hy Pa Pb Hay.
  pose proof (group_tie a b Ha Hb Pa Pb) as Tab.
  destruct (before compareFn b y) eqn:Hby; [reflexivity | exfalso].
  destruct (before compareFn y b) eqn:Hyb.
  - pose proof (before_trans a y b Ha Hy Hb Hay Hyb) as Hab.
    unfold tie in Tab. rewrite Hab in Tab. discriminate.
  - assert (tie compareFn b y = true) as Tby
      by (unfold tie; rewrite Hby, Hyb; reflexivity).
    pose proof (tie_trans a b y Ha Hb Hy Tab Tby) as Tay.
    unfold tie in Tay. rewrite Hay in Tay. discriminate.
Qed.

Lemma insertSorted_In (a x : A) (sorted : list A) :
  In x (insertSorted compareFn a sorted) <-> x = a \/ In x sorted.
Proof.
  induction sorted as [| b sorted IH]; simpl.
  - intuition congruence.
  - destruct (compareFn a b <? #0); simpl; [intuition congruence |].
    rewrite IH. intuition congruence.
Qed.

Lemma insertSorted_settled (a : A) (sorted : list A) :
  In a l -> incl sorted l -> settled compareFn P sorted ->
  settled compareFn P (insertSorted compareFn a sorted).
Proof.
  intros Ha. induction sorted as [| y rest IH]; intros Hin Hs; simpl.
  - split; [intros p [] | exact I].
  - assert (In y l) as Hy by (apply Hin; left; reflexivity).
    assert (incl rest l) as Hrest by (intros z Hz; apply Hin; right; exact Hz).
    destruct Hs as [Hy_rest Hs].
    fold (before compareFn a y). destruct (before compareFn a y) eqn:Hay; simpl.
    + split; [| split; assumption].
      intros p [<- | Hp] Pp.
      * apply before_asym; assumption.
      * destruct (before compareFn p a) eqn:Hpa; [| reflexivity].
        assert (In p l) as Hpl by (apply Hrest; exact Hp).
        pose proof (before_trans p a y Hpl Ha Hy Hpa Hay) as Hpy.
        rewrite (Hy_rest p Hp Pp) in Hpy. discriminate.
    + split; [| apply IH; assumption].
      intros p Hp Pp. apply insertSorted_In in Hp. destruct Hp as [-> | Hp].
      * exact Hay.
      * apply Hy_rest; assumption.
Qed.

Lemma insertSorted_filter (a : A) (sorted : list A) :
  In a l -> incl sorted l -> settled compareFn P sorted ->
  filter P (insertSorted compareFn a sorted) =
    filter P sorted ++ (if P a then [a] else []).
Proof.
  intros Ha. induction sorted as [| y rest IH]; intros Hin Hs; simpl.
  - destruct (P a); reflexivity.
  - assert (In y l) as Hy by (apply Hin; left; reflexivity).
    assert (incl rest l) as Hrest by (intros z Hz; apply Hin; right; exact Hz).
    destruct Hs as [Hy_rest Hs].
    fold (before compareFn a y). destruct (before compareFn a y) eqn:Hay; simpl.
    + destruct (P a) eqn:Pa; [| rewrite app_nil_r; reflexivity].
      assert (P y = false) as Py.
      { destruct (P y) eqn:Py; [| reflexivity].
        pose proof (group_tie a y Ha Hy Pa Py) as T.
        unfold tie in T. rewrite Hay in T. discriminate. }
      rewrite Py.
      assert (filter P rest = []) as ->; [| reflexivity].
      apply filter_none. intros p Hp.
      destruct (P p) eqn:Pp; [| reflexivity].
      assert (In p l) as Hpl by (apply Hrest; exact Hp).
      pose proof (group_before a p y Ha Hpl Hy Pa Pp Hay) as Hpy.
      rewrite (Hy_rest p Hp Pp) in Hpy. discriminate.
    + rewrite (IH Hrest Hs). destruct (P y); reflexivity.
Qed.

Lemma sort_filter_from (rest sorted : list A) :
  incl rest l -> incl sorted l -> settled compareFn P sorted ->
  filter P (fold_left (fun s a => insertSorted compareFn a s) rest sorted) =
    filter P sorted ++ filter P rest.
Proof.
  revert sorted. induction rest as [| a rest IH]; intros sorted Hr Hin Hs; simpl.
  - rewrite app_nil_r. reflexivity.
  - assert (In a l) as Ha by (apply Hr; left; reflexivity).
    rewrite IH.
    + rewrite insertSorted_filter by assumption.
      rewrite <- app_assoc. destruct (P a); reflexivity.
    + intros z Hz. apply Hr. right. exact Hz.
    + intros z Hz. apply insertSorted_In in Hz. destruct Hz as [-> | Hz]; auto.
    + apply insertSorted_settled; assumption.
Qed.

(** The sort keeps the members of a tied group in the order they have
    in the array. *)
Lemma sort_stable : filter P (sort compareFn l) = filter P l.
Proof.
  unfold sort. rewrite sort_filter_from.
  - reflexivity.
  - apply incl_refl.
  - intros z [].
  - exact I.
Qed.

Lemma insertSorted_ordered (a : A) (sorted : list A) :
  In a l -> incl sorted l -> ordered compareFn sorted ->
  ordered compareFn (insertSorted compareFn a sorted).
Proof.
  intro Ha. induction sorted as [| b s IH]; intros Hin Ho.
  - cbn. split; [intros y [] | exact I].
  - cbn [insertSorted]. destruct Ho as [Hb Hs].
    assert (In b l) as Hbl by (apply Hin; left; reflexivity).
    assert (incl s l) as Hsl by (intros z Hz; apply Hin; right; exact Hz).
    destruct (compareFn a b <? #0) eqn:E.
    + cbn [ordered]. split; [| split; assumption].
      intros y [<- | Hy].
      * apply before_asym; assumption.
      * destruct (before compareFn y a) eqn:Ey; [| reflexivity].
        rewrite <- (Hb y Hy). symmetry.
        apply (before_trans y a b); auto.
    + cbn [ordered]. split.
      * intros y Hy. apply insertSorted_In in Hy.
        destruct Hy as [-> | Hy]; [exact E | apply Hb; exact Hy].
      * apply IH; assumption.
Qed.

(** The sort leaves no element ahead of one that sorts before it. *)
Lemma sort_ordered : ordered compareFn (sort compareFn l).
Proof.
  unfold sort.
  assert (forall rest sorted,
            incl rest l -> incl sorted l -> ordered compareFn sorted ->
            ordered compareFn
              (fold_left (fun s a => insertSorted compareFn a s) rest sorted))
    as H.
  { induction rest as [| a rest IH]; intros sorted Hr Hin Ho; [exact Ho |].
    cbn [fold_left]. apply IH.
    - intros z Hz. apply Hr. right. exact Hz.
    - intros z Hz. apply insertSorted_In in Hz.
      destruct Hz as [-> | Hz]; [apply Hr; left; reflexivity | auto].
    - apply insertSorted_ordered; [apply Hr; left; reflexivity | | ]; assumption. }
  apply H; [apply incl_refl | intros z [] | exact I].
Qed.

End Stable.

(** Points of one polar angle are tied by the comparator of the hull
    sort, whatever else may differ between them, as soon as a number
    minus itself is not negative. *)
Lemma equal_angles_tied (startPoint : VertexRef) (P : VertexRef -> bool)
  (l : list VertexRef) :
  (forall x : R, (x - x <? #0) = false) ->
  (forall a b, In a l -> In b l -> P a = true -> P b = true ->
               polarAngle startPoint a = polarAngle startPoint b) ->
  tiedGroup (compareAngle startPoint) P l = true.
Proof.
  intros Hlaw Hangle. unfold tiedGroup.
  apply forallb_forall. intros a Ha. apply forallb_forall. intros b Hb.
  destruct (P a) eqn:Pa; [| reflexivity].
  destruct (P b) eqn:Pb; [| reflexivity].
  cbn [andb negb orb]. unfold tie, before.
  change (compareAngle startPoint a b)
    with (polarAngle startPoint a - polarAngle startPoint b).
  change (compareAngle startPoint b a)
    with (polarAngle startPoint b - polarAngle startPoint a).
  rewrite (Hangle a b Ha Hb Pa Pb), Hlaw. reflexivity.
Qed.

(** ** The orientation pass *)

Lemma areaLoop_areaSum (vs : list Vertex) (first : Z) (firstV : Vertex) :
  JS.get vs first = Some firstV ->
  forall (rest : list Z) (restV : list Vertex) (area : R),
    lookupAll vs rest = Some restV ->
    areaLoop vs first rest area = Some (areaSum firstV restV area).
Proof.
  intros Hf. induction rest as [| i rest IH]; intros restV area Hl; simpl in Hl.
  - injection Hl as <-. reflexivity.
  - destruct (JS.get vs i) as [vi |] eqn:Ei; [| discriminate].
    destruct (lookupAll vs rest) as [l |] eqn:El; [| discriminate].
    injection Hl as <-. cbn [areaLoop areaSum].
    destruct rest as [| k rest'].
    + simpl in El. injection El as <-. rewrite Hf, Ei. apply IH. reflexivity.
    + simpl in El. destruct (JS.get vs k) as [vk |] eqn:Ek; [| discriminate].
      destruct (lookupAll vs rest') as [l' |]; [| discriminate].
      injection El as <-. rewrite Ei. apply IH. reflexivity.
Qed.

Lemma areaLoop_defined (vs : list Vertex) (first : Z) :
  forall (rest : list Z) (area a : R),
    areaLoop vs first rest area = Some a -> rest <> [] ->
    lookupAll vs rest <> None /\ JS.get vs first <> None.
Proof.
  induction rest as [| i rest IH]; intros area a H Hne; [congruence |].
  cbn [areaLoop] in H. simpl.
  destruct rest as [| k rest'].
  - destruct (JS.get vs first) eqn:Ef; [| discriminate].
    destruct (JS.get vs i); [| discriminate]. split; discriminate.
  - destruct (JS.get vs k) eqn:Ek; [| discriminate].
    destruct (JS.get vs i) eqn:Ei; [| discriminate].
    destruct (IH _ _ H ltac:(discriminate)) as [Hl Hf].
    split; [| exact Hf].
    destruct (lookupAll vs (k :: rest')); [discriminate | congruence].
Qed.

Lemma lookupAll_app (vs : list Vertex) (p q : list Z) :
  lookupAll vs (p ++ q) =
    match lookupAll vs p, lookupAll vs q with
    | Some a, Some b => Some (a ++ b)
    | _, _ => None
    end.
Proof.
  induction p as [| i p IH]; simpl.
  - destruct (lookupAll vs q); reflexivity.
  - destruct (JS.get vs i); [| reflexivity]. rewrite IH.
    destruct (lookupAll vs p), (lookupAll vs q); reflexivity.
Qed.

Lemma lookupAll_rev (vs : list Vertex) (p : list Z) (l : list Vertex) :
  lookupAll vs p = Some l -> lookupAll vs (rev p) = Some (rev l).
Proof.
  revert l. induction p as [| i p IH]; intros l H; simpl in H.
  - injection H as <-. reflexivity.
  - destruct (JS.get vs i) as [v |] eqn:Ei; [| discriminate].
    destruct (lookupAll vs p) as [l' |]; [| discriminate].
    injection H as <-. simpl. rewrite lookupAll_app, (IH l' eq_refl).
    simpl. rewrite Ei. reflexivity.
Qed.

(** The signed area of a periphery all of whose entries name vertices. *)
Lemma signedArea_areaSum (vs : list Vertex) (p : list Z) (v : Vertex)
  (l : list Vertex) :
  lookupAll vs p = Some (v :: l) ->
  signedArea vs p = Some (areaSum v (v :: l) #0).
Proof.
  intro H. destruct p as [| i p]; [discriminate |].
  unfold signedArea. apply areaLoop_areaSum; [| exact H].
  simpl in H. destruct (JS.get vs i); [| discriminate].
  destruct (lookupAll vs p); [| discriminate]. injection H as -> _. reflexivity.
Qed.

(** *** The area sum in exact arithmetic *)

Lemma zterm_swap (a b : Z * Z) : zterm b a = (- zterm a b)%Z.
Proof. unfold zterm. ring. Qed.

Lemma pathSum_snoc (l : list (Z * Z)) (a x : Z * Z) :
  pathSum ((l ++ [a]) ++ [x]) = (pathSum (l ++ [a]) + zterm a x)%Z.
Proof.
  induction l as [| b l IH].
  - simpl. ring.
  - change (pathSum (b :: ((l ++ [a]) ++ [x]))
            = (pathSum (b :: (l ++ [a])) + zterm a x)%Z).
    cbn [pathSum].
    destruct l as [| c l]; cbn [app] in *.
    + cbn [pathSum]. ring.
    + rewrite IH. ring.
Qed.

Lemma pathSum_rev (l : list (Z * Z)) : pathSum (rev l) = (- pathSum l)%Z.
Proof.
  induction l as [| a l IH]; [reflexivity |].
  destruct l as [| b l]; [reflexivity |].
  cbn [rev] in *. rewrite pathSum_snoc, IH. cbn [pathSum].
  rewrite (zterm_swap a b). ring.
Qed.

Lemma closedSum_rev (l : list (Z * Z)) : closedSum (rev l) = (- closedSum l)%Z.
Proof.
  destruct l as [| a l]; [reflexivity |].
  destruct (rev (a :: l)) as [| z m] eqn:Er.
  - apply (f_equal (@List.length _)) in Er. rewrite length_rev in Er. discriminate.
  - unfold closedSum.
    assert (a :: l = rev m ++ [z]) as El.
    { rewrite <- (rev_involutive (a :: l)), Er. reflexivity. }
    replace ((z :: m) ++ [z]) with (rev (z :: rev m ++ [z]))
      by (cbn [rev]; rewrite rev_app_distr, rev_involutive; reflexivity).
    rewrite pathSum_rev. rewrite <- El. rewrite El at 2.
    replace ((rev m ++ [z]) ++ [a]) with ((rev m ++ [z]) ++ [a]) by reflexivity.
    rewrite pathSum_snoc. rewrite <- El.
    cbn [pathSum]. ring.
Qed.

(** *** When the floating-point sum is exact *)

Section Exact.

(** An integer reading of the numbers. *)
Variable val : R -> Z.

Lemma sumExact_val (first : Vertex) (rest : list Vertex) (area : R) :
  sumExact val first rest area = true ->
  val (areaSum first rest area) =
    (val area + pathSum (map (zpoint val) rest ++ [zpoint val first]))%Z /\
  (areaSum first rest area <? #0) = (val (areaSum first rest area) <? 0)%Z.
Proof.
  revert area. induction rest as [| vi rest IH]; intros area H.
  - cbn in *. apply eqb_prop in H. split; [ring | exact H].
  - cbn [sumExact] in H. cbv zeta in H.
    apply andb_prop in H. destruct H as [H Hrest].
    apply andb_prop in H. destruct H as [Hterm Hadd].
    unfold termExact in Hterm. cbv zeta in Hterm.
    apply andb_prop in Hterm. destruct Hterm as [Hterm Hmul].
    apply andb_prop in Hterm. destruct Hterm as [Hsub Hplus].
    apply Z.eqb_eq in Hadd, Hmul, Hsub, Hplus.
    specialize (IH _ Hrest). destruct IH as [IHv IHs].
    cbn [areaSum]. split; [| exact IHs].
    rewrite IHv, Hadd, Hmul, Hsub, Hplus.
    destruct rest as [| vk rest']; cbn [map app pathSum]; unfold zterm, zpoint;
      cbn [fst snd]; ring.
Qed.

Lemma map_zpoint_rev (l : list Vertex) :
  map (zpoint val) (rev l) = rev (map (zpoint val) l).
Proof. apply map_rev. Qed.

(** After the pass, a periphery of at least three entries whose area sum
    is exact, as is that of its reverse, has no negative area. *)
Lemma clockwise_not_negative (vs : list Vertex) (q p' : list Z) :
  clockwise vs q = Some p' ->
  (3 <= JS.length p')%Z ->
  areaExact val vs p' = true ->
  areaExact val vs (rev p') = true ->
  exists area, signedArea vs p' = Some area /\ (area <? #0) = false.
Proof.
  intros Hc Hlen Hex Hrev. unfold clockwise in Hc.
  destruct (JS.length q <? 3)%Z eqn:Hq.
  - injection Hc as <-. apply Z.ltb_lt in Hq. lia.
  - destruct (signedArea vs q) as [area |] eqn:Ha; [| discriminate].
    destruct (area <? #0) eqn:Hneg; injection Hc as <-; [| eauto].
    rewrite rev_involutive in Hrev.
    assert (q <> []) as Hne by (intros ->; discriminate).
    destruct q as [| i q]; [congruence |].
    pose proof Ha as Ha'. unfold signedArea in Ha'.
    destruct (areaLoop_defined vs i (i :: q) _ _ Ha' Hne) as [Hl _].
    destruct (lookupAll vs (i :: q)) as [l |] eqn:El; [| congruence].
    destruct l as [| v l].
    { simpl in El. destruct (JS.get vs i); [| discriminate].
      destruct (lookupAll vs q); discriminate. }
    pose proof (lookupAll_rev vs _ _ El) as Elr.
    destruct (rev (v :: l)) as [| w m] eqn:Erl.
    { apply (f_equal (@List.length _)) in Erl. rewrite length_rev in Erl.
      discriminate. }
    unfold areaExact in Hex, Hrev. rewrite Elr in Hex. rewrite El in Hrev.
    apply andb_prop in Hex. destruct Hex as [_ Hex].
    apply andb_prop in Hrev. destruct Hrev as [H0 Hrev].
    apply Z.eqb_eq in H0.
    apply sumExact_val in Hex. destruct Hex as [Hv' Hs'].
    apply sumExact_val in Hrev. destruct Hrev as [Hv Hs].
    assert (area = areaSum v (v :: l) #0) as ->
      by (rewrite (signedArea_areaSum vs _ _ _ El) in Ha; congruence).
    rewrite (signedArea_areaSum vs _ _ _ Elr).
    eexists. split; [reflexivity |].
    rewrite Hs', Hv', H0.
    rewrite Hneg in Hs. symmetry in Hs.
    apply Z.ltb_lt in Hs. rewrite Hv, H0 in Hs.
    apply Z.ltb_ge.
    change (pathSum (map (zpoint val) (w :: m) ++ [zpoint val w]))
      with (closedSum (map (zpoint val) (w :: m))).
    change (pathSum (map (zpoint val) (v :: l) ++ [zpoint val v]))
      with (closedSum (map (zpoint val) (v :: l))) in Hs.
    rewrite <- Erl, map_rev, closedSum_rev. lia.
Qed.

End Exact.

(** * Further properties of the engine *)

(** ** The periphery segment as slices *)

Lemma arcFrom_app (periphery : list Z) (a b : nat) :
  forall current : Z,
    (0 <= current < JS.length periphery)%Z ->
    arcFrom periphery current (a + b) =
      arcFrom periphery current a ++
      arcFrom periphery ((current + Z.of_nat a) mod JS.length periphery)%Z b.
Proof.
  induction a as [| a IH]; intros c Hc.
  - cbn [Nat.add arcFrom app]. rewrite Z.add_0_r, Z.mod_small by lia.
    reflexivity.
  - cbn [Nat.add arcFrom app]. f_equal.
    rewrite IH by (apply Z.mod_pos_bound; lia).
    f_equal. f_equal. rewrite Zplus_mod_idemp_l. f_equal. lia.
Qed.

Lemma skipn_cons_nth {A : Type} (l : list A) (k : nat) (a : A) :
  nth_error l k = Some a -> skipn k l = a :: skipn (S k) l.
Proof.
  revert k. induction l as [| x l IH]; intros [| k] H; try discriminate.
  - injection H as ->. reflexivity.
  - simpl in H. cbn [skipn]. rewrite (IH k H). reflexivity.
Qed.

(** Without passing the end of the array, the arc is a slice. *)
Lemma arcFrom_straight (periphery : list Z) (k : nat) :
  forall current : Z,
    (0 <= current)%Z ->
    (current + Z.of_nat k <= JS.length periphery)%Z ->
    arcFrom periphery current k =
      map Some (firstn k (skipn (Z.to_nat current) periphery)).
Proof.
  induction k as [| k IH]; intros c H0 Hk; [reflexivity |].
  cbn [arcFrom].
  destruct (JS_get_Some periphery c ltac:(lia)) as [a Ha]. rewrite Ha.
  assert (nth_error periphery (Z.to_nat c) = Some a) as Hn.
  { unfold JS.get in Ha. destruct (c <? 0)%Z; [discriminate | exact Ha]. }
  rewrite (skipn_cons_nth _ _ _ Hn). cbn [firstn map]. f_equal.
  destruct k as [| k]; [reflexivity |].
  rewrite Z.mod_small by lia.
  rewrite IH by lia. do 2 f_equal. f_equal. lia.
Qed.

Lemma allDefined_map_Some (l : list Z) : allDefined (map Some l) = Some l.
Proof.
  induction l as [| a l IH]; [reflexivity |].
  cbn [map allDefined]. rewrite IH. reflexivity.
Qed.

Lemma slice_firstn_skipn {A : Type} (l : list A) (s e : Z) :
  (0 <= s <= e)%Z -> (e <= JS.length l)%Z ->
  JS.slice l s e = firstn (Z.to_nat (e - s)) (skipn (Z.to_nat s) l).
Proof.
  intros Hs He. unfold JS.slice, JS.clamp.
  destruct (s <? 0)%Z eqn:Es; [apply Z.ltb_lt in Es; lia |].
  destruct (e <? 0)%Z eqn:Ee; [apply Z.ltb_lt in Ee; lia |].
  rewrite !Z.min_l by lia. reflexivity.
Qed.

Lemma sliceFrom_skipn {A : Type} (l : list A) (s : Z) :
  (0 <= s <= JS.length l)%Z -> JS.sliceFrom l s = skipn (Z.to_nat s) l.
Proof.
  intro Hs. unfold JS.sliceFrom. rewrite slice_firstn_skipn by lia.
  apply firstn_all2. rewrite length_skipn. unfold JS.length in *. lia.
Qed.

(** The arc between two positions, as the list it is. *)
Lemma arcFrom_slices (periphery : list Z) (startIdx endIdx : Z) :
  (0 <= startIdx < JS.length periphery)%Z ->
  (0 <= endIdx < JS.length periphery)%Z ->
  arcFrom periphery startIdx
    (S (Z.to_nat ((endIdx - startIdx) mod JS.length periphery))) =
  map Some
    (if (startIdx <=? endIdx)%Z
     then JS.slice periphery startIdx (endIdx + 1)
     else JS.sliceFrom periphery startIdx ++ JS.slice periphery 0 (endIdx + 1)).
Proof.
  intros Hs He. set (n := JS.length periphery) in *.
  destruct (startIdx <=? endIdx)%Z eqn:Ele.
  - apply Z.leb_le in Ele.
    rewrite Z.mod_small by lia.
    rewrite arcFrom_straight by (fold n; lia).
    rewrite slice_firstn_skipn by (fold n; lia).
    do 2 f_equal. lia.
  - apply Z.leb_gt in Ele.
    assert ((endIdx - startIdx) mod n = endIdx - startIdx + n)%Z as ->.
    { symmetry. apply Z.mod_unique with (q := (-1)%Z); lia. }
    replace (S (Z.to_nat (endIdx - startIdx + n)))
      with (Z.to_nat (n - startIdx) + Z.to_nat (endIdx + 1))%nat by lia.
    rewrite arcFrom_app by (fold n; lia). fold n.
    rewrite Z2Nat.id by lia.
    replace (startIdx + (n - startIdx))%Z with n by lia.
    rewrite Z.mod_same by lia.
    rewrite !arcFrom_straight by (fold n; lia).
    rewrite map_app. f_equal.
    + f_equal. rewrite sliceFrom_skipn by (fold n; lia).
      apply firstn_all2. rewrite length_skipn. unfold n, JS.length in *. lia.
    + f_equal. rewrite slice_firstn_skipn by (fold n; lia).
      cbn [Z.to_nat skipn]. f_equal. lia.
Qed.

(** The segment between two positions, as slices of the periphery. *)
Lemma getPeripherySegment_between :
  forall (startIdx endIdx : Z) (g : Graph),
    (0 <= startIdx < JS.length (periphery g))%Z ->
    (0 <= endIdx < JS.length (periphery g))%Z ->
    getPeripherySegment startIdx endIdx g =
      Ret (if (startIdx <=? endIdx)%Z
           then JS.slice (periphery g) startIdx (endIdx + 1)
           else JS.sliceFrom (periphery g) startIdx ++
                JS.slice (periphery g) 0 (endIdx + 1)) g.
Proof.
  intros s e g Hs He.
  unfold getPeripherySegment, bind, gets, beyond, ret.
  rewrite (getPeripherySegment_run_arc (periphery g) s e _ Hs He) by lia.
  rewrite arcFrom_slices by assumption.
  rewrite allDefined_map_Some. reflexivity.
Qed.

(** X1.  Between two positions of the periphery, [getPeripherySegment]
    returns the entries from [startIdx] to [endIdx], both included:
    one slice when [startIdx <= endIdx], and otherwise the entries from
    [startIdx] to the end of the array followed by those from the start
    of the array to [endIdx]. *)
Theorem getPeripherySegment_slices :
  forall (startIdx endIdx : Z) (g : Graph),
    (0 <= startIdx < JS.length (periphery g))%Z ->
    (0 <= endIdx < JS.length (periphery g))%Z ->
    getPeripherySegment startIdx endIdx g =
      Ret (if (startIdx <=? endIdx)%Z
           then JS.slice (periphery g) startIdx (endIdx + 1)
           else JS.sliceFrom (periphery g) startIdx ++
                JS.slice (periphery g) 0 (endIdx + 1)) g.
Proof. exact getPeripherySegment_between. Qed.

(** ** Replacing a segment of the periphery *)

(** The orientation pass returns the periphery it finds or its
    reverse. *)
Lemma clockwise_cases (vs : list Vertex) (p p' : list Z) :
  clockwise vs p = Some p' -> p' = p \/ p' = rev p.
Proof.
  unfold clockwise. destruct (JS.length p <? 3)%Z.
  - intro H. injection H as <-. left. reflexivity.
  - destruct (signedArea vs p) as [area |]; [| discriminate].
    destruct (area <? #0); intro H; injection H as <-; auto.
Qed.

Lemma clockwise_Permutation (vs : list Vertex) (p p' : list Z) :
  clockwise vs p = Some p' -> Permutation p p'.
Proof.
  intro H. destruct (clockwise_cases vs p p' H) as [-> | ->].
  - apply Permutation_refl.
  - apply Permutation_rev.
Qed.

(** An array cut at two positions. *)
Lemma cut_in_three {A : Type} (l : list A) (i j : nat) :
  (i <= j)%nat ->
  l = firstn i l ++ firstn (j - i) (skipn i l) ++ skipn j l.
Proof.
  intro Hij.
  rewrite <- (firstn_skipn i l) at 1. f_equal.
  rewrite <- (firstn_skipn (j - i) (skipn i l)) at 1. f_equal.
  rewrite skipn_skipn. f_equal. lia.
Qed.

(** Before the orientation pass, the array built by
    [updatePeripheryAfterSegmentReplacement] and the segment share out
    the old periphery and the new vertex. *)
Lemma replacement_Permutation (p : list Z) (startIdx endIdx newVertexIdx : Z) :
  (0 <= startIdx < JS.length p)%Z ->
  (0 <= endIdx < JS.length p)%Z ->
  Permutation
    ((if (startIdx <=? endIdx)%Z
      then JS.slice p startIdx (endIdx + 1)
      else JS.sliceFrom p startIdx ++ JS.slice p 0 (endIdx + 1)) ++
     (if (startIdx <=? endIdx)%Z
      then JS.slice p 0 startIdx ++ [newVertexIdx] ++ JS.sliceFrom p (endIdx + 1)
      else JS.slice p (endIdx + 1) startIdx ++ [newVertexIdx]))
    (newVertexIdx :: p).
Proof.
  intros Hs He. destruct (startIdx <=? endIdx)%Z eqn:Ele.
  - apply Z.leb_le in Ele.
    rewrite !slice_firstn_skipn, sliceFrom_skipn by lia.
    replace (Z.to_nat (startIdx - 0)) with (Z.to_nat startIdx) by lia.
    replace (Z.to_nat (endIdx + 1 - startIdx))
      with (Z.to_nat (endIdx + 1) - Z.to_nat startIdx)%nat by lia.
    cbn [Z.to_nat skipn].
    set (i := Z.to_nat startIdx). set (j := Z.to_nat (endIdx + 1)).
    rewrite (cut_in_three p i j) at 4 by lia.
    set (A := firstn i p). set (B := firstn (j - i) (skipn i p)).
    set (C := skipn j p).
    symmetry. replace (B ++ A ++ [newVertexIdx] ++ C)
      with ((B ++ A) ++ newVertexIdx :: C)
      by (rewrite <- app_assoc; reflexivity).
    apply Permutation_cons_app. rewrite app_assoc.
    apply Permutation_app_tail, Permutation_app_comm.
  - apply Z.leb_gt in Ele.
    rewrite !slice_firstn_skipn, sliceFrom_skipn by lia.
    replace (Z.to_nat (endIdx + 1 - 0)) with (Z.to_nat (endIdx + 1)) by lia.
    replace (Z.to_nat (startIdx - (endIdx + 1)))
      with (Z.to_nat startIdx - Z.to_nat (endIdx + 1))%nat by lia.
    cbn [Z.to_nat skipn].
    set (i := Z.to_nat (endIdx + 1)). set (j := Z.to_nat startIdx).
    rewrite (cut_in_three p i j) at 4 by lia.
    set (A := firstn i p). set (B := firstn (j - i) (skipn i p)).
    set (C := skipn j p).
    symmetry. replace ((C ++ A) ++ B ++ [newVertexIdx])
      with ((C ++ A ++ B) ++ newVertexIdx :: [])
      by (rewrite <- !app_assoc; reflexivity).
    apply Permutation_cons_app. rewrite app_nil_r.
    replace (A ++ B ++ C) with ((A ++ B) ++ C) by (symmetry; apply app_assoc).
    apply Permutation_app_comm.
Qed.

(** X2.  The segment leaves the periphery and the new vertex takes its
    place: between two positions of the periphery, the entries of the
    segment (its two ends included) and the entries of the periphery
    after the replacement are, together and counted with repetitions,
    the entries of the periphery before and the new vertex. *)
Theorem segment_replaced_by_new_vertex :
  forall (startIdx endIdx newVertexIdx : Z) (g g' : Graph) (segment : list Z),
    (0 <= startIdx < JS.length (periphery g))%Z ->
    (0 <= endIdx < JS.length (periphery g))%Z ->
    getPeripherySegment startIdx endIdx g = Ret segment g ->
    updatePeripheryAfterSegmentReplacement startIdx endIdx newVertexIdx g
      = Ret tt g' ->
    Permutation (segment ++ periphery g') (newVertexIdx :: periphery g) /\
    JS.length (periphery g') =
      (JS.length (periphery g) - JS.length segment + 1)%Z.
Proof.
  intros s e n g g' segment Hs He Hseg Hupd.
  rewrite getPeripherySegment_between in Hseg by assumption.
  injection Hseg as <-.
  rewrite updatePeripheryAfterSegmentReplacement_eq in Hupd. cbv zeta in Hupd.
  destruct (clockwise _ _) as [p' |] eqn:Hc; [| discriminate].
  injection Hupd as <-. cbn [periphery set_periphery].
  pose proof (replacement_Permutation (periphery g) s e n Hs He) as Hperm.
  apply clockwise_Permutation in Hc.
  assert (Permutation
            ((if (s <=? e)%Z
              then JS.slice (periphery g) s (e + 1)
              else JS.sliceFrom (periphery g) s ++
                   JS.slice (periphery g) 0 (e + 1)) ++ p')
            (n :: periphery g)) as H.
  { eapply Permutation_trans; [| exact Hperm].
    apply Permutation_app_head. symmetry. exact Hc. }
  split; [exact H |].
  apply Permutation_length in H. rewrite length_app in H. simpl in H.
  unfold JS.length. lia.
Qed.

(** ** The orientation pass: what it changes, when it throws *)

Lemma lookupAll_None (vs : list Vertex) (p : list Z) :
  lookupAll vs p = None <-> exists i, In i p /\ JS.get vs i = None.
Proof.
  induction p as [| i p IH]; simpl.
  - split; [discriminate | intros (i & [] & _)].
  - destruct (JS.get vs i) as [v |] eqn:Ei.
    + destruct (lookupAll vs p) as [l |].
      * split; [discriminate |]. intros (k & [<- | Hk] & Hn); [congruence |].
        assert (Some l = None) as H by (apply IH; eauto). discriminate.
      * split; [| reflexivity]. intros _.
        destruct IH as [IH _]. destruct (IH eq_refl) as (k & Hk & Hn). eauto.
    + split; [| reflexivity]. intros _. eauto.
Qed.

Lemma signedArea_None (vs : list Vertex) (p : list Z) :
  signedArea vs p = None <-> exists i, In i p /\ JS.get vs i = None.
Proof.
  rewrite <- lookupAll_None. destruct p as [| i p].
  - simpl. split; discriminate.
  - split.
    + intro H. destruct (lookupAll vs (i :: p)) as [l |] eqn:El; [| reflexivity].
      destruct l as [| v l].
      { simpl in El. destruct (JS.get vs i); [| discriminate].
        destruct (lookupAll vs p); discriminate. }
      rewrite (signedArea_areaSum vs _ _ _ El) in H. discriminate.
    + intro H. destruct (signedArea vs (i :: p)) as [a |] eqn:Ea; [| reflexivity].
      unfold signedArea in Ea.
      destruct (areaLoop_defined vs i (i :: p) _ _ Ea ltac:(discriminate))
        as [Hl _].
      congruence.
Qed.

(** X3.  [ensureClockwiseOrder] does one of three things.  It returns having
    left the periphery alone or having reversed it, and having changed
    nothing else; a periphery of fewer than three entries is always left
    alone.  It throws (leaving everything as it was) exactly when the
    periphery has three entries or more and one of them names no
    vertex. *)
Theorem ensureClockwiseOrder_reverses_or_throws :
  forall g : Graph,
    ((exists g',
        ensureClockwiseOrder g = Ret tt g' /\
        (g' = g \/ g' = set_periphery (rev (periphery g)) g) /\
        ((JS.length (periphery g) < 3)%Z -> g' = g))
     \/ ensureClockwiseOrder g = Throw g) /\
    (ensureClockwiseOrder g = Throw g <->
     (3 <= JS.length (periphery g))%Z /\
     exists i, In i (periphery g) /\ JS.get (vertices g) i = None).
Proof.
  intro g. rewrite ensureClockwiseOrder_eq. unfold clockwise.
  destruct (JS.length (periphery g) <? 3)%Z eqn:Hlen.
  - apply Z.ltb_lt in Hlen. rewrite set_periphery_same. split.
    + left. exists g. auto.
    + split; [discriminate | lia].
  - apply Z.ltb_ge in Hlen.
    destruct (signedArea (vertices g) (periphery g)) as [area |] eqn:Ha.
    + split.
      * left. eexists. split; [reflexivity |]. split; [| lia].
        destruct (area <? #0); [right; reflexivity |].
        left. apply set_periphery_same.
      * split; [discriminate |]. intros [_ H].
        apply signedArea_None in H. congruence.
    + split; [right; reflexivity |].
      split; [| reflexivity]. intros _. split; [exact Hlen |].
      apply signedArea_None. exact Ha.
Qed.

(** ** The convex hull: which vertices it holds *)

Lemma indexed_from_In {A : Type} (l : list A) (k i : Z) (a : A) :
  In (i, a) (JS.indexed_from k l) ->
  (k <= i)%Z /\ nth_error l (Z.to_nat (i - k)) = Some a.
Proof.
  revert k. induction l as [| x l IH]; intros k H; [destruct H |].
  destruct H as [H | H].
  - injection H as <- <-. rewrite Z.sub_diag. split; [lia | reflexivity].
  - apply IH in H. destruct H as [Hk Hn]. split; [lia |].
    replace (Z.to_nat (i - k)) with (S (Z.to_nat (i - (k + 1)))) by lia.
    exact Hn.
Qed.

Lemma indexed_In {A : Type} (l : list A) (i : Z) (a : A) :
  In (i, a) (JS.indexed l) -> JS.get l i = Some a.
Proof.
  intro H. apply indexed_from_In in H. destruct H as [H0 Hn].
  unfold JS.get. destruct (i <? 0)%Z eqn:E; [apply Z.ltb_lt in E; lia |].
  rewrite Z.sub_0_r in Hn. exact Hn.
Qed.

Lemma indexed_from_NoDup {A : Type} (l : list A) (k : Z) :
  NoDup (map fst (JS.indexed_from k l)).
Proof.
  revert k. induction l as [| x l IH]; intro k; [constructor |].
  cbn [JS.indexed_from map fst]. constructor; [| apply IH].
  intro H. apply in_map_iff in H. destruct H as ([i a] & Hi & Hin).
  simpl in Hi. subst i. apply indexed_from_In in Hin. lia.
Qed.

Lemma NoDup_map_filter {A B : Type} (f : A -> B) (P : A -> bool) (l : list A) :
  NoDup (map f l) -> NoDup (map f (filter P l)).
Proof.
  induction l as [| a l IH]; intro H; [constructor |].
  cbn [map] in H. apply NoDup_cons_iff in H. destruct H as [Hn Hd].
  cbn [filter]. destruct (P a); [| auto].
  cbn [map]. constructor; [| auto].
  intro Hin. apply Hn. apply in_map_iff in Hin.
  destruct Hin as (x & Hx & Hf). apply filter_In in Hf.
  apply in_map_iff. exists x. tauto.
Qed.

(** [filter((_, i) => i !== start)] takes out the element at [start]. *)
Lemma removeAt_from {A : Type} (l : list A) (start k : Z) :
  (k <= start)%Z ->
  map snd (filter (fun ia => negb (fst ia =? start)%Z) (JS.indexed_from k l)) =
    firstn (Z.to_nat (start - k)) l ++ skipn (S (Z.to_nat (start - k))) l.
Proof.
  revert k. induction l as [| x l IH]; intros k Hk.
  - rewrite firstn_nil, skipn_nil. reflexivity.
  - cbn [JS.indexed_from filter fst].
    destruct (k =? start)%Z eqn:E.
    + apply Z.eqb_eq in E. subst k. rewrite Z.sub_diag. cbn [negb Z.to_nat firstn skipn app].
      clear IH. assert (forall m j, (start < j)%Z ->
        map snd (filter (fun ia : Z * A => negb (fst ia =? start)%Z)
                   (JS.indexed_from j m)) = m) as Hall.
      { induction m as [| y m IHm]; intros j Hj; [reflexivity |].
        cbn [JS.indexed_from filter fst].
        destruct (j =? start)%Z eqn:Ej; [apply Z.eqb_eq in Ej; lia |].
        cbn [negb map snd]. f_equal. apply IHm. lia. }
      apply Hall. lia.
    + apply Z.eqb_neq in E. cbn [negb map snd].
      rewrite IH by lia.
      replace (Z.to_nat (start - k)) with (S (Z.to_nat (start - (k + 1)))) by lia.
      reflexivity.
Qed.

Lemma removeAt_Permutation {A : Type} (l : list A) (start : Z) (a : A) :
  JS.get l start = Some a -> Permutation l (a :: removeAt l start).
Proof.
  intro H. pose proof (JS_get_range _ _ _ H) as Hr.
  unfold JS.get in H. destruct (start <? 0)%Z; [discriminate |].
  unfold removeAt, JS.indexed. rewrite removeAt_from by lia.
  rewrite Z.sub_0_r.
  rewrite <- (firstn_skipn (Z.to_nat start) l) at 1.
  rewrite (skipn_cons_nth _ _ _ H).
  symmetry. apply Permutation_middle.
Qed.

Lemma insertSorted_Permutation {A : Type} (compareFn : A -> A -> R) (a : A)
  (sorted : list A) :
  Permutation (a :: sorted) (insertSorted compareFn a sorted).
Proof.
  induction sorted as [| b sorted IH]; [apply Permutation_refl |].
  cbn [insertSorted]. destruct (compareFn a b <? #0); [apply Permutation_refl |].
  eapply Permutation_trans; [apply perm_swap |].
  apply perm_skip. exact IH.
Qed.

(** [sort] rearranges the array: nothing is lost, nothing repeated. *)
Lemma sort_Permutation {A : Type} (compareFn : A -> A -> R) (l : list A) :
  Permutation l (sort compareFn l).
Proof.
  unfold sort.
  assert (forall sorted,
            Permutation (l ++ sorted)
              (fold_left (fun s a => insertSorted compareFn a s) l sorted)) as H.
  { induction l as [| a l IH]; intro sorted; [apply Permutation_refl |].
    cbn [fold_left app].
    eapply Permutation_trans; [| apply IH].
    eapply Permutation_trans; [apply Permutation_middle |].
    apply Permutation_app_head. apply insertSorted_Permutation. }
  specialize (H []). rewrite app_nil_r in H. exact H.
Qed.

(** The anchor is an element of the array, at the position returned. *)
Lemma findStart_get (all rest : list VertexRef) (i : Z) (start : Z * VertexRef) :
  (forall k v, nth_error rest k = Some v ->
               JS.get all (i + Z.of_nat k) = Some v) ->
  JS.get all (fst start) = Some (snd start) ->
  JS.get all (fst (findStart rest i start)) = Some (snd (findStart rest i start)).
Proof.
  revert i start. induction rest as [| v rest IH]; intros i start Hall Hs;
    [exact Hs |].
  cbn [findStart].
  assert (forall k w, nth_error rest k = Some w ->
                      JS.get all (i + 1 + Z.of_nat k) = Some w) as Hrest.
  { intros k w Hk. specialize (Hall (S k) w Hk).
    replace (i + 1 + Z.of_nat k)%Z with (i + Z.of_nat (S k))%Z by lia.
    exact Hall. }
  destruct (_ || _).
  - apply IH; [exact Hrest |]. cbn [fst snd].
    specialize (Hall O v eq_refl). rewrite Z.add_0_r in Hall. exact Hall.
  - apply IH; assumption.
Qed.

(** The pops take elements off the top of the stack only. *)
Lemma popWhile_suffix (point : VertexRef) (hull : list VertexRef) :
  exists popped, hull = popped ++ popWhile point hull.
Proof.
  induction hull as [| top below IH]; [exists []; reflexivity |].
  cbn [popWhile]. destruct below as [| under below'].
  - exists []. reflexivity.
  - destruct (negb _).
    + destruct IH as [popped Hp]. exists (top :: popped).
      cbn [app]. f_equal. exact Hp.
    + exists []. reflexivity.
Qed.

Lemma NoDup_app_drop {A : Type} (l m r : list A) :
  NoDup (l ++ m ++ r) -> NoDup (l ++ r).
Proof.
  induction m as [| a m IH]; [auto |].
  intro H. apply IH. cbn [app] in H. apply NoDup_remove_1 in H. exact H.
Qed.

(** The stack of the sweep holds points of the input, each once. *)
Lemma sweep_stack (points : list VertexRef) :
  forall hull : list VertexRef,
    NoDup (map fst (rev hull ++ points)) ->
    let final := fold_left (fun hull point => point :: popWhile point hull)
                           points hull in
    NoDup (map fst final) /\
    forall x, In x final -> In x (hull ++ points).
Proof.
  induction points as [| point points IH]; intros hull Hnd; cbn [fold_left].
  - rewrite app_nil_r in *. split; [| auto].
    rewrite map_rev in Hnd. apply NoDup_rev in Hnd.
    rewrite rev_involutive in Hnd. exact Hnd.
  - destruct (popWhile_suffix point hull) as [popped Hp].
    set (kept := popWhile point hull) in *.
    specialize (IH (point :: kept)).
    assert (NoDup (map fst (rev (point :: kept) ++ points))) as Hnd'.
    { cbn [rev]. rewrite <- app_assoc. cbn [app].
      rewrite Hp, rev_app_distr, <- app_assoc in Hnd.
      rewrite !map_app in Hnd. apply NoDup_app_drop in Hnd.
      rewrite map_app. exact Hnd. }
    destruct (IH Hnd') as [H1 H2]. split; [exact H1 |].
    intros x Hx. apply H2 in Hx. apply in_app_or in Hx.
    apply in_or_app. destruct Hx as [[<- | Hx] | Hx].
    + right. left. reflexivity.
    + left. rewrite Hp. apply in_or_app. right. exact Hx.
    + right. right. exact Hx.
Qed.

Lemma visible_indexed (vs : list Vertex) :
  let visibleVertices := filter (fun v => visible (snd v)) (JS.indexed vs) in
  NoDup (map fst visibleVertices) /\
  forall i v, In (i, v) visibleVertices ->
              JS.get vs i = Some v /\ visible v = true.
Proof.
  split.
  - apply NoDup_map_filter, indexed_from_NoDup.
  - intros i v H. apply filter_In in H. destruct H as [Hin Hv].
    split; [apply indexed_In; exact Hin | exact Hv].
Qed.

Lemma get_nth_error {A : Type} (l : list A) (k : nat) (a : A) :
  nth_error l k = Some a -> JS.get l (Z.of_nat k) = Some a.
Proof.
  intro H. unfold JS.get.
  destruct (Z.of_nat k <? 0)%Z eqn:E; [apply Z.ltb_lt in E; lia |].
  rewrite Nat2Z.id. exact H.
Qed.

(** The hull is a rearranged part of the visible vertices. *)
Lemma convexHull_part (vs : list Vertex) :
  let visibleVertices := filter (fun v => visible (snd v)) (JS.indexed vs) in
  NoDup (map fst (convexHull vs)) /\
  forall x, In x (convexHull vs) -> In x visibleVertices.
Proof.
  cbv zeta. unfold convexHull.
  set (visibleVertices := filter (fun v => visible (snd v)) (JS.indexed vs)).
  pose proof (visible_indexed vs) as [Hnd _]. fold visibleVertices in Hnd.
  destruct (JS.length visibleVertices <? 3)%Z; [split; auto |].
  destruct visibleVertices as [| v0 rest] eqn:Ev; [split; [constructor | auto] |].
  rewrite <- Ev in *.
  destruct (findStart rest 1 (0%Z, v0)) as [start startPoint] eqn:Ef.
  assert (JS.get visibleVertices start = Some startPoint) as Hs.
  { pose proof (findStart_get visibleVertices rest 1 (0%Z, v0)) as H.
    rewrite Ef in H. apply H.
    - intros k v Hk. rewrite Ev.
      replace (1 + Z.of_nat k)%Z with (Z.of_nat (S k)) by lia.
      apply get_nth_error. exact Hk.
    - rewrite Ev. reflexivity. }
  pose proof (removeAt_Permutation _ _ _ Hs) as Hperm.
  assert (Permutation visibleVertices
            (startPoint :: sortedPoints visibleVertices start startPoint))
    as Hperm'.
  { eapply Permutation_trans; [exact Hperm |].
    apply perm_skip. apply sort_Permutation. }
  unfold sweep.
  pose proof (sweep_stack (sortedPoints visibleVertices start startPoint)
                [startPoint]) as H.
  cbv zeta in H. destruct H as [H1 H2].
  { cbn [rev app]. eapply Permutation_NoDup; [| exact Hnd].
    apply Permutation_map. exact Hperm'. }
  split.
  - rewrite map_rev. apply NoDup_rev. exact H1.
  - intros x Hx. apply in_rev in Hx. apply H2 in Hx.
    eapply Permutation_in; [symmetry; exact Hperm' | exact Hx].
Qed.

(** X4.  Every entry of the hull [getConvexHull] returns is a visible vertex
    of the graph, found at its own position in [this.vertices], and no
    vertex occurs twice: the hull has at most as many entries as there
    are visible vertices. *)
Theorem getConvexHull_holds_visible_vertices_once :
  forall g : Graph,
  exists hull,
    getConvexHull g = Ret hull g /\
    NoDup (map fst hull) /\
    (forall i v, In (i, v) hull ->
       JS.get (vertices g) i = Some v /\ visible v = true) /\
    (JS.length hull <= JS.length (filter visible (vertices g)))%Z.
Proof.
  intro g. exists (convexHull (vertices g)).
  pose proof (convexHull_part (vertices g)) as [Hnd Hin]. cbv zeta in Hin.
  pose proof (visible_indexed (vertices g)) as [Hvn Hv]. cbv zeta in Hv.
  split; [reflexivity |]. split; [exact Hnd |]. split.
  - intros i v H. apply Hv, Hin, H.
  - unfold JS.length. apply inj_le.
    rewrite <- (length_map fst (convexHull (vertices g))).
    apply Nat.le_trans
      with (List.length
              (map fst (filter (fun v => visible (snd v))
                          (JS.indexed (vertices g))))).
    + apply NoDup_incl_length; [exact Hnd |].
      intros i Hi. apply in_map_iff in Hi. destruct Hi as (x & <- & Hx).
      apply in_map, Hin, Hx.
    + rewrite length_map. clear.
      unfold JS.indexed. generalize 0%Z.
      induction (vertices g) as [| v l IH]; intro k; [apply le_n |].
      cbn [JS.indexed_from filter snd]. destruct (visible v); cbn [List.length].
      * apply le_n_S, IH.
      * apply IH.
Qed.

(** [updatePeriphery] returns, and what periphery it sets. *)
Lemma updatePeriphery_hull :
  forall g : Graph,
  exists p,
    updatePeriphery g = Ret tt (set_periphery p g) /\
    (p = map fst (convexHull (vertices g)) \/
     p = rev (map fst (convexHull (vertices g)))) /\
    NoDup p /\
    forall i, In i p ->
      exists v, JS.get (vertices g) i = Some v /\ visible v = true.
Proof.
  intro g. rewrite updatePeriphery_eq. cbv zeta.
  pose proof (convexHull_part (vertices g)) as [Hnd Hpart].
  cbv zeta in Hpart.
  pose proof (visible_indexed (vertices g)) as [_ Hvis]. cbv zeta in Hvis.
  assert (forall i v, In (i, v) (convexHull (vertices g)) ->
            JS.get (vertices g) i = Some v /\ visible v = true) as Hin
    by (intros i v H; apply Hvis, Hpart, H).
  set (hull := map fst (convexHull (vertices g))) in *.
  assert (forall i, In i hull ->
            exists v, JS.get (vertices g) i = Some v /\ visible v = true)
    as Hdef.
  { intros i Hi. apply in_map_iff in Hi. destruct Hi as ([k v] & <- & Hx).
    exists v. apply Hin. exact Hx. }
  destruct (clockwise (vertices g) hull) as [p |] eqn:Hc.
  - exists p. split; [reflexivity |].
    pose proof (clockwise_cases _ _ _ Hc) as Hp. split; [exact Hp |].
    split.
    + destruct Hp as [-> | ->]; [exact Hnd | apply NoDup_rev; exact Hnd].
    + intros i Hi. apply Hdef.
      destruct Hp as [-> | ->]; [exact Hi | apply in_rev; exact Hi].
  - exfalso. unfold clockwise in Hc.
    destruct (JS.length hull <? 3)%Z; [discriminate |].
    destruct (signedArea (vertices g) hull) eqn:Ha; [discriminate |].
    apply signedArea_None in Ha. destruct Ha as (i & Hi & Hn).
    destruct (Hdef i Hi) as (v & Hv & _). congruence.
Qed.

(** X5.  [updatePeriphery] never throws.  It returns with the periphery set
    to the hull, in the order of the hull or in the reverse order, and
    with nothing else changed; every entry of that periphery is the
    position of a visible vertex, and no entry repeats. *)
Theorem updatePeriphery_returns_visible_hull :
  forall g : Graph,
  exists p,
    updatePeriphery g = Ret tt (set_periphery p g) /\
    (p = map fst (convexHull (vertices g)) \/
     p = rev (map fst (convexHull (vertices g)))) /\
    NoDup p /\
    forall i, In i p ->
      exists v, JS.get (vertices g) i = Some v /\ visible v = true.
Proof. exact updatePeriphery_hull. Qed.

(** ** Loops over reading bodies *)

(** A loop whose body only reads: how it ends says what the body
    answered on the elements. *)
Lemma forOf_None {A B : Type} (xs : list A) (body : A -> M (option B))
  (g g' : Graph) :
  (forall a, reads (body a)) ->
  forOf xs body g = Ret None g' ->
  forall a, In a xs -> body a g = Ret None g.
Proof.
  intros Hb. induction xs as [| x xs IH]; intros H a Ha; [destruct Ha |].
  cbn [forOf] in H. unfold bind in H.
  destruct (body x g) as [r g1 | g1 | ] eqn:E; try discriminate.
  pose proof (reads_Ret _ _ _ _ (Hb x) E). subst g1.
  destruct r as [b |]; [discriminate |].
  destruct Ha as [<- | Ha]; [exact E | exact (IH H a Ha)].
Qed.

Lemma forOf_Some {A B : Type} (xs : list A) (body : A -> M (option B))
  (g g' : Graph) (b : B) :
  (forall a, reads (body a)) ->
  forOf xs body g = Ret (Some b) g' ->
  exists a, In a xs /\ body a g = Ret (Some b) g.
Proof.
  intros Hb. induction xs as [| x xs IH]; intro H; [discriminate |].
  cbn [forOf] in H. unfold bind in H.
  destruct (body x g) as [r g1 | g1 | ] eqn:E; try discriminate.
  pose proof (reads_Ret _ _ _ _ (Hb x) E). subst g1.
  destruct r as [b' |].
  - injection H as -> _. exists x. split; [left; reflexivity | exact E].
  - destruct (IH H) as (a & Ha & Hr). exists a. split; [right |]; assumption.
Qed.

Lemma forOf_returns {A B : Type} (xs : list A) (body : A -> M (option B))
  (g : Graph) :
  (forall a, In a xs -> exists r, body a g = Ret r g) ->
  exists r, forOf xs body g = Ret r g.
Proof.
  induction xs as [| x xs IH]; intro H; [exists None; reflexivity |].
  cbn [forOf]. unfold bind.
  destruct (H x (or_introl eq_refl)) as [r Hr]. rewrite Hr.
  destruct r as [b |]; [exists (Some b); reflexivity |].
  apply IH. intros a Ha. apply H. right. exact Ha.
Qed.

Lemma forPairs_None {A B : Type} (xs : list A) (body : A -> A -> M (option B))
  (g g' : Graph) :
  (forall a b, reads (body a b)) ->
  forPairs xs body g = Ret None g' ->
  forall a b, In (a, b) (pairs xs) -> body a b g = Ret None g.
Proof.
  intros Hb. induction xs as [| x xs IH]; intros H a b Hab; [destruct Hab |].
  cbn [forPairs] in H. unfold bind in H.
  destruct (forOf xs (body x) g) as [r g1 | g1 | ] eqn:E; try discriminate.
  assert (g1 = g) as ->
    by (apply (reads_Ret _ _ _ _ (reads_forOf xs (body x) (Hb x)) E)).
  destruct r as [v |]; [discriminate |].
  cbn [pairs] in Hab. apply in_app_or in Hab. destruct Hab as [Hab | Hab].
  - apply in_map_iff in Hab. destruct Hab as (y & Hy & Hin).
    injection Hy as <- <-.
    exact (forOf_None xs (body x) g g (Hb x) E y Hin).
  - exact (IH H a b Hab).
Qed.

Lemma forPairs_Some {A B : Type} (xs : list A) (body : A -> A -> M (option B))
  (g g' : Graph) (v : B) :
  (forall a b, reads (body a b)) ->
  forPairs xs body g = Ret (Some v) g' ->
  exists a b, In (a, b) (pairs xs) /\ body a b g = Ret (Some v) g.
Proof.
  intros Hb. induction xs as [| x xs IH]; intro H; [discriminate |].
  cbn [forPairs] in H. unfold bind in H.
  destruct (forOf xs (body x) g) as [r g1 | g1 | ] eqn:E; try discriminate.
  assert (g1 = g) as ->
    by (apply (reads_Ret _ _ _ _ (reads_forOf xs (body x) (Hb x)) E)).
  destruct r as [w |].
  - injection H as -> _.
    destruct (forOf_Some xs (body x) g g v (Hb x) E) as (y & Hy & Hr).
    exists x, y. split; [| exact Hr].
    cbn [pairs]. apply in_or_app. left. apply in_map. exact Hy.
  - destruct (IH H) as (a & b & Hab & Hr). exists a, b.
    split; [| exact Hr]. cbn [pairs]. apply in_or_app. right. exact Hab.
Qed.

Lemma forPairs_returns {A B : Type} (xs : list A)
  (body : A -> A -> M (option B)) (g : Graph) :
  (forall a b, In (a, b) (pairs xs) -> exists r, body a b g = Ret r g) ->
  exists r, forPairs xs body g = Ret r g.
Proof.
  induction xs as [| x xs IH]; intro H; [exists None; reflexivity |].
  cbn [forPairs]. unfold bind.
  destruct (forOf_returns xs (body x) g) as [r Hr].
  { intros y Hy. apply H. cbn [pairs]. apply in_or_app. left.
    apply in_map. exact Hy. }
  rewrite Hr. destruct r as [b |]; [exists (Some b); reflexivity |].
  apply IH. intros a b Hab. apply H. cbn [pairs]. apply in_or_app.
  right. exact Hab.
Qed.

(** The pairs of the nested loops are the pairs of positions [i < j]. *)
Lemma pairs_positions {A : Type} (xs : list A) (a b : A) :
  In (a, b) (pairs xs) <->
  exists i j, (i < j)%nat /\ nth_error xs i = Some a /\ nth_error xs j = Some b.
Proof.
  induction xs as [| x xs IH]; cbn [pairs].
  - split; [intros [] | intros (i & j & _ & H & _)]. destruct i; discriminate.
  - rewrite in_app_iff, IH, in_map_iff. split.
    + intros [(y & Hy & Hin) | (i & j & Hij & Hi & Hj)].
      * injection Hy as <- <-. apply In_nth_error in Hin.
        destruct Hin as [k Hk]. exists O, (S k). split; [lia | auto].
      * exists (S i), (S j). split; [lia | auto].
    + intros (i & j & Hij & Hi & Hj). destruct j as [| j]; [lia |].
      simpl in Hj. destruct i as [| i].
      * injection Hi as <-. left. exists b. split; [reflexivity |].
        eapply nth_error_In. exact Hj.
      * right. exists i, j. split; [lia | auto].
Qed.

(** ** The integrity scan *)

Lemma anyHidden_two (v1 v2 : Vertex) :
  anyHidden [Some v1; Some v2] = Some (negb (visible v1 && visible v2)).
Proof. cbn. destruct (visible v1), (visible v2); reflexivity. Qed.

Lemma anyHidden_four (v1 v2 v3 v4 : Vertex) :
  anyHidden [Some v1; Some v2; Some v3; Some v4] =
    Some (negb (visible v1 && visible v2 && visible v3 && visible v4)).
Proof.
  cbn. destruct (visible v1), (visible v2), (visible v3), (visible v4);
    reflexivity.
Qed.

(** The integrity scan on edges that are in range. *)
Lemma validateGraphIntegrity_pairs :
  forall g : Graph,
    edgesInRange g ->
    exists check,
      validateGraphIntegrity g = Ret check g /\
      (valid check = true <->
       forall (i j : nat) (edge1 edge2 : Z * Z),
         (i < j)%nat ->
         nth_error (edges g) i = Some edge1 ->
         nth_error (edges g) j = Some edge2 ->
         crosses (vertices g) edge1 edge2 = false) /\
      (valid check = false ->
       exists (i j : nat) (edge1 edge2 : Z * Z) (v1 v2 v3 v4 : Vertex),
         (i < j)%nat /\
         nth_error (edges g) i = Some edge1 /\
         nth_error (edges g) j = Some edge2 /\
         crosses (vertices g) edge1 edge2 = true /\
         JS.get (vertices g) (fst edge1) = Some v1 /\
         JS.get (vertices g) (snd edge1) = Some v2 /\
         JS.get (vertices g) (fst edge2) = Some v3 /\
         JS.get (vertices g) (snd edge2) = Some v4 /\
         vmessage check =
           Some (MsgIntegrity (vid v1) (vid v2) (vid v3) (vid v4))).
Proof.
  intros g Hin.
  unfold validateGraphIntegrity. unfold bind at 1. unfold gets at 1.
  match goal with
  | |- context [forPairs _ ?b] => set (body := b)
  end.
  assert (forall a b, reads (body a b)) as Hreads by (intros; unfold body; frame).
  assert (forall edge1 edge2,
            In (edge1, edge2) (pairs (edges g)) ->
            exists v1 v2 v3 v4,
              JS.get (vertices g) (fst edge1) = Some v1 /\
              JS.get (vertices g) (snd edge1) = Some v2 /\
              JS.get (vertices g) (fst edge2) = Some v3 /\
              JS.get (vertices g) (snd edge2) = Some v4 /\
              body edge1 edge2 g =
                Ret (if crosses (vertices g) edge1 edge2
                     then Some (Invalid (MsgIntegrity (vid v1) (vid v2)
                                           (vid v3) (vid v4)))
                     else None) g) as Hbody.
  { intros e1 e2 Hp. apply pairs_positions in Hp.
    destruct Hp as (i & j & _ & Hi & Hj).
    apply nth_error_In in Hi, Hj.
    destruct (Hin e1 Hi) as [H1 H2]. destruct (Hin e2 Hj) as [H3 H4].
    destruct (JS_get_Some _ _ H1) as [v1 E1].
    destruct (JS_get_Some _ _ H2) as [v2 E2].
    destruct (JS_get_Some _ _ H3) as [v3 E3].
    destruct (JS_get_Some _ _ H4) as [v4 E4].
    exists v1, v2, v3, v4. repeat (split; [assumption |]).
    unfold body, crosses, sharesIndex.
    destruct (_ || _); [reflexivity |]. cbn [negb andb].
    unfold bind, gets, orThrow, ret. rewrite E1, E2, E3, E4.
    rewrite anyHidden_four.
    destruct (visible v1 && visible v2 && visible v3 && visible v4);
      [| reflexivity].
    cbn [negb option_map segmentsIntersectU andb].
    destruct (segmentsIntersect _ _ _ _); reflexivity. }
  destruct (forPairs_returns (edges g) body g) as [r Hr].
  { intros a b Hab. destruct (Hbody a b Hab) as (? & ? & ? & ? & _ & _ & _ & _ & H).
    eexists. exact H. }
  unfold bind. rewrite Hr. destruct r as [check |].
  - exists check. split; [reflexivity |].
    destruct (forPairs_Some _ _ _ _ _ Hreads Hr) as (e1 & e2 & Hp & Hb).
    destruct (Hbody e1 e2 Hp) as (v1 & v2 & v3 & v4 & E1 & E2 & E3 & E4 & Hb').
    rewrite Hb' in Hb.
    destruct (crosses (vertices g) e1 e2) eqn:Hc; [| discriminate].
    injection Hb as <-.
    apply pairs_positions in Hp. destruct Hp as (i & j & Hij & Hi & Hj).
    split; [split; [discriminate |] |].
    + intro H. rewrite (H i j e1 e2 Hij Hi Hj) in Hc. discriminate.
    + intros _. exists i, j, e1, e2, v1, v2, v3, v4. auto 10.
  - exists Valid. split; [reflexivity |].
    split; [split; [| reflexivity] | discriminate].
    intros _ i j e1 e2 Hij Hi Hj.
    assert (In (e1, e2) (pairs (edges g))) as Hp
      by (apply pairs_positions; eauto).
    pose proof (forPairs_None _ _ _ _ Hreads Hr e1 e2 Hp) as Hb.
    destruct (Hbody e1 e2 Hp) as (? & ? & ? & ? & _ & _ & _ & _ & Hb').
    rewrite Hb' in Hb.
    destruct (crosses (vertices g) e1 e2); [discriminate | reflexivity].
Qed.

(** X6.  With every edge between two positions of the vertex array,
    [validateGraphIntegrity] returns.  Its answer is [valid] exactly
    when no two edges taken at positions [i < j] of the edge array
    cross; otherwise its message names the four end vertices of two
    edges that do. *)
Theorem validateGraphIntegrity_scans_every_pair :
  forall g : Graph,
    edgesInRange g ->
    exists check,
      validateGraphIntegrity g = Ret check g /\
      (valid check = true <->
       forall (i j : nat) (edge1 edge2 : Z * Z),
         (i < j)%nat ->
         nth_error (edges g) i = Some edge1 ->
         nth_error (edges g) j = Some edge2 ->
         crosses (vertices g) edge1 edge2 = false) /\
      (valid check = false ->
       exists (i j : nat) (edge1 edge2 : Z * Z) (v1 v2 v3 v4 : Vertex),
         (i < j)%nat /\
         nth_error (edges g) i = Some edge1 /\
         nth_error (edges g) j = Some edge2 /\
         crosses (vertices g) edge1 edge2 = true /\
         JS.get (vertices g) (fst edge1) = Some v1 /\
         JS.get (vertices g) (snd edge1) = Some v2 /\
         JS.get (vertices g) (fst edge2) = Some v3 /\
         JS.get (vertices g) (snd edge2) = Some v4 /\
         vmessage check =
           Some (MsgIntegrity (vid v1) (vid v2) (vid v3) (vid v4))).
Proof. exact validateGraphIntegrity_pairs. Qed.

(** ** The checks on a candidate position *)

Lemma forOf_existsb {A B : Type} (xs : list A) (body : A -> M (option B))
  (P : A -> bool) (b : B) (g : Graph) :
  (forall a, In a xs -> body a g = Ret (if P a then Some b else None) g) ->
  forOf xs body g = Ret (if existsb P xs then Some b else None) g.
Proof.
  induction xs as [| x xs IH]; intro H; [reflexivity |].
  cbn [forOf existsb]. unfold bind. rewrite (H x (or_introl eq_refl)).
  destruct (P x); [reflexivity |]. cbn [orb].
  apply IH. intros a Ha. apply H. right. exact Ha.
Qed.

Lemma isOutsideGraph_returns (x y margin : R) (g : Graph) :
  exists outside, isOutsideGraph x y margin g = Ret outside g.
Proof.
  unfold isOutsideGraph, getConvexHull, bind, gets, ret.
  destruct (_ <? 3)%Z; [eauto |]. destruct (margin >? #0); eauto.
Qed.

(** The checks of [validateBasicPosition], in their order. *)
Lemma validateBasicPosition_order :
  forall (candidate : Point) (g : Graph),
    edgesInRange g ->
    exists outside,
      isOutsideGraph (px candidate) (py candidate) #40 g = Ret outside g /\
      validateBasicPosition candidate g =
        Ret (if existsb (tooCloseToVertex candidate) (vertices g)
             then Invalid MsgTooCloseToVertex
             else if existsb (tooCloseToEdge (vertices g) candidate) (edges g)
             then Invalid MsgTooCloseToEdge
             else if outside then Valid
             else Invalid MsgNotOutside) g.
Proof.
  intros c g Hin.
  destruct (isOutsideGraph_returns (px c) (py c) #40 g) as [outside Ho].
  exists outside. split; [exact Ho |].
  unfold validateBasicPosition. unfold bind at 1. unfold gets at 1.
  unfold bind at 1.
  rewrite (forOf_existsb (vertices g) _ (tooCloseToVertex c)
             (Invalid MsgTooCloseToVertex) g).
  2:{ intros v _. unfold tooCloseToVertex.
      destruct (visible v); [| reflexivity]. cbn [negb andb].
      destruct (distance c (pos v) <? #50); reflexivity. }
  destruct (existsb (tooCloseToVertex c) (vertices g)); [reflexivity |].
  unfold bind at 1. unfold gets at 1. unfold bind at 1.
  rewrite (forOf_existsb (edges g) _ (tooCloseToEdge (vertices g) c)
             (Invalid MsgTooCloseToEdge) g).
  2:{ intros e He. destruct (Hin e He) as [H1 H2].
      destruct (JS_get_Some _ _ H1) as [vi Ei].
      destruct (JS_get_Some _ _ H2) as [vj Ej].
      unfold tooCloseToEdge, bind, gets, orThrow, ret. rewrite Ei, Ej.
      rewrite anyHidden_two.
      destruct (visible vi && visible vj); [| reflexivity].
      cbn [negb option_map andb].
      destruct (pointToLineDistance c (pos vi) (pos vj) <? #30); reflexivity. }
  destruct (existsb (tooCloseToEdge (vertices g) c) (edges g)); [reflexivity |].
  unfold bind. rewrite Ho. destruct outside; reflexivity.
Qed.

(** X7.  With every edge between two positions of the vertex array,
    [validateBasicPosition] returns, and its answer is that of the
    first check that fails, in this order: a visible vertex less than
    50 away, an edge with visible ends less than 30 away, a position
    that [isOutsideGraph] (margin 40) does not find outside.  The
    position is valid when the three checks pass. *)
Theorem validateBasicPosition_checks_in_order :
  forall (candidate : Point) (g : Graph),
    edgesInRange g ->
    exists outside,
      isOutsideGraph (px candidate) (py candidate) #40 g = Ret outside g /\
      validateBasicPosition candidate g =
        Ret (if existsb (tooCloseToVertex candidate) (vertices g)
             then Invalid MsgTooCloseToVertex
             else if existsb (tooCloseToEdge (vertices g) candidate) (edges g)
             then Invalid MsgTooCloseToEdge
             else if outside then Valid
             else Invalid MsgNotOutside) g.
Proof. exact validateBasicPosition_order. Qed.

(** ** The check of the new edges *)

Lemma indexed_from_nth {A : Type} (l : list A) (j : Z) (k : nat) (a : A) :
  nth_error l k = Some a -> In ((j + Z.of_nat k)%Z, a) (JS.indexed_from j l).
Proof.
  revert j k. induction l as [| x l IH]; intros j [| k] H; try discriminate.
  - injection H as ->. rewrite Z.add_0_r. left. reflexivity.
  - right. replace (j + Z.of_nat (S k))%Z with (j + 1 + Z.of_nat k)%Z by lia.
    apply IH. exact H.
Qed.

Lemma indexed_nth {A : Type} (l : list A) (i : Z) (a : A) :
  In (i, a) (JS.indexed l) <->
  (0 <= i)%Z /\ nth_error l (Z.to_nat i) = Some a.
Proof.
  split.
  - intro H. apply indexed_from_In in H. rewrite Z.sub_0_r in H. exact H.
  - intros [H0 H]. replace i with (0 + Z.of_nat (Z.to_nat i))%Z by lia.
    apply indexed_from_nth. exact H.
Qed.

(** The check of the new edges on entries that are in range. *)
Lemma validateNewEdges_edges :
  forall (newVertexPos : Point) (segment : list Z) (g : Graph),
    edgesInRange g ->
    (forall vIdx, In vIdx segment -> isVertex g vIdx) ->
    exists check,
      validateNewEdges newVertexPos segment g = Ret check g /\
      (valid check = true <->
       (forall vIdx v e,
          In vIdx segment -> JS.get (vertices g) vIdx = Some v ->
          In e (edges g) ->
          newEdgeBlocked (vertices g) newVertexPos v e = false) /\
       (forall (i j : nat) vIdx wIdx v w,
          i <> j ->
          nth_error segment i = Some vIdx ->
          nth_error segment j = Some wIdx ->
          JS.get (vertices g) vIdx = Some v ->
          JS.get (vertices g) wIdx = Some w ->
          newEdgesCross newVertexPos v w = false)).
Proof.
  intros p seg g Hin Hseg.
  unfold validateNewEdges. unfold bind at 1. unfold gets at 1. cbv zeta.
  set (mk := fun vIdx : Z =>
               mkEdge (Some p) (option_map pos (JS.get (vertices g) vIdx))).
  set (newEdges := map mk seg).
  match goal with
  | |- context [forOf (JS.indexed newEdges) ?b] => set (body := b)
  end.
  assert (Hreads : forall x, reads (body x)) by (intros [i ne]; unfold body; frame).
  assert (Hnew : forall i ne,
            In (i, ne) (JS.indexed newEdges) ->
            exists vIdx v,
              nth_error seg (Z.to_nat i) = Some vIdx /\
              JS.get (vertices g) vIdx = Some v /\
              ne = mkEdge (Some p) (Some (pos v))).
  { intros i ne H. apply indexed_nth in H. destruct H as [_ H].
    unfold newEdges in H. rewrite nth_error_map in H.
    destruct (nth_error seg (Z.to_nat i)) as [vIdx |] eqn:Ei; [| discriminate].
    injection H as <-.
    destruct (JS_get_Some _ _ (Hseg vIdx (nth_error_In _ _ Ei))) as [v Ev].
    exists vIdx, v. unfold mk. rewrite Ev. auto. }
  assert (HA : forall i vIdx v,
            nth_error seg (Z.to_nat i) = Some vIdx ->
            JS.get (vertices g) vIdx = Some v ->
            exists r,
              body (i, mkEdge (Some p) (Some (pos v))) g = Ret r g /\
              (r = None ->
               (forall e, In e (edges g) ->
                  newEdgeBlocked (vertices g) p v e = false) /\
               (forall j wIdx w,
                  (0 <= j)%Z -> i <> j ->
                  nth_error seg (Z.to_nat j) = Some wIdx ->
                  JS.get (vertices g) wIdx = Some w ->
                  newEdgesCross p v w = false)) /\
              (forall c, r = Some c ->
                 valid c = false /\
                 ((exists e, In e (edges g) /\
                     newEdgeBlocked (vertices g) p v e = true) \/
                  (exists j wIdx w,
                     (0 <= j)%Z /\ i <> j /\
                     nth_error seg (Z.to_nat j) = Some wIdx /\
                     JS.get (vertices g) wIdx = Some w /\
                     newEdgesCross p v w = true)))).
  { intros i vIdx v Ei Ev. unfold body. cbv beta iota.
    unfold bind at 1. unfold gets at 1.
    match goal with
    | |- context [forOf (edges g) ?b] => set (inner1 := b)
    end.
    match goal with
    | |- context [forOf (JS.indexed newEdges) ?b] => set (inner2 := b)
    end.
    assert (H1 : forall e, In e (edges g) ->
              exists id1 id2,
                inner1 e g =
                  Ret (if newEdgeBlocked (vertices g) p v e
                       then Some (Invalid (MsgIntersectsExisting id1 id2))
                       else None) g).
    { intros e He. destruct (Hin e He) as [Ha Hb].
      destruct (JS_get_Some _ _ Ha) as [v1 E1].
      destruct (JS_get_Some _ _ Hb) as [v2 E2].
      exists (vid v1), (vid v2).
      unfold inner1, newEdgeBlocked, bind, gets, orThrow, ret.
      rewrite E1, E2, anyHidden_two.
      destruct (visible v1 && visible v2); [| reflexivity].
      cbn [negb option_map andb start end_ segmentsIntersectU].
      destruct (edgesShareVertex _ _); [reflexivity |]. cbn [negb andb].
      destruct (segmentsIntersect _ _ _ _); reflexivity. }
    assert (H2 : forall j ne, In (j, ne) (JS.indexed newEdges) ->
              exists wIdx w,
                nth_error seg (Z.to_nat j) = Some wIdx /\
                JS.get (vertices g) wIdx = Some w /\
                inner2 (j, ne) g =
                  Ret (if (i =? j)%Z then None
                       else if newEdgesCross p v w
                       then Some (Invalid MsgNewEdgesIntersect)
                       else None) g).
    { intros j ne Hj. destruct (Hnew j ne Hj) as (wIdx & w & Ej & Ew & ->).
      exists wIdx, w. split; [exact Ej |]. split; [exact Ew |].
      unfold inner2, newEdgesCross, bind, gets, orThrow, ret.
      destruct (i =? j)%Z; [reflexivity |].
      destruct (edgesShareVertex _ _); [reflexivity |].
      cbn [negb andb start end_ segmentsIntersectU].
      destruct (segmentsIntersect _ _ _ _); reflexivity. }
    assert (Hr1 : forall e, reads (inner1 e)) by (intro; unfold inner1; frame).
    assert (Hr2 : forall x, reads (inner2 x))
      by (intros [j ne]; unfold inner2; frame).
    destruct (forOf_returns (edges g) inner1 g) as [r1 Hf1].
    { intros e He. destruct (H1 e He) as (? & ? & ->). eauto. }
    unfold bind. rewrite Hf1. destruct r1 as [c |].
    - exists (Some c). split; [reflexivity |]. split; [discriminate |].
      intros c' Hc. injection Hc as <-.
      destruct (forOf_Some _ _ _ _ _ Hr1 Hf1) as (e & He & Hb).
      destruct (H1 e He) as (id1 & id2 & Hb'). rewrite Hb' in Hb.
      destruct (newEdgeBlocked (vertices g) p v e) eqn:Hbl; [| discriminate].
      injection Hb as <-. split; [reflexivity |]. left. eauto.
    - assert (Hnone1 : forall e, In e (edges g) ->
                newEdgeBlocked (vertices g) p v e = false).
      { intros e He. pose proof (forOf_None _ _ _ _ Hr1 Hf1 e He) as Hb.
        destruct (H1 e He) as (id1 & id2 & Hb'). rewrite Hb' in Hb.
        destruct (newEdgeBlocked _ _ _ _); [discriminate | reflexivity]. }
      destruct (forOf_returns (JS.indexed newEdges) inner2 g) as [r2 Hf2].
      { intros [j ne] Hj. destruct (H2 j ne Hj) as (? & ? & _ & _ & ->). eauto. }
      rewrite Hf2. exists r2. split; [reflexivity |]. split.
      + intros ->. split; [exact Hnone1 |].
        intros j wIdx w Hj0 Hij Ej Ew.
        assert (In (j, mkEdge (Some p) (Some (pos w))) (JS.indexed newEdges))
          as Hj.
        { apply indexed_nth. split; [exact Hj0 |]. unfold newEdges.
          rewrite nth_error_map, Ej. cbn [option_map]. unfold mk.
          rewrite Ew. reflexivity. }
        pose proof (forOf_None _ _ _ _ Hr2 Hf2 _ Hj) as Hb.
        destruct (H2 _ _ Hj) as (wIdx' & w' & Ej' & Ew' & Hb').
        rewrite Ej in Ej'. injection Ej' as <-. rewrite Ew in Ew'.
        injection Ew' as <-. rewrite Hb' in Hb.
        apply Z.eqb_neq in Hij. rewrite Hij in Hb.
        destruct (newEdgesCross p v w); [discriminate | reflexivity].
      + intros c ->.
        destruct (forOf_Some _ _ _ _ _ Hr2 Hf2) as ([j ne] & Hj & Hb).
        destruct (H2 _ _ Hj) as (wIdx & w & Ej & Ew & Hb'). rewrite Hb' in Hb.
        destruct (i =? j)%Z eqn:Eij; [discriminate |].
        destruct (newEdgesCross p v w) eqn:Hx; [| discriminate].
        injection Hb as <-. split; [reflexivity |]. right.
        apply indexed_nth in Hj. destruct Hj as [Hj0 _].
        apply Z.eqb_neq in Eij. exists j, wIdx, w. auto 6. }
  destruct (forOf_returns (JS.indexed newEdges) body g) as [r Hr].
  { intros [i ne] Hi. destruct (Hnew i ne Hi) as (vIdx & v & Ei & Ev & ->).
    destruct (HA i vIdx v Ei Ev) as (r & Hr & _). eauto. }
  unfold bind. rewrite Hr. destruct r as [check |].
  - exists check. split; [reflexivity |].
    destruct (forOf_Some _ _ _ _ _ Hreads Hr) as ([i ne] & Hi & Hb).
    destruct (Hnew i ne Hi) as (vIdx & v & Ei & Ev & ->).
    destruct (HA i vIdx v Ei Ev) as (r & Hr' & _ & Hsome).
    rewrite Hr' in Hb. injection Hb as ->.
    destruct (Hsome check eq_refl) as [Hv Hwhy]. rewrite Hv.
    split; [discriminate |]. intros [Hex Hcr]. exfalso.
    destruct Hwhy as [(e & He & Hbl) | (j & wIdx & w & Hj0 & Hij & Ej & Ew & Hx)].
    + rewrite (Hex vIdx v e (nth_error_In _ _ Ei) Ev He) in Hbl. discriminate.
    + apply indexed_nth in Hi. destruct Hi as [Hi0 _].
      rewrite (Hcr (Z.to_nat i) (Z.to_nat j) vIdx wIdx v w) in Hx;
        try assumption; [discriminate | lia].
  - exists Valid. split; [reflexivity |]. split; [| reflexivity]. intros _.
    split.
    + intros vIdx v e Hv Ev He. apply In_nth_error in Hv.
      destruct Hv as [k Hk].
      assert (In (Z.of_nat k, mkEdge (Some p) (Some (pos v)))
                (JS.indexed newEdges)) as Hi.
      { apply indexed_nth. split; [lia |]. rewrite Nat2Z.id. unfold newEdges.
        rewrite nth_error_map, Hk. cbn [option_map]. unfold mk. rewrite Ev.
        reflexivity. }
      pose proof (forOf_None _ _ _ _ Hreads Hr _ Hi) as Hb.
      destruct (HA (Z.of_nat k) vIdx v) as (r & Hr' & Hnone & _);
        [rewrite Nat2Z.id; exact Hk | exact Ev |].
      rewrite Hr' in Hb. injection Hb as ->.
      destruct (Hnone eq_refl) as [H _]. apply H. exact He.
    + intros i j vIdx wIdx v w Hij Ei Ej Ev Ew.
      assert (In (Z.of_nat i, mkEdge (Some p) (Some (pos v)))
                (JS.indexed newEdges)) as Hi.
      { apply indexed_nth. split; [lia |]. rewrite Nat2Z.id. unfold newEdges.
        rewrite nth_error_map, Ei. cbn [option_map]. unfold mk. rewrite Ev.
        reflexivity. }
      pose proof (forOf_None _ _ _ _ Hreads Hr _ Hi) as Hb.
      destruct (HA (Z.of_nat i) vIdx v) as (r & Hr' & Hnone & _);
        [rewrite Nat2Z.id; exact Ei | exact Ev |].
      rewrite Hr' in Hb. injection Hb as ->.
      destruct (Hnone eq_refl) as [_ H].
      apply (H (Z.of_nat j) wIdx w); [lia | lia | | exact Ew].
      rewrite Nat2Z.id. exact Ej.
Qed.

(** X8.  With every edge and every segment entry a position of the vertex
    array, [validateNewEdges] returns; its answer is [valid] exactly
    when no new edge crosses an existing edge and no two new edges
    cross each other. *)
Theorem validateNewEdges_checks_every_edge :
  forall (newVertexPos : Point) (segment : list Z) (g : Graph),
    edgesInRange g ->
    (forall vIdx, In vIdx segment -> isVertex g vIdx) ->
    exists check,
      validateNewEdges newVertexPos segment g = Ret check g /\
      (valid check = true <->
       (forall vIdx v e,
          In vIdx segment -> JS.get (vertices g) vIdx = Some v ->
          In e (edges g) ->
          newEdgeBlocked (vertices g) newVertexPos v e = false) /\
       (forall (i j : nat) vIdx wIdx v w,
          i <> j ->
          nth_error segment i = Some vIdx ->
          nth_error segment j = Some wIdx ->
          JS.get (vertices g) vIdx = Some v ->
          JS.get (vertices g) wIdx = Some w ->
          newEdgesCross newVertexPos v w = false)).
Proof. exact validateNewEdges_edges. Qed.

(** ** What an insertion never answers *)

(** A position the search returns has passed both validations, run on
    the state the search was called in. *)
Lemma findNonIntersectingPosition_found (segment : list Z) (g g' : Graph)
  (p : Point) :
  findNonIntersectingPosition segment g = Ret (Some p) g' ->
  exists basic check,
    validateBasicPosition p g = Ret basic g /\ valid basic = true /\
    validateNewEdges p segment g = Ret check g /\ valid check = true.
Proof.
  unfold findNonIntersectingPosition, bind. intro Hrun.
  destruct (calculateCentroid segment g) as [centroid g1 | g1 | ] eqn:Ec;
    try discriminate.
  apply reads_Ret in Ec as Hg1; [subst g1 | auto with frame].
  destruct (calculateGraphCenter g) as [graphCenter g2 | g2 | ] eqn:Eg;
    try discriminate.
  apply reads_Ret in Eg as Hg2; [subst g2 | auto with frame].
  rewrite attempts_firstPassing in Hrun. apply firstPassing_seq in Hrun.
  destruct Hrun as (k & _ & _ & Hok & _).
  unfold passes, bind, ret in Hok.
  destruct (validateBasicPosition p g) as [basic g1 | g1 | ] eqn:Eb;
    try discriminate.
  apply reads_Ret in Eb as Hg1; [subst g1 | auto with frame].
  destruct (valid basic) eqn:Hb; cbn [negb] in Hok; [| discriminate].
  destruct (validateNewEdges p segment g) as [check g2 | g2 | ] eqn:Ev;
    try discriminate.
  apply reads_Ret in Ev as Hg2; [subst g2 | auto with frame].
  exists basic, check. injection Hok as Hok. auto.
Qed.

(** X9.  The validation that [processSegmentSelection] runs before it adds
    the vertex cannot fail: it repeats, on the same state, a check the
    position has passed inside the search.  No call returns the message
    "Cannot add vertex". *)
Theorem processSegmentSelection_never_cannot_add :
  forall (g g' : Graph) (r : Result),
    processSegmentSelection g = Ret r g' ->
    forall d, message r <> MsgCannotAdd d.
Proof.
  intros g g' r Hrun d Hmsg.
  rewrite processSegmentSelection_unfold in Hrun.
  unfold processSegmentSelection_steps in Hrun. cbv zeta in Hrun.
  destruct (selectedVertices g) as [| v1 [| v2 [| v3 sel]]];
    try (injection Hrun as <- <-; discriminate).
  destruct (_ || _); [injection Hrun as <- <-; discriminate |].
  destruct (getPeripherySegment _ _ g) as [segment g0 | g0 | ];
    try discriminate.
  destruct (JS.length segment <? 2)%Z;
    [injection Hrun as <- <-; discriminate |].
  destruct (findNonIntersectingPosition _ _) as [[newPosition |] g1 | g1 | ]
    eqn:Efind; try discriminate; [| injection Hrun as <- <-; discriminate].
  apply findNonIntersectingPosition_found in Efind.
  destruct Efind as (basic & check & _ & _ & Ev & Hv).
  rewrite Ev, Hv in Hrun. cbn [negb] in Hrun.
  unfold afterCommit in Hrun.
  destruct (updatePeripheryAfterSegmentReplacement _ _ _ _) as [[] g3 | g3 | ];
    try discriminate.
  destruct (validateGraphIntegrity g3) as [integrityCheck g4 | g4 | ];
    try discriminate.
  destruct (negb (valid integrityCheck)).
  - destruct (updatePeriphery _) as [[] g5 | g5 | ]; try discriminate.
    injection Hrun as <- <-. discriminate.
  - injection Hrun as <- <-. discriminate.
Qed.

(** ** Failed attempts *)

(** X10.  Whatever the reason of the failure, an attempt that returns a
    failure leaves the vertex array, the edge array, the selection and
    the mode as it found them; unless it is a rollback, it also leaves
    the periphery and the identifier counter. *)
Theorem processSegmentSelection_failure_leaves_graph :
  forall (g g' : Graph) (r : Result),
    processSegmentSelection g = Ret r g' ->
    success r = false ->
    vertices g' = vertices g /\
    edges g' = edges g /\
    selectedVertices g' = selectedVertices g /\
    manualMode g' = manualMode g /\
    ((forall d, message r <> MsgRolledBack d) ->
     periphery g' = periphery g /\ maxVertexId g' = maxVertexId g).
Proof.
  intros g g' r Hrun Hfail.
  rewrite processSegmentSelection_unfold in Hrun.
  unfold processSegmentSelection_steps, afterCommit in Hrun.
  cbv zeta in Hrun.
  steps_cases Hrun; try discriminate; periphery_cases;
    injection Hrun as <- <-; try discriminate;
    try (repeat split; solve [reflexivity | assumption | auto]).
  apply Z.ltb_ge in Hb0.
  split; [cbn; apply pop_app_one |].
  split.
  { cbn.
    match goal with
    | |- JS.slice (_ ++ map ?f ?seg) _ _ = _ =>
        rewrite <- (JS_length_map f seg); apply slice_drop_appended;
        rewrite JS_length_map; lia
    end. }
  split; [cbn; exact Hsel |]. split; [reflexivity |].
  intro H. exfalso. eapply H. reflexivity.
Qed.

(** ** Methods that look at the vertices and the edges only *)

Lemma readsGraphOnly_ret {A : Type} (a : A) : @readsGraphOnly R A (ret a).
Proof. split; [apply reads_ret | intros; reflexivity]. Qed.

Lemma readsGraphOnly_vertices : @readsGraphOnly R _ (gets vertices).
Proof. split; [apply reads_gets | intros g1 g2 Hv _; exact Hv]. Qed.

Lemma readsGraphOnly_edges : @readsGraphOnly R _ (gets edges).
Proof. split; [apply reads_gets | intros g1 g2 _ He; exact He]. Qed.

Lemma readsGraphOnly_orThrow {A : Type} (o : option A) :
  @readsGraphOnly R A (orThrow o).
Proof.
  split; [apply reads_orThrow |]. intros. unfold orThrow.
  destruct o; reflexivity.
Qed.

Lemma readsGraphOnly_bind {A B : Type} (m : M A) (f : A -> M B) :
  readsGraphOnly m -> (forall a, readsGraphOnly (f a)) ->
  readsGraphOnly (bind m f).
Proof.
  intros [Hm Hm'] Hf. split.
  - apply reads_bind; [exact Hm |]. intro a. apply Hf.
  - intros g1 g2 Hv He. unfold bind.
    specialize (Hm' g1 g2 Hv He).
    pose proof (Hm g1) as H1. pose proof (Hm g2) as H2.
    destruct (m g1) as [a g1' | g1' | ], (m g2) as [b g2' | g2' | ];
      try contradiction; try exact I.
    simpl in Hm'. subst. apply Hf; assumption.
Qed.

Lemma readsGraphOnly_forOf {A B : Type} (xs : list A)
  (body : A -> M (option B)) :
  (forall a, readsGraphOnly (body a)) -> readsGraphOnly (forOf xs body).
Proof.
  intro Hb. induction xs as [| a xs IH]; cbn [forOf].
  - apply readsGraphOnly_ret.
  - apply readsGraphOnly_bind; [apply Hb |].
    intros [b |]; [apply readsGraphOnly_ret | exact IH].
Qed.

Lemma readsGraphOnly_forPairs {A B : Type} (xs : list A)
  (body : A -> A -> M (option B)) :
  (forall a b, readsGraphOnly (body a b)) -> readsGraphOnly (forPairs xs body).
Proof.
  intro Hb. induction xs as [| a xs IH]; cbn [forPairs].
  - apply readsGraphOnly_ret.
  - apply readsGraphOnly_bind; [apply readsGraphOnly_forOf; apply Hb |].
    intros [b |]; [apply readsGraphOnly_ret | exact IH].
Qed.

(** Goals [readsGraphOnly m] for [m] built from the combinators. *)
Ltac graph_only :=
  repeat first
    [ progress intros
    | assumption
    | apply readsGraphOnly_ret
    | apply readsGraphOnly_vertices
    | apply readsGraphOnly_edges
    | apply readsGraphOnly_orThrow
    | apply readsGraphOnly_bind
    | apply readsGraphOnly_forOf
    | apply readsGraphOnly_forPairs
    | match goal with
      | |- readsGraphOnly (if ?b then _ else _) => destruct b
      | |- readsGraphOnly (match ?o with Some _ => _ | None => _ end) =>
          destruct o
      | |- readsGraphOnly (let (_, _) := ?p in _) => destruct p
      | |- readsGraphOnly (match ?p with (_, _) => _ end) => destruct p
      end ].

Lemma readsGraphOnly_validateGraphIntegrity :
  readsGraphOnly validateGraphIntegrity.
Proof. unfold validateGraphIntegrity. graph_only. Qed.

Lemma readsGraphOnly_validateNewEdges (newVertexPos : Point)
  (segmentVertices : list Z) :
  readsGraphOnly (validateNewEdges newVertexPos segmentVertices).
Proof. unfold validateNewEdges. graph_only. Qed.

Lemma readsGraphOnly_isOutsideGraph (x y margin : R) :
  readsGraphOnly (isOutsideGraph x y margin).
Proof. unfold isOutsideGraph, getConvexHull. graph_only. Qed.

Lemma readsGraphOnly_validateBasicPosition (candidate : Point) :
  readsGraphOnly (validateBasicPosition candidate).
Proof.
  unfold validateBasicPosition.
  pose proof (readsGraphOnly_isOutsideGraph (px candidate) (py candidate) #40).
  graph_only.
Qed.

Lemma readsGraphOnly_attempts (centroid direction : Point)
  (segmentVertices : list Z) (remaining attempt : nat) :
  readsGraphOnly (attempts centroid direction segmentVertices remaining attempt).
Proof.
  revert attempt. induction remaining as [| n IH]; intro attempt;
    cbn [attempts].
  - apply readsGraphOnly_ret.
  - apply readsGraphOnly_bind; [apply readsGraphOnly_validateBasicPosition |].
    intro basicValidation.
    destruct (negb (valid basicValidation)); [apply IH |].
    apply readsGraphOnly_bind; [apply readsGraphOnly_validateNewEdges |].
    intro intersectionCheck.
    destruct (valid intersectionCheck); [apply readsGraphOnly_ret | apply IH].
Qed.

Lemma readsGraphOnly_findNonIntersectingPosition (segmentVertices : list Z) :
  readsGraphOnly (findNonIntersectingPosition segmentVertices).
Proof.
  unfold findNonIntersectingPosition.
  apply readsGraphOnly_bind; [unfold calculateCentroid; graph_only |].
  intro centroid.
  apply readsGraphOnly_bind; [unfold calculateGraphCenter; graph_only |].
  intro graphCenter. apply readsGraphOnly_attempts.
Qed.

(** X11.  The validations and the placement search look at the vertex array
    and the edge array only: on two states with the same vertices and
    the same edges they end alike, whatever the periphery, the
    selection, the segment list, the mode and the identifier counter
    are.  (The segment the search works on is its argument.) *)
Theorem validations_depend_on_vertices_and_edges :
  forall g1 g2 : Graph,
    vertices g1 = vertices g2 ->
    edges g1 = edges g2 ->
    sameAnswer (validateGraphIntegrity g1) (validateGraphIntegrity g2) /\
    (forall candidate,
       sameAnswer (validateBasicPosition candidate g1)
                  (validateBasicPosition candidate g2)) /\
    (forall newVertexPos segment,
       sameAnswer (validateNewEdges newVertexPos segment g1)
                  (validateNewEdges newVertexPos segment g2)) /\
    (forall segment,
       sameAnswer (findNonIntersectingPosition segment g1)
                  (findNonIntersectingPosition segment g2)).
Proof.
  intros g1 g2 Hv He. split; [| split; [| split]]; intros.
  - exact (proj2 readsGraphOnly_validateGraphIntegrity g1 g2 Hv He).
  - exact (proj2 (readsGraphOnly_validateBasicPosition candidate) g1 g2 Hv He).
  - exact (proj2 (readsGraphOnly_validateNewEdges newVertexPos segment)
             g1 g2 Hv He).
  - exact (proj2 (readsGraphOnly_findNonIntersectingPosition segment)
             g1 g2 Hv He).
Qed.

(** ** Successful attempts *)

Lemma sameAnswer_Ret {A : Type} (m : M A) (g1 g2 g1' : Graph) (a : A) :
  readsGraphOnly m ->
  vertices g1 = vertices g2 -> edges g1 = edges g2 ->
  m g1 = Ret a g1' -> m g2 = Ret a g2.
Proof.
  intros [Hr Hs] Hv He H. specialize (Hs g1 g2 Hv He). rewrite H in Hs.
  pose proof (Hr g2) as H2.
  destruct (m g2) as [b g2' | g2' | ]; try contradiction.
  simpl in Hs. subst. reflexivity.
Qed.

(** C1 (as the code has it).  When an insertion attempt reaches the
    commit (two selected vertices on the periphery, a segment of two or
    more vertices between them, a position found for it, the new vertex
    and its edges appended and the segment replaced on the periphery)
    and the integrity scan then detects a crossing, the attempt returns
    the failure "Operation rolled back" with the message of the scan
    (which names identifiers: it is the message of the scan of the
    model while the counter is in the range where [++] is the
    successor); the vertex list and the edge list are those before the
    attempt, and the periphery is the one [updatePeriphery] computes
    from those vertices (the hull of the visible ones, reoriented),
    whatever it was before. *)
Theorem processSegmentSelection_rollback :
  forall (g g3 g4 : Graph) (v1Idx v2Idx : Z) (segment : list Z)
         (newPosition : Point) (integrityCheck : Validation),
    selectedVertices g = [v1Idx; v2Idx] ->
    JS.indexOf (periphery g) v1Idx <> (-1)%Z ->
    JS.indexOf (periphery g) v2Idx <> (-1)%Z ->
    getPeripherySegment (JS.indexOf (periphery g) v1Idx)
                        (JS.indexOf (periphery g) v2Idx) g = Ret segment g ->
    (2 <= JS.length segment)%Z ->
    findNonIntersectingPosition segment g = Ret (Some newPosition) g ->
    updatePeripheryAfterSegmentReplacement
      (JS.indexOf (periphery g) v1Idx) (JS.indexOf (periphery g) v2Idx)
      (JS.length (vertices g))
      (committed (set_segmentVertices segment g) newPosition) = Ret tt g3 ->
    validateGraphIntegrity g3 = Ret integrityCheck g4 ->
    valid integrityCheck = false ->
    exists g' d,
      processSegmentSelection g = Ret (failure (MsgRolledBack d)) g' /\
      (JS.incrementable (maxVertexId g) -> d = vmessage integrityCheck) /\
      vertices g' = vertices g /\
      edges g' = edges g /\
      exists gu, updatePeriphery g = Ret tt gu /\ periphery g' = periphery gu.
Proof.
  intros g g3 g4 v1 v2 segment newPosition integrityCheck
    Hsel Hp1 Hp2 Hseg Hlen Hfind Hupd Hint Hvalid.
  set (g1 := set_segmentVertices segment g) in *.
  assert (findNonIntersectingPosition segment g1 = Ret (Some newPosition) g1)
    as Hfind1.
  { apply (sameAnswer_Ret _ g g1 g);
      [apply readsGraphOnly_findNonIntersectingPosition | reflexivity
      | reflexivity | exact Hfind]. }
  destruct (findNonIntersectingPosition_found _ _ _ _ Hfind1)
    as (basic & check & _ & _ & Hcheck & Hok).
  rewrite processSegmentSelection_unfold.
  unfold processSegmentSelection_steps. rewrite Hsel. cbv zeta.
  apply Z.eqb_neq in Hp1, Hp2. rewrite Hp1, Hp2. cbn [orb].
  rewrite Hseg.
  destruct (JS.length segment <? 2)%Z eqn:E; [apply Z.ltb_lt in E; lia |].
  fold g1. rewrite Hfind1, Hcheck, Hok. cbn [negb].
  unfold afterCommit. rewrite Hupd, Hint, Hvalid. cbn [negb].
  rewrite updatePeripheryAfterSegmentReplacement_eq in Hupd.
  cbv zeta in Hupd.
  destruct (clockwise _ _) as [p3 |]; [| discriminate Hupd].
  injection Hupd as <-.
  rewrite updatePeriphery_eq. cbv zeta.
  assert (vertices (popped (set_periphery p3 (committed g1 newPosition)))
          = vertices g) as Hv.
  { cbn. apply pop_app_one. }
  rewrite Hv.
  pose proof (updatePeriphery_hull g) as (p & Hp & _).
  rewrite updatePeriphery_eq in Hp. cbv zeta in Hp.
  destruct (clockwise (vertices g) (map fst (convexHull (vertices g))))
    as [p5 |] eqn:Hc5; [| discriminate Hp].
  eexists. exists (vmessage integrityCheck).
  split; [reflexivity |]. split; [intros _; reflexivity |].
  split; [exact Hv |]. split.
  - cbn.
    rewrite <- (JS_length_map (fun vIdx => (JS.length (vertices g), vIdx))
                  segment).
    apply slice_drop_appended. rewrite JS_length_map. lia.
  - rewrite updatePeriphery_eq. cbv zeta. rewrite Hc5.
    eexists. split; reflexivity.
Qed.

(** X12.  A successful attempt, in full.  Two vertices were selected,
    both on the periphery; [segment] is the periphery segment between
    them and [newPosition] the position the search returns for it.  One
    vertex has been appended, visible, at that position, with the
    counter as it now stands as identifier, which is the successor of
    the counter before while that one is in the range where [++] is the
    successor; one edge from the new vertex to each vertex of the
    segment has been appended, in the order of the segment; the segment
    has left the periphery and the new vertex has entered it; the
    selection and the segment list are empty; and the graph left passes
    the integrity scan. *)
Theorem processSegmentSelection_success_effect :
  forall (g g' : Graph) (r : Result),
    processSegmentSelection g = Ret r g' ->
    success r = true ->
    exists (v1Idx v2Idx : Z) (segment : list Z) (newPosition : Point)
           (check : Validation),
      selectedVertices g = [v1Idx; v2Idx] /\
      getPeripherySegment (JS.indexOf (periphery g) v1Idx)
                          (JS.indexOf (periphery g) v2Idx) g = Ret segment g /\
      findNonIntersectingPosition segment g = Ret (Some newPosition) g /\
      vertices g' =
        vertices g ++
          [mkVertex (px newPosition) (py newPosition) true
                    (maxVertexId g')] /\
      edges g' =
        edges g ++ map (fun vIdx => (JS.length (vertices g), vIdx)) segment /\
      Permutation (segment ++ periphery g')
                  (JS.length (vertices g) :: periphery g) /\
      selectedVertices g' = [] /\
      segmentVertices g' = [] /\
      manualMode g' = manualMode g /\
      (JS.incrementable (maxVertexId g) ->
       maxVertexId g' = (maxVertexId g + 1)%Z) /\
      validateGraphIntegrity g' = Ret check g' /\
      valid check = true.
Proof.
  intros g g' r Hrun Hok.
  rewrite processSegmentSelection_unfold in Hrun.
  unfold processSegmentSelection_steps in Hrun. cbv zeta in Hrun.
  destruct (selectedVertices g) as [| v1 [| v2 [| v3 sel]]] eqn:Hsel;
    try (injection Hrun as <- <-; discriminate).
  destruct (_ || _) eqn:Hpos; [injection Hrun as <- <-; discriminate |].
  apply orb_false_elim in Hpos. destruct Hpos as [Hp1 Hp2].
  apply Z.eqb_neq in Hp1, Hp2. apply indexOf_range in Hp1, Hp2.
  destruct (getPeripherySegment _ _ g) as [segment g0 | g0 | ] eqn:Hseg;
    try discriminate.
  assert (g0 = g) as ->.
  { destruct (getPeripherySegment_outcome (JS.indexOf (periphery g) v1)
                (JS.indexOf (periphery g) v2) g) as [E | [s E]];
      rewrite E in Hseg; [discriminate | injection Hseg as _ <-; reflexivity]. }
  destruct (JS.length segment <? 2)%Z;
    [injection Hrun as <- <-; discriminate |].
  destruct (findNonIntersectingPosition _ _) as [[newPosition |] g1 | g1 | ]
    eqn:Efind; try discriminate; [| injection Hrun as <- <-; discriminate].
  destruct (validateNewEdges _ _ _) as [finalValidation g2 | g2 | ];
    try discriminate.
  destruct (negb (valid finalValidation));
    [injection Hrun as <- <-; discriminate |].
  unfold afterCommit in Hrun.
  rewrite updatePeripheryAfterSegmentReplacement_eq in Hrun. cbv zeta in Hrun.
  destruct (clockwise _ _) as [p3 |] eqn:Hc; [| discriminate].
  destruct (validateGraphIntegrity _) as [check g4 | g4 | ] eqn:Hint;
    try discriminate.
  destruct (valid check) eqn:Hvalid; cbn [negb] in Hrun.
  2:{ destruct (updatePeriphery _) as [[] g5 | g5 | ]; try discriminate.
      injection Hrun as <- <-. discriminate. }
  injection Hrun as <- <-.
  exists v1, v2, segment, newPosition, check.
  split; [reflexivity |]. split; [exact Hseg |]. split.
  { apply (sameAnswer_Ret _ (set_segmentVertices segment g) g g1);
      [apply readsGraphOnly_findNonIntersectingPosition | reflexivity
      | reflexivity | exact Efind]. }
  split; [reflexivity |]. split; [reflexivity |]. split.
  { cbn [periphery cleared set_segmentVertices set_selectedVertices
         set_periphery].
    cbn [periphery committed set_segmentVertices] in Hc.
    rewrite getPeripherySegment_between in Hseg by assumption.
    injection Hseg as <-.
    eapply Permutation_trans;
      [| apply (replacement_Permutation (periphery g) _ _ _ Hp1 Hp2)].
    apply Permutation_app_head. symmetry.
    apply (clockwise_Permutation _ _ _ Hc). }
  split; [reflexivity |]. split; [reflexivity |]. split; [reflexivity |].
  split; [intros _; reflexivity |]. split; [| exact Hvalid].
  eapply sameAnswer_Ret;
    [apply readsGraphOnly_validateGraphIntegrity | | | exact Hint];
    reflexivity.
Qed.

(** ** Selections that are turned down *)

Lemma indexOf_from_not_found (l : list Z) (v i : Z) :
  JS.indexOf_from l v i = (-1)%Z -> (0 <= i)%Z -> ~ In v l.
Proof.
  revert i. induction l as [| a l IH]; intros i H Hi; [intros [] |].
  cbn [JS.indexOf_from] in H. destruct (a =? v)%Z eqn:E; [lia |].
  apply Z.eqb_neq in E. intros [Ha | Hin]; [contradiction |].
  exact (IH (i + 1)%Z H ltac:(lia) Hin).
Qed.

Lemma indexOf_from_found (l : list Z) (v i : Z) :
  In v l -> (0 <= i)%Z ->
  (i <= JS.indexOf_from l v i)%Z /\
  nth_error l (Z.to_nat (JS.indexOf_from l v i - i)) = Some v.
Proof.
  revert i. induction l as [| a l IH]; intros i Hin Hi; [destruct Hin |].
  cbn [JS.indexOf_from]. destruct (a =? v)%Z eqn:E.
  - apply Z.eqb_eq in E. subst a. rewrite Z.sub_diag. split; [lia | reflexivity].
  - apply Z.eqb_neq in E. destruct Hin as [Ha | Hin]; [contradiction |].
    destruct (IH (i + 1)%Z Hin ltac:(lia)) as [Hle Hn]. split; [lia |].
    replace (Z.to_nat (JS.indexOf_from l v (i + 1) - i))
      with (S (Z.to_nat (JS.indexOf_from l v (i + 1) - (i + 1)))) by lia.
    exact Hn.
Qed.

(** [indexOf] finds exactly the values the array holds, and at the
    position it returns the array holds the value. *)
Lemma indexOf_In (l : list Z) (v : Z) :
  JS.indexOf l v <> (-1)%Z <-> In v l.
Proof.
  split.
  - intro H. destruct (in_dec Z.eq_dec v l) as [Hin | Hn]; [exact Hin |].
    exfalso. apply H. unfold JS.indexOf.
    assert (forall i, JS.indexOf_from l v i = (-1)%Z) as Hall.
    { clear H. induction l as [| a l IH]; intro i; [reflexivity |].
      cbn [JS.indexOf_from]. destruct (a =? v)%Z eqn:E.
      - apply Z.eqb_eq in E. subst a. exfalso. apply Hn. left. reflexivity.
      - apply IH. intro Hin. apply Hn. right. exact Hin. }
    apply Hall.
  - intros Hin H. exact (indexOf_from_not_found l v 0 H ltac:(lia) Hin).
Qed.

Lemma indexOf_get (l : list Z) (v : Z) :
  In v l -> JS.get l (JS.indexOf l v) = Some v.
Proof.
  intro Hin. destruct (indexOf_from_found l v 0 Hin ltac:(lia)) as [H0 Hn].
  unfold JS.get, JS.indexOf in *.
  destruct (JS.indexOf_from l v 0 <? 0)%Z eqn:E; [apply Z.ltb_lt in E; lia |].
  rewrite Z.sub_0_r in Hn. exact Hn.
Qed.

(** X13.  The selections [processSegmentSelection] turns down before any
    search, and what it leaves: a selection that is not of two vertices,
    or holds a vertex that is not on the periphery, leaves the state
    untouched; the same periphery vertex selected twice leaves the
    segment list holding that vertex alone. *)
Theorem processSegmentSelection_rejects_selection :
  forall g : Graph,
    (List.length (selectedVertices g) <> 2%nat ->
     processSegmentSelection g = Ret (failure MsgSelectTwo) g) /\
    (forall v1Idx v2Idx,
       selectedVertices g = [v1Idx; v2Idx] ->
       ~ In v1Idx (periphery g) \/ ~ In v2Idx (periphery g) ->
       processSegmentSelection g = Ret (failure MsgNotInPeriphery) g) /\
    (forall vIdx,
       selectedVertices g = [vIdx; vIdx] ->
       In vIdx (periphery g) ->
       processSegmentSelection g =
         Ret (failure MsgSegmentTooSmall) (set_segmentVertices [vIdx] g)).
Proof.
  intro g. rewrite processSegmentSelection_unfold.
  unfold processSegmentSelection_steps. cbv zeta. split; [| split].
  - intro Hlen.
    destruct (selectedVertices g) as [| v1 [| v2 [| v3 sel]]];
      try reflexivity. exfalso. apply Hlen. reflexivity.
  - intros v1 v2 -> Hnot.
    assert ((JS.indexOf (periphery g) v1 =? -1)%Z ||
            (JS.indexOf (periphery g) v2 =? -1)%Z = true) as ->;
      [| reflexivity].
    apply orb_true_iff.
    destruct Hnot as [H | H]; [left | right]; apply Z.eqb_eq;
      match goal with
      | |- ?i = _ => destruct (Z.eq_dec i (-1)) as [E | E]
      end;
      try exact E; apply indexOf_In in E; contradiction.
  - intros v -> Hin.
    pose proof Hin as Hidx. apply indexOf_In in Hidx.
    pose proof (indexOf_range _ _ Hidx) as Hr.
    apply Z.eqb_neq in Hidx. rewrite Hidx. cbn [orb].
    rewrite getPeripherySegment_between by assumption.
    rewrite Z.leb_refl.
    assert (JS.slice (periphery g) (JS.indexOf (periphery g) v)
              (JS.indexOf (periphery g) v + 1) = [v]) as ->.
    { rewrite slice_firstn_skipn by lia.
      pose proof (indexOf_get _ _ Hin) as Hg. unfold JS.get in Hg.
      destruct (_ <? 0)%Z; [discriminate |].
      rewrite (skipn_cons_nth _ _ _ Hg).
      replace (Z.to_nat (JS.indexOf (periphery g) v + 1
                         - JS.indexOf (periphery g) v)) with 1%nat by lia.
      reflexivity. }
    reflexivity.
Qed.

(** ** The commands of the editor *)

Lemma set_segmentVertices_same (g : Graph) :
  set_segmentVertices (segmentVertices g) g = g.
Proof. destruct g; reflexivity. Qed.

(** The refresh of the segment display writes the segment list, and
    nothing else, whether it returns or throws. *)
Lemma updateSegmentVisualization_state (g : Graph) :
  exists seg,
    stateAfter (updateSegmentVisualization g) = Some (set_segmentVertices seg g).
Proof.
  unfold updateSegmentVisualization. unfold bind at 1. unfold gets at 1.
  destruct (selectedVertices g) as [| v1 [| v2 [| v3 sel]]];
    try (eexists; reflexivity).
  unfold bind at 1. unfold gets at 1. cbv zeta.
  destruct (JS.indexOf (periphery g) v1 =? -1)%Z eqn:E1;
    [exists (segmentVertices g); rewrite set_segmentVertices_same; reflexivity |].
  destruct (JS.indexOf (periphery g) v2 =? -1)%Z eqn:E2;
    [exists (segmentVertices g); rewrite set_segmentVertices_same; reflexivity |].
  cbn [negb andb].
  apply Z.eqb_neq in E1, E2. apply indexOf_range in E1, E2.
  destruct (getPeripherySegment_positions _ _ g E1 E2) as (segment & Hseg & _).
  unfold bind at 1. rewrite Hseg.
  unfold bind at 1. unfold modify at 1.
  exists segment.
  set (g1 := set_segmentVertices segment g).
  unfold bind at 1. unfold gets at 1.
  unfold bind at 1. unfold orThrow at 1.
  destruct (readIds (vertices g1) [v1; v2]); [| reflexivity].
  unfold bind at 1. unfold gets at 1.
  unfold bind at 1. unfold orThrow at 1.
  destruct (readIds (vertices g1) segment); [| reflexivity].
  unfold bind at 1.
  pose proof (reads_findNonIntersectingPosition segment g1) as Hr.
  destruct (findNonIntersectingPosition segment g1) as [a g2 | g2 | ];
    try contradiction; subst g2; reflexivity.
Qed.

Lemma updateUI_state (g : Graph) :
  exists seg, stateAfter (updateUI g) = Some (set_segmentVertices seg g).
Proof.
  unfold updateUI, bind.
  pose proof (reads_validateGraphIntegrity g) as Hr.
  destruct (validateGraphIntegrity g) as [a g1 | g1 | ]; try contradiction;
    subst g1.
  - apply updateSegmentVisualization_state.
  - exists (segmentVertices g). rewrite set_segmentVertices_same. reflexivity.
Qed.

(** With nothing selected and an empty segment list, the refresh
    leaves the state as it is. *)
Lemma updateUI_idle (g : Graph) :
  selectedVertices g = [] -> segmentVertices g = [] ->
  stateAfter (updateUI g) = Some g.
Proof.
  intros Hsel Hseg. unfold updateUI, bind.
  pose proof (reads_validateGraphIntegrity g) as Hr.
  destruct (validateGraphIntegrity g) as [a g1 | g1 | ]; try contradiction;
    subst g1; [| reflexivity].
  unfold updateSegmentVisualization, bind, gets, modify. rewrite Hsel.
  cbn [stateAfter]. rewrite <- Hseg, set_segmentVertices_same. reflexivity.
Qed.

(** The state a computation leaves after another one has run. *)
Lemma stateAfter_bind {A B : Type} (m : M A) (f : A -> M B) (g g1 : Graph)
  (a : A) :
  m g = Ret a g1 -> stateAfter (bind m f g) = stateAfter (f a g1).
Proof. intro H. unfold bind. rewrite H. reflexivity. Qed.

(** X14.  "Start Triangle" leaves the graph [new Graph()] builds, whatever the
    state it is issued in: the three vertices with identifiers 1 to 3,
    the three edges, the periphery [0; 1; 2], nothing selected, manual
    mode off, the counter at 3. *)
Theorem startTriangle_resets :
  forall g : Graph, startTriangle g = Ret tt newGraph.
Proof. intro g. reflexivity. Qed.

(** X15.  "Clear Selection" empties the selection and the segment list and
    leaves every other field as it was, whether the refresh that
    follows returns or throws. *)
Theorem clearSelection_clears :
  forall g : Graph, stateAfter (clearSelection g) = Some (cleared g).
Proof.
  intro g. unfold clearSelection.
  rewrite (stateAfter_bind _ _ g (set_selectedVertices [] g) tt)
    by reflexivity.
  rewrite (stateAfter_bind _ _ _ (cleared g) tt) by reflexivity.
  apply updateUI_idle; reflexivity.
Qed.

(** X16.  The manual-mode switch.  Leaving manual mode empties the selection
    and the segment list; entering it keeps the selection, and only the
    refresh may rewrite the segment list.  No other field changes. *)
Theorem toggleManualMode_effect :
  forall g : Graph,
    (manualMode g = true ->
     stateAfter (toggleManualMode g) =
       Some (set_manualMode false (cleared g))) /\
    (manualMode g = false ->
     exists seg,
       stateAfter (toggleManualMode g) =
         Some (set_segmentVertices seg (set_manualMode true g))).
Proof.
  intro g. unfold toggleManualMode. split; intro Hm.
  - rewrite (stateAfter_bind _ _ g (set_manualMode false g) tt)
      by (unfold modify; rewrite Hm; reflexivity).
    rewrite (stateAfter_bind _ _ _ (set_manualMode false g) false)
      by reflexivity.
    cbn [negb].
    rewrite (stateAfter_bind _ _ _ (set_manualMode false (cleared g)) tt)
      by reflexivity.
    apply updateUI_idle; reflexivity.
  - rewrite (stateAfter_bind _ _ g (set_manualMode true g) tt)
      by (unfold modify; rewrite Hm; reflexivity).
    rewrite (stateAfter_bind _ _ _ (set_manualMode true g) true)
      by reflexivity.
    cbn [negb].
    rewrite (stateAfter_bind _ _ _ (set_manualMode true g) tt)
      by reflexivity.
    apply updateUI_state.
Qed.

(** X17.  "Go to vertex".  A number below 1 changes nothing.  Otherwise every
    vertex keeps its position and its identifier and is visible exactly
    when its identifier is at most the number; the edges, the
    periphery, the selection, the mode and the counter stay as they
    were (vertices that are hidden stay on the periphery), and only the
    refresh may rewrite the segment list. *)
Theorem goToVertex_shows_up_to :
  forall (vertexNum : Z) (g : Graph),
    ((vertexNum < 1)%Z -> goToVertex vertexNum g = Ret tt g) /\
    ((1 <= vertexNum)%Z ->
     exists seg,
       stateAfter (goToVertex vertexNum g) =
         Some (set_segmentVertices seg
                 (set_vertices
                    (map (fun v => mkVertex (vx v) (vy v)
                                     (vid v <=? vertexNum)%Z (vid v))
                         (vertices g)) g))).
Proof.
  intros n g. unfold goToVertex. split; intro Hn.
  - apply Z.ltb_lt in Hn. rewrite Hn. reflexivity.
  - apply Z.ltb_ge in Hn. rewrite Hn.
    erewrite stateAfter_bind by reflexivity.
    apply updateUI_state.
Qed.

(** X18.  [addRandomSegment], whatever the two random draws.  On a periphery
    of fewer than two entries it answers "Need at least 2 periphery
    vertices" and touches nothing.  Otherwise, when it returns, the
    selection and the segment list are empty, whether the insertion it
    attempted succeeded or failed. *)
Theorem addRandomSegment_clears_selection :
  forall (r1 r2 : Z) (g g' : Graph) (result : Result),
    addRandomSegment r1 r2 g = Ret result g' ->
    ((JS.length (periphery g) < 2)%Z ->
     result = failure MsgNeedTwoPeriphery /\ g' = g) /\
    ((2 <= JS.length (periphery g))%Z ->
     selectedVertices g' = [] /\ segmentVertices g' = []).
Proof.
  intros r1 r2 g g' result Hrun.
  unfold addRandomSegment in Hrun. unfold bind at 1 in Hrun.
  unfold gets at 1 in Hrun.
  destruct (JS.length (periphery g) <? 2)%Z eqn:Hlen.
  - apply Z.ltb_lt in Hlen. injection Hrun as <- <-.
    split; [auto | lia].
  - apply Z.ltb_ge in Hlen. split; [lia |]. intros _.
    cbv zeta in Hrun.
    destruct (JS.rem _ _) as [endIdx |]; [| discriminate].
    destruct (JS.get (periphery g) r2) as [a |]; [| discriminate].
    destruct (JS.get (periphery g) endIdx) as [b |]; [| discriminate].
    unfold bind at 1 in Hrun. unfold modify at 1 in Hrun.
    unfold bind at 1 in Hrun.
    destruct (processSegmentSelection _) as [res g1 | g1 | ]; try discriminate.
    injection Hrun as <- <-. split; reflexivity.
Qed.

(** ** The states of the editor hold together *)

Lemma isVertex_get (g : Graph) (i : Z) :
  isVertex g i -> exists v, JS.get (vertices g) i = Some v.
Proof. apply JS_get_Some. Qed.

Lemma firstn_In {A : Type} (l : list A) (k : nat) (x : A) :
  In x (firstn k l) -> In x l.
Proof.
  revert k. induction l as [| a l IH]; intros [| k] H; try destruct H.
  - left. assumption.
  - right. eapply IH. eassumption.
Qed.

Lemma skipn_In {A : Type} (l : list A) (k : nat) (x : A) :
  In x (skipn k l) -> In x l.
Proof.
  revert k. induction l as [| a l IH]; intros [| k] H; try assumption.
  right. eapply IH. eassumption.
Qed.

Lemma slice_In {A : Type} (l : list A) (s e : Z) (x : A) :
  In x (JS.slice l s e) -> In x l.
Proof. unfold JS.slice. intro H. eapply skipn_In, firstn_In, H. Qed.

(** The segment between two positions holds entries of the periphery. *)
Lemma getPeripherySegment_In (startIdx endIdx : Z) (g : Graph)
  (segment : list Z) :
  (0 <= startIdx < JS.length (periphery g))%Z ->
  (0 <= endIdx < JS.length (periphery g))%Z ->
  getPeripherySegment startIdx endIdx g = Ret segment g ->
  forall i, In i segment -> In i (periphery g).
Proof.
  intros Hs He H i Hi. rewrite getPeripherySegment_between in H by assumption.
  injection H as <-.
  destruct (startIdx <=? endIdx)%Z; [eapply slice_In, Hi |].
  apply in_app_or in Hi. destruct Hi as [Hi | Hi]; eapply slice_In, Hi.
Qed.

(** The orientation pass returns on entries that name vertices. *)
Lemma clockwise_defined (vs : list Vertex) (p : list Z) :
  (forall i, In i p -> JS.get vs i <> None) ->
  exists p', clockwise vs p = Some p' /\ (p' = p \/ p' = rev p).
Proof.
  intro Hdef. destruct (clockwise vs p) as [p' |] eqn:Hc.
  - exists p'. split; [reflexivity |]. eapply clockwise_cases, Hc.
  - exfalso. unfold clockwise in Hc.
    destruct (JS.length p <? 3)%Z; [discriminate |].
    destruct (signedArea vs p) eqn:Ha; [discriminate |].
    apply signedArea_None in Ha. destruct Ha as (i & Hi & Hn).
    exact (Hdef i Hi Hn).
Qed.

Lemma sumSegment_defined (vs : list Vertex) (segment : list Z) :
  (forall i, In i segment -> JS.get vs i <> None) ->
  forall cx cy, sumSegment vs segment cx cy <> None.
Proof.
  induction segment as [| i segment IH]; intros Hdef cx cy; cbn [sumSegment];
    [discriminate |].
  destruct (JS.get vs i) as [v |] eqn:Ei.
  - apply IH. intros k Hk. apply Hdef. right. exact Hk.
  - exfalso. apply (Hdef i); [left; reflexivity | exact Ei].
Qed.

Lemma readIds_defined (vs : list Vertex) (idxs : list Z) :
  (forall i, In i idxs -> JS.get vs i <> None) ->
  readIds vs idxs <> None.
Proof.
  induction idxs as [| i idxs IH]; intro Hdef; cbn [readIds]; [discriminate |].
  destruct (JS.get vs i) as [v |] eqn:Ei.
  - specialize (IH (fun k Hk => Hdef k (or_intror Hk))).
    destruct (readIds vs idxs); [discriminate | contradiction].
  - exfalso. apply (Hdef i); [left; reflexivity | exact Ei].
Qed.

Lemma isVertex_defined (g : Graph) (i : Z) :
  isVertex g i -> JS.get (vertices g) i <> None.
Proof. intro H. destruct (isVertex_get g i H) as [v ->]. discriminate. Qed.

Lemma attempts_returns (centroid direction : Point) (segment : list Z)
  (g : Graph) :
  edgesInRange g ->
  (forall i, In i segment -> isVertex g i) ->
  forall remaining attempt,
  exists r, attempts centroid direction segment remaining attempt g = Ret r g.
Proof.
  intros Hin Hseg.
  induction remaining as [| n IH]; intro attempt; cbn [attempts].
  - eexists. reflexivity.
  - unfold bind at 1.
    destruct (validateBasicPosition_order
                (candidateAt centroid direction attempt) g Hin)
      as (outside & _ & ->).
    match goal with
    | |- context [negb (valid ?v)] => destruct (negb (valid v))
    end; [apply IH |].
    unfold bind at 1.
    destruct (validateNewEdges_edges
                (candidateAt centroid direction attempt) segment g Hin Hseg)
      as (check & -> & _).
    destruct (valid check); [eexists; reflexivity | apply IH].
Qed.

(** On edges and segment entries that are in range, the search
    returns. *)
Lemma findNonIntersectingPosition_returns (segment : list Z) (g : Graph) :
  edgesInRange g ->
  (forall i, In i segment -> isVertex g i) ->
  exists r, findNonIntersectingPosition segment g = Ret r g.
Proof.
  intros Hin Hseg.
  unfold findNonIntersectingPosition, calculateCentroid, calculateGraphCenter.
  unfold bind at 1. unfold bind at 1. unfold gets at 1.
  unfold bind at 1. unfold orThrow at 1.
  destruct (sumSegment (vertices g) segment #0 #0) as [c |] eqn:Hc.
  2:{ exfalso. revert Hc. apply sumSegment_defined.
      intros i Hi. apply isVertex_defined, Hseg, Hi. }
  unfold ret at 1. unfold bind at 1. unfold bind at 1. unfold gets at 1.
  unfold ret at 1. cbv zeta.
  apply attempts_returns; assumption.
Qed.

Lemma NoDup_snoc {A : Type} (l : list A) (a : A) :
  NoDup l -> ~ In a l -> NoDup (l ++ [a]).
Proof.
  intros Hnd Hn. apply NoDup_rev in Hnd.
  rewrite <- (rev_involutive (l ++ [a])). apply NoDup_rev.
  rewrite rev_app_distr. cbn [rev app]. constructor; [| exact Hnd].
  intro H. apply Hn. apply in_rev. exact H.
Qed.

Lemma isVertex_app (g g' : Graph) (i : Z) (new : list Vertex) :
  vertices g' = vertices g ++ new -> isVertex g i -> isVertex g' i.
Proof.
  unfold isVertex, JS.length. intros -> H. rewrite length_app. lia.
Qed.

(** Soundness looks at the vertices, the edges, the periphery and the
    counter. *)
Lemma sound_fields (g g' : Graph) :
  vertices g' = vertices g -> edges g' = edges g ->
  periphery g' = periphery g -> maxVertexId g' = maxVertexId g ->
  sound g -> sound g'.
Proof.
  unfold sound, edgesInRange, peripheryInRange, isVertex.
  intros -> -> -> ->. exact (fun H => H).
Qed.

(** On a sound state an insertion attempt returns, and the state it
    leaves is sound; it leaves the mode alone, and the selection as it
    was or empty. *)
Lemma processSegmentSelection_sound (g : Graph) :
  sound g ->
  exists r g',
    processSegmentSelection g = Ret r g' /\
    sound g' /\
    manualMode g' = manualMode g /\
    (selectedVertices g' = selectedVertices g \/ selectedVertices g' = []).
Proof.
  intro Hsound. pose proof Hsound as (He & Hp & Hnd & Hid).
  rewrite processSegmentSelection_unfold.
  unfold processSegmentSelection_steps. cbv zeta.
  destruct (selectedVertices g) as [| v1 [| v2 [| v3 sel]]] eqn:Hsel;
    try (do 2 eexists; split; [reflexivity |]; auto; fail).
  destruct (_ || _) eqn:Hpos;
    [do 2 eexists; split; [reflexivity |]; auto |].
  apply orb_false_elim in Hpos. destruct Hpos as [Hp1 Hp2].
  apply Z.eqb_neq in Hp1, Hp2. apply indexOf_range in Hp1, Hp2.
  destruct (getPeripherySegment_positions _ _ g Hp1 Hp2)
    as (segment & Hseg & _).
  rewrite Hseg.
  assert (forall i, In i segment -> isVertex g i) as Hsegin.
  { intros i Hi. apply Hp.
    exact (getPeripherySegment_In _ _ g segment Hp1 Hp2 Hseg i Hi). }
  set (g1 := set_segmentVertices segment g).
  assert (sound g1) as Hsound1 by (apply (sound_fields g); auto).
  destruct (JS.length segment <? 2)%Z eqn:Hlen;
    [do 2 eexists; split; [reflexivity |]; auto |].
  apply Z.ltb_ge in Hlen.
  destruct (findNonIntersectingPosition_returns segment g1 He Hsegin)
    as [found Hfind].
  rewrite Hfind. destruct found as [newPosition |];
    [| do 2 eexists; split; [reflexivity |]; auto].
  destruct (validateNewEdges_edges newPosition segment g1 He Hsegin)
    as (finalValidation & Hfinal & _).
  rewrite Hfinal.
  destruct (negb (valid finalValidation));
    [do 2 eexists; split; [reflexivity |]; auto |].
  unfold afterCommit.
  rewrite updatePeripheryAfterSegmentReplacement_eq. cbv zeta.
  set (g2 := committed g1 newPosition).
  assert (vertices g2 =
            vertices g ++ [mkVertex (px newPosition) (py newPosition) true
                             (maxVertexId g + 1)%Z]) as Hv2 by reflexivity.
  assert (isVertex g2 (JS.length (vertices g))) as Hnew.
  { unfold isVertex. rewrite Hv2. unfold JS.length. rewrite length_app.
    simpl. lia. }
  set (q := if (_ <=? _)%Z then _ else _).
  assert (forall i, In i q -> isVertex g2 i) as Hq.
  { intros i Hi. unfold q in Hi.
    assert (In i (periphery g) \/ i = JS.length (vertices g)) as [H | ->];
      [| apply (isVertex_app g g2 _ _ Hv2), Hp, H | exact Hnew].
    destruct (_ <=? _)%Z; repeat (apply in_app_or in Hi; destruct Hi as [Hi | Hi]);
      try (left; eapply slice_In, Hi);
      destruct Hi as [<- | []]; right; reflexivity. }
  destruct (clockwise_defined (vertices g2) q) as (p3 & Hc & Hp3).
  { intros i Hi. apply isVertex_defined, Hq, Hi. }
  rewrite Hc.
  set (g3 := set_periphery p3 g2).
  assert (edgesInRange g3) as He3.
  { intros e Hin. change (edges g3) with (edges g2) in Hin.
    unfold g2, committed in Hin. cbn [edges] in Hin.
    apply in_app_or in Hin. destruct Hin as [Hin | Hin].
    - destruct (He e Hin) as [Ha Hb].
      split; apply (isVertex_app g g3 _ _ Hv2); assumption.
    - apply in_map_iff in Hin. destruct Hin as (vIdx & <- & Hin).
      split; [exact Hnew |].
      apply (isVertex_app g g3 _ _ Hv2), Hsegin, Hin. }
  destruct (validateGraphIntegrity_pairs g3 He3) as (check & Hcheck & _).
  rewrite Hcheck. destruct (negb (valid check)).
  - destruct (updatePeriphery_hull (popped g3)) as (p5 & Hu & _ & _ & Hin5).
    rewrite Hu. do 2 eexists. split; [reflexivity |].
    assert (vertices (popped g3) = vertices g) as Hvp
      by (cbn; apply pop_app_one).
    assert (edges (popped g3) = edges g) as Hep.
    { cbn.
      rewrite <- (JS_length_map (fun vIdx => (JS.length (vertices g), vIdx))
                    segment).
      apply slice_drop_appended. rewrite JS_length_map. lia. }
    split; [| split; [reflexivity | left; exact Hsel]].
    split; [| split; [| split]].
    + intros e Hin. cbn [edges set_periphery] in Hin. rewrite Hep in Hin.
      unfold isVertex. cbn [vertices set_periphery]. rewrite Hvp.
      exact (He e Hin).
    + intros i Hi. cbn [periphery set_periphery] in Hi.
      destruct (Hin5 i Hi) as (v & Hv & _). rewrite Hvp in Hv.
      unfold isVertex. cbn [vertices set_periphery]. rewrite Hvp.
      eapply JS_get_range, Hv.
    + cbn [vertices set_periphery]. rewrite Hvp. exact Hnd.
    + intros v Hv. cbn [vertices set_periphery] in Hv. rewrite Hvp in Hv.
      specialize (Hid v Hv). cbn. lia.
  - do 2 eexists. split; [reflexivity |].
    split; [| split; [reflexivity | right; reflexivity]].
    split; [| split; [| split]].
    + exact He3.
    + intros i Hi. cbn [periphery cleared set_segmentVertices
                        set_selectedVertices g3 set_periphery] in Hi.
      apply Hq. destruct Hp3 as [-> | ->]; [exact Hi | apply in_rev, Hi].
    + change (vertices (cleared g3)) with (vertices g2). rewrite Hv2.
      rewrite map_app. cbn [map vid].
      apply NoDup_snoc; [exact Hnd |].
      intro Hin. apply in_map_iff in Hin. destruct Hin as (v & Hv & Hin).
      specialize (Hid v Hin). lia.
    + intros v Hv. change (vertices (cleared g3)) with (vertices g2) in Hv.
      rewrite Hv2 in Hv. apply in_app_or in Hv.
      change (maxVertexId (cleared g3)) with (maxVertexId g + 1)%Z.
      destruct Hv as [Hv | [<- | []]]; [specialize (Hid v Hv); lia |].
      cbn. lia.
Qed.

Lemma bind_Ret {A B : Type} (m : M A) (f : A -> M B) (g g1 : Graph) (a : A) :
  m g = Ret a g1 -> bind m f g = f a g1.
Proof. intro H. unfold bind. rewrite H. reflexivity. Qed.

Lemma includes_In (l : list Z) (v : Z) : JS.includes l v = true <-> In v l.
Proof.
  unfold JS.includes. rewrite existsb_exists. split.
  - intros (x & Hx & E). apply Z.eqb_eq in E. subst. exact Hx.
  - intro H. exists v. split; [exact H | apply Z.eqb_refl].
Qed.

(** On a sound state the refresh of the segment display returns. *)
Lemma updateSegmentVisualization_returns (g : Graph) :
  edgesInRange g -> peripheryInRange g ->
  exists seg,
    updateSegmentVisualization g = Ret tt (set_segmentVertices seg g).
Proof.
  intros He Hp.
  unfold updateSegmentVisualization. unfold bind at 1. unfold gets at 1.
  destruct (selectedVertices g) as [| v1 [| v2 [| v3 sel]]];
    try (eexists; reflexivity).
  unfold bind at 1. unfold gets at 1. cbv zeta.
  destruct (JS.indexOf (periphery g) v1 =? -1)%Z eqn:E1;
    [exists (segmentVertices g); rewrite set_segmentVertices_same; reflexivity |].
  destruct (JS.indexOf (periphery g) v2 =? -1)%Z eqn:E2;
    [exists (segmentVertices g); rewrite set_segmentVertices_same; reflexivity |].
  cbn [negb andb].
  apply Z.eqb_neq in E1, E2.
  pose proof (proj1 (indexOf_In _ _) E1) as Hin1.
  pose proof (proj1 (indexOf_In _ _) E2) as Hin2.
  apply indexOf_range in E1, E2.
  destruct (getPeripherySegment_positions _ _ g E1 E2) as (segment & Hseg & _).
  rewrite (bind_Ret _ _ _ _ _ Hseg).
  unfold bind at 1. unfold modify at 1.
  exists segment.
  set (g1 := set_segmentVertices segment g).
  assert (forall i, In i segment -> isVertex g1 i) as Hsegin.
  { intros i Hi. apply Hp.
    exact (getPeripherySegment_In _ _ g segment E1 E2 Hseg i Hi). }
  unfold bind at 1. unfold gets at 1.
  unfold bind at 1. unfold orThrow at 1.
  destruct (readIds (vertices g1) [v1; v2]) eqn:Hr1.
  2:{ exfalso. revert Hr1. apply readIds_defined.
      intros i [<- | [<- | []]]; apply (isVertex_defined g), Hp; assumption. }
  unfold bind at 1. unfold gets at 1.
  unfold bind at 1. unfold orThrow at 1.
  destruct (readIds (vertices g1) segment) eqn:Hr2.
  2:{ exfalso. revert Hr2. apply readIds_defined.
      intros i Hi. apply isVertex_defined, Hsegin, Hi. }
  destruct (findNonIntersectingPosition_returns segment g1 He Hsegin)
    as [found Hfind].
  rewrite (bind_Ret _ _ _ _ _ Hfind). reflexivity.
Qed.

Lemma updateUI_returns (g : Graph) :
  edgesInRange g -> peripheryInRange g ->
  exists seg, updateUI g = Ret tt (set_segmentVertices seg g).
Proof.
  intros He Hp. unfold updateUI.
  destruct (validateGraphIntegrity_pairs g He) as (check & Hcheck & _).
  rewrite (bind_Ret _ _ _ _ _ Hcheck).
  apply updateSegmentVisualization_returns; assumption.
Qed.

Lemma sound_newGraph : sound (@newGraph R num).
Proof.
  unfold sound, edgesInRange, peripheryInRange, isVertex, newGraph, JS.length.
  cbn [vertices edges periphery maxVertexId map vid List.length].
  split; [| split; [| split]].
  - intros e [<- | [<- | [<- | []]]]; cbn; lia.
  - intros i [<- | [<- | [<- | []]]]; cbn; lia.
  - repeat constructor; cbn; intuition lia.
  - intros v [<- | [<- | [<- | []]]]; cbn; lia.
Qed.

(** The refresh leaves what the two invariants talk about. *)
Lemma sound_refreshed (g : Graph) (seg : list Z) :
  sound g -> sound (set_segmentVertices seg g).
Proof. apply sound_fields; reflexivity. Qed.

Lemma selectionKept_refreshed (g : Graph) (seg : list Z) :
  selectionKept g -> selectionKept (set_segmentVertices seg g).
Proof. exact (fun H => H). Qed.

Lemma selectionKept_empty (g : Graph) :
  selectedVertices g = [] -> selectionKept g.
Proof.
  intro H. unfold selectionKept. rewrite H.
  split; [simpl; lia | split; [constructor | reflexivity]].
Qed.

(** What a command has to show: it returns, and the two invariants
    hold of the state it leaves. *)
Lemma kept_after_refresh (g : Graph) :
  sound g -> selectionKept g ->
  exists g', updateUI g = Ret tt g' /\ sound g' /\ selectionKept g'.
Proof.
  intros Hs Hk. pose proof Hs as (He & Hp & _).
  destruct (updateUI_returns g He Hp) as [seg Hu].
  eexists. split; [exact Hu |].
  split; [apply sound_refreshed, Hs | apply selectionKept_refreshed, Hk].
Qed.

Lemma addRandomSegment_kept (r1 r2 : Z) (g : Graph) :
  sound g -> selectionKept g -> drawsInRange (AddRandom r1 r2) g ->
  exists result g',
    addRandomSegment r1 r2 g = Ret result g' /\ sound g' /\ selectionKept g'.
Proof.
  intros Hs Hk Hd. unfold addRandomSegment.
  unfold bind at 1. unfold gets at 1.
  destruct (JS.length (periphery g) <? 2)%Z eqn:Hlen;
    [do 2 eexists; split; [reflexivity | auto] |].
  apply Z.ltb_ge in Hlen. cbv zeta.
  destruct Hd as [Hd | [Hr1 Hr2]]; [lia |].
  set (n := JS.length (periphery g)) in *.
  assert (Z.max 2 (r1 + 2) = r1 + 2)%Z as -> by lia.
  unfold JS.rem. destruct (n =? 0)%Z eqn:En; [apply Z.eqb_eq in En; lia |].
  rewrite Z.rem_mod_nonneg by lia.
  pose proof (Z.mod_pos_bound (r2 + (r1 + 2) - 1) n ltac:(lia)) as Hend.
  destruct (JS_get_Some (periphery g) r2 Hr2) as [a ->].
  destruct (JS_get_Some (periphery g) _ Hend) as [b ->].
  unfold bind at 1. unfold modify at 1.
  destruct (processSegmentSelection_sound (set_selectedVertices [a; b] g))
    as (result & g1 & Hrun & Hs1 & _ & _);
    [apply (sound_fields g); auto |].
  rewrite (bind_Ret _ _ _ _ _ Hrun).
  do 2 eexists. split; [reflexivity |].
  split; [apply (sound_fields g1); auto | apply selectionKept_empty; reflexivity].
Qed.

Lemma handleMouseDown_kept (vertexIndex : Z) (g : Graph) :
  sound g -> selectionKept g ->
  exists g',
    handleMouseDown vertexIndex g = Ret tt g' /\ sound g' /\ selectionKept g'.
Proof.
  intros Hs Hk. pose proof Hs as (He & Hp & _).
  pose proof Hk as (Hlen & Hnd & _).
  unfold handleMouseDown.
  unfold bind at 1. unfold gets at 1. unfold bind at 1. unfold gets at 1.
  destruct (manualMode g) eqn:Hmode; cbn [andb];
    [| eexists; split; [reflexivity | auto]].
  destruct (negb (vertexIndex =? -1)%Z); cbn [andb];
    [| eexists; split; [reflexivity | auto]].
  destruct (JS.includes (periphery g) vertexIndex) eqn:Hinc;
    [| eexists; split; [reflexivity | auto]].
  apply includes_In in Hinc.
  unfold bind at 1. unfold gets at 1.
  match goal with
  | |- exists g', bind ?m _ g = _ /\ _ =>
      assert (exists sel',
                m g = Ret tt (set_selectedVertices sel' g) /\
                (List.length sel' <= 2)%nat /\ NoDup sel')
        as (sel' & Hsel & Hl' & Hn')
  end.
  { destruct (JS.includes (selectedVertices g) vertexIndex) eqn:Hin.
    - eexists. split; [reflexivity |]. split.
      + eapply Nat.le_trans; [apply filter_length_le | exact Hlen].
      + apply NoDup_filter, Hnd.
    - destruct (JS.length (selectedVertices g) <? 2)%Z eqn:Hl2.
      + apply Z.ltb_lt in Hl2. unfold JS.length in Hl2.
        exists (selectedVertices g ++ [vertexIndex]).
        split; [| split].
        * unfold bind, modify, gets, orThrow, ret.
          cbn [vertices set_selectedVertices].
          destruct (readIds (vertices g) [vertexIndex]) eqn:Hr;
            [reflexivity |].
          exfalso. revert Hr. apply readIds_defined.
          intros i [<- | []]. apply (isVertex_defined g), Hp, Hinc.
        * rewrite length_app. simpl. lia.
        * apply NoDup_snoc; [exact Hnd |]. intro H.
          apply includes_In in H. congruence.
      + exists (selectedVertices g). split; [| auto].
        destruct g; reflexivity. }
  set (g1 := set_selectedVertices sel' g).
  assert (sound g1) as Hs1 by (apply (sound_fields g); auto).
  assert (forall g2 : Graph, manualMode g2 = true ->
            (selectedVertices g2 = sel' \/ selectedVertices g2 = []) ->
            selectionKept g2) as Hkept.
  { intros g2 Hm [E | E]; [| apply selectionKept_empty, E].
    unfold selectionKept. rewrite E, Hm.
    split; [exact Hl' | split; [exact Hn' | discriminate]]. }
  rewrite (bind_Ret _ _ _ _ _ Hsel).
  destruct (updateSegmentVisualization_returns g1) as [seg Hvis];
    [apply Hs1 | apply Hs1 |].
  rewrite (bind_Ret _ _ _ _ _ Hvis).
  set (g2 := set_segmentVertices seg g1).
  assert (sound g2) as Hs2 by (apply sound_refreshed, Hs1).
  unfold bind at 1. unfold gets at 1.
  destruct (JS.length (selectedVertices g2) =? 2)%Z.
  - destruct (processSegmentSelection_sound g2 Hs2)
      as (result & g3 & Hrun & Hs3 & Hm3 & Hsel3).
    rewrite (bind_Ret _ _ _ _ _ Hrun).
    assert (selectionKept g3) as Hk3
      by (apply Hkept; [rewrite Hm3; exact Hmode | exact Hsel3]).
    apply kept_after_refresh; assumption.
  - eexists. split; [reflexivity |]. split; [exact Hs2 |].
    apply Hkept; [exact Hmode | left; reflexivity].
Qed.

(** Every command, issued in a state where the two invariants hold and
    with its random draws in range, returns and leaves a state where
    they hold. *)
Lemma exec_kept (c : Command) (g : Graph) :
  sound g -> selectionKept g -> drawsInRange c g ->
  exists g', exec c g = Ret tt g' /\ sound g' /\ selectionKept g'.
Proof.
  intros Hs Hk Hd. destruct c as [| r1 r2 | | | | n | i]; cbn [exec].
  - exists newGraph. split; [reflexivity |].
    split; [apply sound_newGraph | apply selectionKept_empty; reflexivity].
  - unfold appAddRandomSegment.
    destruct (addRandomSegment_kept r1 r2 g Hs Hk Hd)
      as (result & g1 & Hrun & Hs1 & Hk1).
    rewrite (bind_Ret _ _ _ _ _ Hrun). apply kept_after_refresh; assumption.
  - unfold toggleManualMode.
    unfold bind at 1. unfold modify at 1. unfold bind at 1. unfold gets at 1.
    cbn [manualMode set_manualMode].
    destruct (manualMode g) eqn:Hm; cbn [negb].
    + unfold bind at 1. unfold bind at 1. unfold modify at 1.
      unfold modify at 1.
      apply kept_after_refresh;
        [apply (sound_fields g); auto | apply selectionKept_empty; reflexivity].
    + unfold bind at 1. unfold ret at 1.
      apply kept_after_refresh; [apply (sound_fields g); auto |].
      apply selectionKept_empty. cbn. apply Hk, Hm.
  - unfold clearSelection.
    unfold bind at 1. unfold modify at 1. unfold bind at 1. unfold modify at 1.
    apply kept_after_refresh;
      [apply (sound_fields g); auto | apply selectionKept_empty; reflexivity].
  - unfold redrawOptimize.
    destruct (updatePeriphery_hull g) as (p & Hu & _ & _ & Hin).
    rewrite (bind_Ret _ _ _ _ _ Hu).
    assert (sound (set_periphery p g)) as Hs1.
    { destruct Hs as (He & _ & Hnd & Hid). split; [exact He |].
      split; [| split; assumption].
      intros i Hi. destruct (Hin i Hi) as (v & Hv & _).
      eapply JS_get_range, Hv. }
    destruct (validateGraphIntegrity_pairs _ (proj1 Hs1))
      as (check & Hcheck & _).
    rewrite (bind_Ret _ _ _ _ _ Hcheck).
    apply kept_after_refresh; [exact Hs1 | exact Hk].
  - unfold goToVertex. destruct (n <? 1)%Z; [eauto |].
    unfold bind at 1. unfold modify at 1.
    apply kept_after_refresh; [| exact Hk].
    destruct Hs as (He & Hp & Hnd & Hid).
    unfold sound, edgesInRange, peripheryInRange, isVertex.
    cbn [vertices edges periphery maxVertexId set_vertices].
    rewrite JS_length_map, map_map. cbn [vid].
    split; [exact He |]. split; [exact Hp |]. split; [exact Hnd |].
    intros v Hv. apply in_map_iff in Hv. destruct Hv as (w & <- & Hw).
    cbn [vid]. apply Hid, Hw.
  - apply handleMouseDown_kept; assumption.
Qed.

Lemma reachable_kept (g : Graph) :
  reachable g -> sound g /\ selectionKept g.
Proof.
  induction 1 as [| g g' c _ [Hs Hk] Hd Hstep].
  - split; [apply sound_newGraph | apply selectionKept_empty; reflexivity].
  - destruct (exec_kept c g Hs Hk Hd) as (g1 & Hrun & Hs1 & Hk1).
    rewrite Hrun in Hstep. injection Hstep as <-. auto.
Qed.

(** X19.  In every state of the editor the graph data hold together: each
    edge joins two positions of the vertex array, each periphery entry
    is a position of the vertex array, no two vertices have the same
    identifier, and no identifier is above the counter. *)
Theorem reachable_states_are_sound :
  forall g : Graph,
    reachable g ->
    (forall e, In e (edges g) ->
       (0 <= fst e < JS.length (vertices g))%Z /\
       (0 <= snd e < JS.length (vertices g))%Z) /\
    (forall i, In i (periphery g) -> (0 <= i < JS.length (vertices g))%Z) /\
    NoDup (map vid (vertices g)) /\
    (forall v, In v (vertices g) -> (vid v <= maxVertexId g)%Z).
Proof. intros g H. exact (proj1 (reachable_kept g H)). Qed.

(** X20.  In every state of the editor the selection holds at most two
    vertices, none of them twice, and it is empty whenever manual mode
    is off. *)
Theorem reachable_states_keep_selection :
  forall g : Graph,
    reachable g ->
    (List.length (selectedVertices g) <= 2)%nat /\
    NoDup (selectedVertices g) /\
    (manualMode g = false -> selectedVertices g = []).
Proof. intros g H. exact (proj2 (reachable_kept g H)). Qed.

(** X21.  No command throws: issued in a state of the editor, with its
    random draws in range, every command returns (no [TypeError] from a
    read on [undefined] in what the handler does with the graph, no loop
    that does not end).  The drawing a handler ends with is [render],
    which is treated apart. *)
Theorem commands_never_throw :
  forall (g : Graph) (c : Command),
    reachable g ->
    drawsInRange c g ->
    exists g', exec c g = Ret tt g'.
Proof.
  intros g c H Hd. destruct (reachable_kept g H) as [Hs Hk].
  destruct (exec_kept c g Hs Hk Hd) as (g' & Hrun & _). eauto.
Qed.

(** ** The renderer *)

Lemma readEach_outcome (idxs : list Z) (g : Graph) :
  match readEach idxs g with
  | Ret _ g' => g' = g
  | Throw g' => g' = g /\ ~ (forall i, In i idxs -> isVertex g i)
  | Beyond => False
  end.
Proof.
  unfold readEach.
  match goal with |- context [forOf idxs ?b] => set (body := b) end.
  assert (match forOf idxs body g with
          | Ret _ g' => g' = g
          | Throw g' => g' = g /\ ~ (forall i, In i idxs -> isVertex g i)
          | Beyond => False
          end) as H.
  { induction idxs as [| i idxs IH]; [reflexivity |].
    assert (body i g = match JS.get (vertices g) i with
                       | Some _ => Ret None g
                       | None => Throw g
                       end) as Hbody
      by (unfold body, bind, gets, orThrow, ret;
          destruct (JS.get (vertices g) i); reflexivity).
    cbn [forOf]. unfold bind. rewrite Hbody.
    destruct (JS.get (vertices g) i) as [v |] eqn:Ei.
    - destruct (forOf idxs body g); try exact IH.
      destruct IH as [-> IH]. split; [reflexivity |].
      intro H. apply IH. intros k Hk. apply H. right. exact Hk.
    - split; [reflexivity |]. intro H.
      apply (isVertex_defined g i); [apply H; left; reflexivity | exact Ei]. }
  unfold bind. destruct (forOf idxs body g); exact H.
Qed.

Lemma drawEdges_outcome (g : Graph) :
  match drawEdges g with
  | Ret _ g' => g' = g
  | Throw g' => g' = g /\ ~ edgesInRange g
  | Beyond => False
  end.
Proof.
  unfold drawEdges, edgesInRange.
  match goal with |- context [forOf _ ?b] => set (body := b) end.
  assert (match forOf (edges g) body g with
          | Ret _ g' => g' = g
          | Throw g' =>
              g' = g /\
              ~ (forall e, In e (edges g) ->
                   isVertex g (fst e) /\ isVertex g (snd e))
          | Beyond => False
          end) as H.
  { induction (edges g) as [| e es IH]; [reflexivity |].
    assert (body e g =
              match anyHidden [JS.get (vertices g) (fst e);
                               JS.get (vertices g) (snd e)] with
              | Some _ => Ret None g
              | None => Throw g
              end) as Hbody
      by (unfold body, bind, gets, orThrow, ret;
          destruct (anyHidden _); reflexivity).
    cbn [forOf]. unfold bind. rewrite Hbody.
    destruct (anyHidden _) as [hidden |] eqn:Eh.
    - destruct (forOf es body g); try exact IH.
      destruct IH as [-> IH]. split; [reflexivity |].
      intro H. apply IH. intros k Hk. apply H. right. exact Hk.
    - split; [reflexivity |]. intro H.
      destruct (H e (or_introl eq_refl)) as [Ha Hb].
      destruct (isVertex_get g _ Ha) as [v1 E1].
      destruct (isVertex_get g _ Hb) as [v2 E2].
      rewrite E1, E2, anyHidden_two in Eh. discriminate. }
  unfold bind, gets. destruct (forOf (edges g) body g); exact H.
Qed.

Lemma drawPeripheryOutline_outcome (g : Graph) :
  match drawPeripheryOutline g with
  | Ret _ g' => g' = g
  | Throw g' => g' = g /\ ~ peripheryInRange g
  | Beyond => False
  end.
Proof.
  unfold drawPeripheryOutline, bind, gets.
  destruct (JS.length (periphery g) <? 3)%Z; [reflexivity |].
  apply readEach_outcome.
Qed.

Lemma drawSegmentHighlight_outcome (g : Graph) :
  match drawSegmentHighlight g with
  | Ret _ g' => g' = g
  | Throw g' => g' = g /\ ~ peripheryInRange g
  | Beyond => False
  end.
Proof.
  unfold drawSegmentHighlight. unfold bind at 1. unfold gets at 1.
  destruct (selectedVertices g) as [| v1 [| v2 [| v3 sel]]];
    try reflexivity.
  unfold bind at 1. unfold gets at 1. cbv zeta.
  destruct (_ || _) eqn:Hpos; [reflexivity |].
  apply orb_false_elim in Hpos. destruct Hpos as [E1 E2].
  apply Z.eqb_neq in E1, E2. apply indexOf_range in E1, E2.
  destruct (getPeripherySegment_positions _ _ g E1 E2) as (segment & Hseg & _).
  rewrite (bind_Ret _ _ _ _ _ Hseg).
  pose proof (readEach_outcome segment g) as H.
  destruct (readEach segment g); try exact H.
  destruct H as [-> H]. split; [reflexivity |].
  intro Hp. apply H. intros i Hi. apply Hp.
  exact (getPeripherySegment_In _ _ g segment E1 E2 Hseg i Hi).
Qed.

Lemma renderIntersectionPreview_outcome (g : Graph) :
  match renderIntersectionPreview g with
  | Ret _ g' => g' = g
  | Throw g' => g' = g /\ ~ (edgesInRange g /\ peripheryInRange g)
  | Beyond => False
  end.
Proof.
  unfold renderIntersectionPreview. unfold bind at 1. unfold gets at 1.
  unfold bind at 1. unfold gets at 1.
  destruct (selectedVertices g) as [| v1 [| v2 [| v3 sel]]];
    try reflexivity.
  destruct (manualMode g); [| reflexivity].
  unfold bind at 1. unfold gets at 1. cbv zeta.
  destruct (JS.indexOf (periphery g) v1 =? -1)%Z eqn:E1; [reflexivity |].
  destruct (JS.indexOf (periphery g) v2 =? -1)%Z eqn:E2; [reflexivity |].
  cbn [negb andb].
  apply Z.eqb_neq in E1, E2. apply indexOf_range in E1, E2.
  destruct (getPeripherySegment_positions _ _ g E1 E2) as (segment & Hseg & _).
  rewrite (bind_Ret _ _ _ _ _ Hseg).
  assert (peripheryInRange g -> forall i, In i segment -> isVertex g i) as Hin.
  { intros Hp i Hi. apply Hp.
    exact (getPeripherySegment_In _ _ g segment E1 E2 Hseg i Hi). }
  unfold bind at 1.
  pose proof (reads_findNonIntersectingPosition segment g) as Hr.
  destruct (findNonIntersectingPosition segment g) as [found g1 | g1 | ] eqn:Ef;
    try contradiction; subst g1.
  - destruct found; [| reflexivity].
    pose proof (readEach_outcome segment g) as H.
    destruct (readEach segment g); try exact H.
    destruct H as [-> H]. split; [reflexivity |].
    intros [_ Hp]. apply H, Hin, Hp.
  - split; [reflexivity |]. intros [He Hp].
    destruct (findNonIntersectingPosition_returns segment g He (Hin Hp))
      as [r Hret].
    congruence.
Qed.

Lemma render_outcome (g : Graph) :
  match render g with
  | Ret _ g' => g' = g
  | Throw g' => g' = g /\ ~ (edgesInRange g /\ peripheryInRange g)
  | Beyond => False
  end.
Proof.
  unfold render. unfold bind at 1.
  pose proof (drawEdges_outcome g) as H1.
  destruct (drawEdges g) as [[] g1 | g1 | ]; [subst g1 | | exact H1].
  2:{ destruct H1 as [-> H1]. split; [reflexivity | tauto]. }
  unfold bind at 1.
  pose proof (drawPeripheryOutline_outcome g) as H2.
  destruct (drawPeripheryOutline g) as [[] g1 | g1 | ]; [subst g1 | | exact H2].
  2:{ destruct H2 as [-> H2]. split; [reflexivity | tauto]. }
  unfold bind at 1.
  pose proof (drawSegmentHighlight_outcome g) as H3.
  destruct (drawSegmentHighlight g) as [[] g1 | g1 | ]; [subst g1 | | exact H3].
  2:{ destruct H3 as [-> H3]. split; [reflexivity | tauto]. }
  apply renderIntersectionPreview_outcome.
Qed.

(** X22.  Drawing leaves the graph as it is, whether it returns or throws;
    and when every edge joins two positions of the vertex array and
    every periphery entry is one, as in every state of the editor,
    [render] returns: none of the properties it reads is read on
    [undefined]. *)
Theorem render_reads_defined_vertices :
  forall g : Graph,
    (render g = Ret tt g \/ render g = Throw g) /\
    (edgesInRange g -> peripheryInRange g -> render g = Ret tt g) /\
    (reachable g -> render g = Ret tt g).
Proof.
  intro g. pose proof (render_outcome g) as H.
  destruct (render g) as [[] g1 | g1 | ]; [subst g1 | | contradiction].
  - auto.
  - destruct H as [-> H]. split; [auto |]. split.
    + intros He Hp. exfalso. apply H. split; assumption.
    + intro Hr. exfalso. apply H.
      destruct (reachable_kept g Hr) as [(He & Hp & _) _]. split; assumption.
Qed.

Lemma getVertexAt_loop_spec (worldPos : Point) (radius : R) (vs : list Vertex) :
  forall k : Z,
    (getVertexAt_loop worldPos radius k vs = (-1)%Z /\
     forall v, In v vs -> inReach worldPos radius v = false) \/
    (exists (n : nat) (v : Vertex),
       getVertexAt_loop worldPos radius k vs = (k + Z.of_nat n)%Z /\
       nth_error vs n = Some v /\
       inReach worldPos radius v = true /\
       forall m u, (m < n)%nat -> nth_error vs m = Some u ->
                   inReach worldPos radius u = false).
Proof.
  induction vs as [| vertex rest IH]; intro k.
  - left. split; [reflexivity | intros v []].
  - cbn [getVertexAt_loop]. cbv zeta.
    destruct (inReach worldPos radius vertex) eqn:Hhit.
    + right. exists O, vertex. pose proof Hhit as Hparts.
      unfold inReach in Hparts.
      apply andb_prop in Hparts. destruct Hparts as [-> ->]. cbn [negb].
      split; [lia |]. split; [reflexivity |].
      split; [exact Hhit |]. intros m u Hm. lia.
    + assert ((if negb (visible vertex)
               then getVertexAt_loop worldPos radius (k + 1) rest
               else if nle (distance worldPos (pos vertex)) radius then k
                    else getVertexAt_loop worldPos radius (k + 1) rest)
              = getVertexAt_loop worldPos radius (k + 1) rest) as ->.
      { unfold inReach in Hhit. destruct (visible vertex); [| reflexivity].
        cbn [andb negb] in *. rewrite Hhit. reflexivity. }
      destruct (IH (k + 1)%Z) as [[Hno Hall] | (n & v & Hres & Hn & Hv & Hbefore)].
      * left. split; [exact Hno |]. intros v [<- | Hv]; auto.
      * right. exists (S n), v. split; [rewrite Hres; lia |].
        split; [exact Hn |]. split; [exact Hv |].
        intros [| m] u Hm Hu.
        -- injection Hu as <-. exact Hhit.
        -- apply (Hbefore m u); [lia | exact Hu].
Qed.

(** X23.  [getVertexAt] changes nothing and answers [-1] when no visible
    vertex lies within the pick radius of the pointer, and otherwise
    the index of the first vertex of the array that is visible and
    within the radius: hidden vertices are never picked, and of two
    vertices within reach the one stored first is. *)
Theorem getVertexAt_picks_first_in_reach :
  forall (w : View) (screenX screenY : R) (g : Graph),
  exists i,
    getVertexAt w screenX screenY g = Ret i g /\
    ((i = (-1)%Z /\
      forall v, In v (vertices g) ->
        inReach (screenToWorld w screenX screenY)
                (Math_max #18 (zoom w * #25) / zoom w) v = false) \/
     (exists v,
        JS.get (vertices g) i = Some v /\
        inReach (screenToWorld w screenX screenY)
                (Math_max #18 (zoom w * #25) / zoom w) v = true /\
        forall j u, (0 <= j < i)%Z -> JS.get (vertices g) j = Some u ->
          inReach (screenToWorld w screenX screenY)
                  (Math_max #18 (zoom w * #25) / zoom w) u = false)).
Proof.
  intros w x y g. unfold getVertexAt, bind, gets, ret. cbv zeta.
  eexists. split; [reflexivity |].
  destruct (getVertexAt_loop_spec (screenToWorld w x y)
              (Math_max #18 (zoom w * #25) / zoom w) (vertices g) 0)
    as [[Hno Hall] | (n & v & Hres & Hn & Hv & Hbefore)].
  - left. split; assumption.
  - right. rewrite Hres. exists v.
    split; [apply get_nth_error; exact Hn |]. split; [exact Hv |].
    intros j u Hj Hu. apply (Hbefore (Z.to_nat j) u); [lia |].
    unfold JS.get in Hu. destruct (j <? 0)%Z; [discriminate | exact Hu].
Qed.

(** ** The check of the new edges against each other *)

(** When [validateNewEdges] answers that new edges would intersect each
    other, two of the new edges have been found to share no end
    point. *)
Lemma validateNewEdges_new_edges_message (newVertexPos : Point)
  (segment : list Z) (g g' : Graph) (check : Validation) :
  validateNewEdges newVertexPos segment g = Ret check g' ->
  vmessage check = Some MsgNewEdgesIntersect ->
  exists a b : Point,
    edgesShareVertex (mkEdge (Some newVertexPos) (Some a))
                     (mkEdge (Some newVertexPos) (Some b)) = false.
Proof.
  intros Hrun Hmsg.
  unfold validateNewEdges in Hrun. unfold bind at 1 in Hrun.
  unfold gets at 1 in Hrun. cbv zeta in Hrun.
  set (mk := fun vIdx : Z =>
               mkEdge (Some newVertexPos)
                      (option_map pos (JS.get (vertices g) vIdx))) in Hrun.
  set (newEdges := map mk segment) in Hrun.
  match type of Hrun with
  | context [forOf (JS.indexed newEdges) ?b] => set (body := b) in Hrun
  end.
  assert (Hreads : forall x, reads (body x))
    by (intros [i ne]; unfold body; frame).
  assert (Hstart : forall i ne, In (i, ne) (JS.indexed newEdges) ->
                     start ne = Some newVertexPos).
  { intros i ne H. apply indexed_nth in H. destruct H as [_ H].
    unfold newEdges in H. rewrite nth_error_map in H.
    destruct (nth_error segment (Z.to_nat i)); [| discriminate].
    injection H as <-. reflexivity. }
  unfold bind in Hrun.
  destruct (forOf (JS.indexed newEdges) body g) as [r g1 | g1 | ] eqn:Hr;
    try discriminate.
  pose proof (reads_Ret _ _ _ _ (reads_forOf _ _ Hreads) Hr). subst g1.
  destruct r as [v |]; injection Hrun as <- <-; [| discriminate].
  destruct (forOf_Some _ _ _ _ _ Hreads Hr) as ([i ne] & Hi & Hb).
  unfold body in Hb. cbv beta iota in Hb.
  unfold bind at 1 in Hb. unfold gets at 1 in Hb.
  match type of Hb with
  | context [forOf (edges g) ?b] => set (inner1 := b) in Hb
  end.
  match type of Hb with
  | context [forOf (JS.indexed newEdges) ?b] => set (inner2 := b) in Hb
  end.
  assert (Hr1 : forall e, reads (inner1 e)) by (intro; unfold inner1; frame).
  assert (Hr2 : forall x, reads (inner2 x))
    by (intros [j other]; unfold inner2; frame).
  unfold bind in Hb.
  destruct (forOf (edges g) inner1 g) as [r1 g1 | g1 | ] eqn:Hf1;
    try discriminate.
  pose proof (reads_Ret _ _ _ _ (reads_forOf _ _ Hr1) Hf1). subst g1.
  destruct r1 as [v1 |].
  - exfalso. injection Hb as ->.
    destruct (forOf_Some _ _ _ _ _ Hr1 Hf1) as (e & _ & He).
    unfold inner1, bind, gets, orThrow, ret in He.
    destruct (anyHidden _) as [[|] |]; try discriminate.
    destruct (edgesShareVertex _ _); [discriminate |].
    destruct (segmentsIntersectU _ _ _ _) as [[|] |]; try discriminate.
    destruct (option_map vid _); [| discriminate].
    destruct (option_map vid _); [| discriminate].
    injection He as <-. discriminate.
  - destruct (forOf_Some _ _ _ _ _ Hr2 Hb) as ([j other] & Hj & Ho).
    pose proof (Hstart _ _ Hi) as Hs1. pose proof (Hstart _ _ Hj) as Hs2.
    unfold inner2, bind, orThrow, ret in Ho.
    destruct (i =? j)%Z; [discriminate |].
    destruct (edgesShareVertex ne other) eqn:Hshare; [discriminate |].
    destruct ne as [s1 e1], other as [s2 e2]. cbn [start end_] in *.
    subst s1 s2.
    destruct e1 as [a |], e2 as [b |]; try discriminate.
    exists a, b. exact Hshare.
Qed.

(** ** Missing vertices, few vertices *)

Lemma sumSegment_None (vs : list Vertex) (segment : list Z) :
  forall cx cy,
    sumSegment vs segment cx cy = None <->
    exists i, In i segment /\ JS.get vs i = None.
Proof.
  induction segment as [| i segment IH]; intros cx cy; cbn [sumSegment].
  - split; [discriminate | intros (i & [] & _)].
  - destruct (JS.get vs i) as [v |] eqn:Ei.
    + rewrite IH. split.
      * intros (k & Hk & Hn). exists k. split; [right |]; assumption.
      * intros (k & [<- | Hk] & Hn); [congruence |].
        exists k. split; assumption.
    + split; [| reflexivity]. intros _. exists i.
      split; [left; reflexivity | exact Ei].
Qed.

(** X25.  [calculateCentroid] throws exactly when an entry of the segment is
    not a position of the vertex array (it reads [vertex.x] on
    [undefined]), and the placement search then throws as well, before
    any attempt; in both cases the state is left as it was.  Otherwise
    [calculateCentroid] returns. *)
Theorem calculateCentroid_throws_on_missing_vertex :
  forall (segment : list Z) (g : Graph),
    (calculateCentroid segment g = Throw g <->
     exists i, In i segment /\ JS.get (vertices g) i = None) /\
    ((exists i, In i segment /\ JS.get (vertices g) i = None) ->
     findNonIntersectingPosition segment g = Throw g) /\
    ((forall i, In i segment -> JS.get (vertices g) i <> None) ->
     exists centroid, calculateCentroid segment g = Ret centroid g).
Proof.
  intros segment g.
  assert (calculateCentroid segment g =
            match sumSegment (vertices g) segment #0 #0 with
            | Some c => Ret (mkPoint (fst c / nofZ (JS.length segment))
                                     (snd c / nofZ (JS.length segment))) g
            | None => Throw g
            end) as Heq.
  { unfold calculateCentroid, bind, gets, orThrow, ret.
    destruct (sumSegment _ _ _ _); reflexivity. }
  pose proof (sumSegment_None (vertices g) segment #0 #0) as Hnone.
  split; [| split].
  - rewrite Heq, <- Hnone.
    destruct (sumSegment _ _ _ _); split; congruence.
  - intro H. apply Hnone in H.
    unfold findNonIntersectingPosition, bind. rewrite Heq, H. reflexivity.
  - intro H. rewrite Heq.
    destruct (sumSegment _ _ _ _); [eauto |].
    exfalso. destruct (proj1 Hnone eq_refl) as (i & Hi & Hn).
    exact (H i Hi Hn).
Qed.

Lemma filter_indexed_length {A : Type} (P : A -> bool) (l : list A) (k : Z) :
  List.length (filter (fun ia => P (snd ia)) (JS.indexed_from k l)) =
    List.length (filter P l).
Proof.
  revert k. induction l as [| a l IH]; intro k; [reflexivity |].
  cbn [JS.indexed_from filter snd]. destruct (P a); cbn [List.length];
    rewrite IH; reflexivity.
Qed.

(** X26.  With fewer than three visible vertices there is no hull to be
    inside of: [isOutsideGraph] answers [true] for every point and every
    margin, so the outside check of [validateBasicPosition] passes
    everywhere. *)
Theorem isOutsideGraph_few_visible_vertices :
  forall (x y margin : R) (g : Graph),
    (JS.length (filter visible (vertices g)) < 3)%Z ->
    isOutsideGraph x y margin g = Ret true g.
Proof.
  intros x y margin g Hfew.
  unfold isOutsideGraph, getConvexHull, bind, gets, ret.
  assert (JS.length (filter (fun v => visible (snd v))
                       (JS.indexed (vertices g))) =
          JS.length (filter visible (vertices g))) as Hlen.
  { unfold JS.length, JS.indexed. f_equal. apply filter_indexed_length. }
  unfold convexHull. rewrite Hlen.
  destruct (JS.length (filter visible (vertices g)) <? 3)%Z eqn:E;
    [| apply Z.ltb_ge in E; lia].
  match goal with
  | |- (if (?n <? 3)%Z then _ else _) _ = _ =>
      replace n with (JS.length (filter visible (vertices g)))
        by (symmetry; exact Hlen)
  end.
  rewrite E. reflexivity.
Qed.

(** ** The earlier engine (part_000) *)

Lemma filter_all_visible (vs : list Vertex) :
  (forall v, In v vs -> visible v = true) ->
  filter (fun v : VertexRef => visible (snd v)) (JS.indexed vs) =
    JS.indexed vs.
Proof.
  unfold JS.indexed. generalize 0%Z.
  induction vs as [| v l IH]; intros k H; [reflexivity |].
  cbn [JS.indexed_from filter snd]. rewrite (H v (or_introl eq_refl)).
  f_equal. apply IH. intros u Hu. apply H. right. exact Hu.
Qed.

(** X27.  The two versions of [getConvexHull] differ by the visibility
    filter only: while no vertex is hidden, the earlier [getConvexHull]
    and [updatePeriphery] do what the later ones do. *)
Theorem earlier_hull_agrees_while_all_visible :
  forall g : Graph,
    (forall v, In v (vertices g) -> visible v = true) ->
    Part000.getConvexHull g = getConvexHull g /\
    Part000.updatePeriphery g = updatePeriphery g.
Proof.
  intros g Hall.
  assert (Part000.convexHull (vertices g) = convexHull (vertices g)) as Hh.
  { unfold Part000.convexHull, convexHull. cbv zeta.
    repeat match goal with
           | |- context [filter ?f (JS.indexed (vertices g))] =>
               replace (filter f (JS.indexed (vertices g)))
                 with (JS.indexed (vertices g))
                 by (symmetry; exact (filter_all_visible _ Hall))
           end.
    reflexivity. }
  split.
  - unfold Part000.getConvexHull, getConvexHull, bind, gets, ret.
    rewrite Hh. reflexivity.
  - unfold Part000.updatePeriphery, updatePeriphery,
      Part000.getConvexHull, getConvexHull, bind, gets, ret.
    rewrite Hh. reflexivity.
Qed.

(** The earlier hull is a rearranged part of the vertex array. *)
Lemma earlier_convexHull_part (vs : list Vertex) :
  NoDup (map fst (Part000.convexHull vs)) /\
  forall x, In x (Part000.convexHull vs) -> In x (JS.indexed vs).
Proof.
  unfold Part000.convexHull. cbv zeta.
  set (points := JS.indexed vs).
  assert (NoDup (map fst points)) as Hnd by apply indexed_from_NoDup.
  destruct (JS.length points <? 3)%Z; [split; auto |].
  destruct points as [| v0 rest] eqn:Ev; [split; [constructor | auto] |].
  rewrite <- Ev in *.
  destruct (findStart rest 1 (0%Z, v0)) as [start startPoint] eqn:Ef.
  assert (JS.get points start = Some startPoint) as Hs.
  { pose proof (findStart_get points rest 1 (0%Z, v0)) as H.
    rewrite Ef in H. apply H.
    - intros k v Hk. rewrite Ev.
      replace (1 + Z.of_nat k)%Z with (Z.of_nat (S k)) by lia.
      apply get_nth_error. exact Hk.
    - rewrite Ev. reflexivity. }
  pose proof (removeAt_Permutation _ _ _ Hs) as Hperm.
  assert (Permutation points
            (startPoint :: sortedPoints points start startPoint))
    as Hperm'.
  { eapply Permutation_trans; [exact Hperm |].
    apply perm_skip. apply sort_Permutation. }
  unfold sweep.
  pose proof (sweep_stack (sortedPoints points start startPoint)
                [startPoint]) as H.
  cbv zeta in H. destruct H as [H1 H2].
  { cbn [rev app]. eapply Permutation_NoDup; [| exact Hnd].
    apply Permutation_map. exact Hperm'. }
  split.
  - rewrite map_rev. apply NoDup_rev. exact H1.
  - intros x Hx. apply in_rev in Hx. apply H2 in Hx.
    eapply Permutation_in; [symmetry; exact Hperm' | exact Hx].
Qed.

(** The earlier [updatePeriphery] returns, and what periphery it
    sets. *)
Lemma earlier_updatePeriphery_hull :
  forall g : Graph,
  exists p,
    Part000.updatePeriphery g = Ret tt (set_periphery p g) /\
    (p = map fst (Part000.convexHull (vertices g)) \/
     p = rev (map fst (Part000.convexHull (vertices g)))) /\
    NoDup p /\
    forall i, In i p -> isVertex g i.
Proof.
  intro g.
  unfold Part000.updatePeriphery, Part000.getConvexHull, bind, gets, modify,
    ret.
  rewrite ensureClockwiseOrder_eq. cbn [vertices periphery set_periphery].
  pose proof (earlier_convexHull_part (vertices g)) as [Hnd Hpart].
  set (hull := map fst (Part000.convexHull (vertices g))) in *.
  assert (forall i, In i hull -> isVertex g i) as Hdef.
  { intros i Hi. apply in_map_iff in Hi. destruct Hi as ([k v] & <- & Hx).
    apply Hpart, indexed_In in Hx. cbn [fst].
    exact (JS_get_range _ _ _ Hx). }
  destruct (clockwise (vertices g) hull) as [p |] eqn:Hc.
  - exists p. split; [rewrite set_periphery_twice; reflexivity |].
    pose proof (clockwise_cases _ _ _ Hc) as Hp. split; [exact Hp |].
    split.
    + destruct Hp as [-> | ->]; [exact Hnd | apply NoDup_rev; exact Hnd].
    + intros i Hi. apply Hdef.
      destruct Hp as [-> | ->]; [exact Hi | apply in_rev; exact Hi].
  - exfalso. unfold clockwise in Hc.
    destruct (JS.length hull <? 3)%Z; [discriminate |].
    destruct (signedArea (vertices g) hull) eqn:Ha; [discriminate |].
    apply signedArea_None in Ha. destruct Ha as (i & Hi & Hn).
    destruct (isVertex_get g i (Hdef i Hi)) as (v & Hv). congruence.
Qed.

Lemma readsGraphOnly_earlier_isOutsideGraph (x y : R) :
  readsGraphOnly (Part000.isOutsideGraph x y).
Proof.
  unfold Part000.isOutsideGraph, Part000.getConvexHull. graph_only.
Qed.

Lemma readsGraphOnly_validateVertexPosition (x y : R) (excludeIndex : Z) :
  readsGraphOnly (Part000.validateVertexPosition x y excludeIndex).
Proof.
  pose proof (readsGraphOnly_earlier_isOutsideGraph x y) as Ho.
  unfold Part000.validateVertexPosition. graph_only.
Qed.

(** The steps of the earlier [addVertex]. *)
Lemma addVertex_steps :
  forall (x y : R) (g : Graph),
    ((10000 <= JS.length (vertices g))%Z ->
     Part000.addVertex x y g =
       Ret (Part000.mkAnswer false (Some Part000.LimitReached)) g) /\
    ((JS.length (vertices g) < 10000)%Z ->
     match Part000.validateVertexPosition x y (JS.length (vertices g)) g with
     | Ret validation _ =>
         if Part000.success validation then
           let newVertex := mkVertex x y true (maxVertexId g + 1)%Z in
           let hull :=
             map fst (Part000.convexHull (vertices g ++ [newVertex])) in
           exists p,
             Part000.addVertex x y g =
               Ret (Part000.mkAnswer true
                      (Some (Part000.Added (maxVertexId g + 1)%Z)))
                   (mkGraph
                      (vertices g ++ [newVertex])
                      (edges g ++
                       map (fun vertexIndex =>
                              (vertexIndex, JS.length (vertices g)))
                           (selectedVertices g))
                      p [] (segmentVertices g) (manualMode g)
                      (maxVertexId g + 1)%Z) /\
             (p = hull \/ p = rev hull)
         else
           Part000.addVertex x y g =
             Ret validation (set_maxVertexId (maxVertexId g + 1)%Z g)
     | Throw _ =>
         Part000.addVertex x y g =
           Throw (set_maxVertexId (maxVertexId g + 1)%Z g)
     | Beyond => False
     end).
Proof.
  intros x y g. split.
  - intro H. unfold Part000.addVertex, bind, gets, ret.
    destruct (10000 <=? JS.length (vertices g))%Z eqn:E;
      [reflexivity | apply Z.leb_gt in E; lia].
  - intro H.
    set (g1 := set_maxVertexId (maxVertexId g + 1)%Z g).
    destruct (readsGraphOnly_validateVertexPosition x y
                (JS.length (vertices g))) as [Hr Hs].
    specialize (Hs g g1 eq_refl eq_refl).
    pose proof (Hr g) as H0. pose proof (Hr g1) as H1.
    assert (Part000.addVertex x y g =
              bind (Part000.validateVertexPosition x y (JS.length (vertices g)))
                (fun validation =>
                   if negb (Part000.success validation) then ret validation
                   else
                     bind (modify (fun g =>
                             set_vertices
                               (vertices g ++
                                [mkVertex x y true (maxVertexId g1)]) g))
                       (fun _ =>
                     bind (gets selectedVertices) (fun selected =>
                     bind (modify (fun g =>
                             set_edges
                               (edges g ++
                                map (fun vertexIndex =>
                                       (vertexIndex, JS.length (vertices g1)))
                                    selected) g)) (fun _ =>
                     bind Part000.updatePeriphery (fun _ =>
                     bind (modify (set_selectedVertices [])) (fun _ =>
                     bind (gets maxVertexId) (fun maxId =>
                     ret (Part000.mkAnswer true
                            (Some (Part000.Added maxId))))))))))
                g1) as Heq.
    { unfold Part000.addVertex. unfold bind at 1. unfold gets at 1.
      destruct (10000 <=? JS.length (vertices g))%Z eqn:E;
        [apply Z.leb_le in E; lia |].
      reflexivity. }
    destruct (Part000.validateVertexPosition x y (JS.length (vertices g)) g)
      as [a g' | g' |];
      destruct (Part000.validateVertexPosition x y (JS.length (vertices g)) g1)
      as [a1 g1' | g1' |] eqn:E1; try contradiction; subst.
    + simpl in Hs. subst a1.
      destruct (Part000.success a) eqn:Es; cbv zeta;
        [| rewrite Heq; unfold bind at 1; rewrite E1, Es; reflexivity].
      set (g2 := set_edges
                   (edges g ++
                    map (fun vertexIndex =>
                           (vertexIndex, JS.length (vertices g)))
                        (selectedVertices g))
                   (set_vertices
                      (vertices g ++
                       [mkVertex x y true (maxVertexId g + 1)%Z]) g1)).
      destruct (earlier_updatePeriphery_hull g2) as (p & Hp & Hcases & _).
      exists p. split; [| exact Hcases].
      rewrite Heq. unfold bind at 1. rewrite E1, Es.
      cbn [negb]. unfold bind at 1. unfold modify at 1.
      unfold bind at 1. unfold gets at 1.
      unfold bind at 1. unfold modify at 1.
      unfold bind at 1.
      change (Part000.updatePeriphery _) with (Part000.updatePeriphery g2).
      rewrite Hp. reflexivity.
    + rewrite Heq. unfold bind at 1. rewrite E1. reflexivity.
Qed.

(** X28.  What the earlier [addVertex] does.  At the limit of 10000
    vertices it answers without touching the graph.  Below it, the
    identifier counter is incremented before the position is validated
    ([id] is the counter after the increment: the successor of the
    counter before, while that one is in the range where [++] is the
    successor), so a rejected position (and a validation that throws)
    still uses up an identifier; an accepted position appends the
    vertex with the new identifier and one edge per selected vertex,
    sets the periphery to the hull of all the vertices and empties the
    selection. *)
Theorem addVertex_effect :
  forall (x y : R) (g : Graph),
    ((10000 <= JS.length (vertices g))%Z ->
     Part000.addVertex x y g =
       Ret (Part000.mkAnswer false (Some Part000.LimitReached)) g) /\
    ((JS.length (vertices g) < 10000)%Z ->
     exists id : Z,
       (JS.incrementable (maxVertexId g) -> id = (maxVertexId g + 1)%Z) /\
       match
         Part000.validateVertexPosition x y (JS.length (vertices g)) g
       with
       | Ret validation _ =>
           if Part000.success validation then
             let newVertex := mkVertex x y true id in
             let hull :=
               map fst (Part000.convexHull (vertices g ++ [newVertex])) in
             exists p,
               Part000.addVertex x y g =
                 Ret (Part000.mkAnswer true (Some (Part000.Added id)))
                     (mkGraph
                        (vertices g ++ [newVertex])
                        (edges g ++
                         map (fun vertexIndex =>
                                (vertexIndex, JS.length (vertices g)))
                             (selectedVertices g))
                        p [] (segmentVertices g) (manualMode g) id) /\
               (p = hull \/ p = rev hull)
           else
             Part000.addVertex x y g =
               Ret validation (set_maxVertexId id g)
       | Throw _ =>
           Part000.addVertex x y g = Throw (set_maxVertexId id g)
       | Beyond => False
       end).
Proof.
  intros x y g. split; [exact (proj1 (addVertex_steps x y g)) |].
  intro Hlim. exists (maxVertexId g + 1)%Z.
  split; [intros _; reflexivity |].
  exact (proj2 (addVertex_steps x y g) Hlim).
Qed.

Lemma forOf_ext {A B : Type} (xs : list A) (f f' : A -> M (option B)) :
  (forall a, In a xs -> forall g, f a g = f' a g) ->
  forall g, forOf xs f g = forOf xs f' g.
Proof.
  induction xs as [| a xs IH]; intros H g; [reflexivity |].
  cbn [forOf]. unfold bind. rewrite (H a (or_introl eq_refl) g).
  destruct (f' a g) as [[b |] g' | g' |]; try reflexivity.
  apply IH. intros a' Ha'. apply H. right. exact Ha'.
Qed.

(** A loop whose body only reads returns from the first element on
    which the body does. *)
Lemma forOf_first {A B : Type} (xs : list A) (body : A -> M (option B))
  (g g' : Graph) (b : B) :
  (forall a, reads (body a)) ->
  forOf xs body g = Ret (Some b) g' ->
  exists (k : nat) (a : A),
    nth_error xs k = Some a /\
    body a g = Ret (Some b) g /\
    forall (j : nat) (a' : A),
      (j < k)%nat -> nth_error xs j = Some a' -> body a' g = Ret None g.
Proof.
  intros Hr. induction xs as [| a xs IH]; intro H; [discriminate H |].
  cbn [forOf] in H. unfold bind in H.
  pose proof (Hr a g) as Ha.
  destruct (body a g) as [[b' |] g1 | g1 |] eqn:E; try discriminate H;
    subst g1.
  - unfold ret in H. injection H as -> <-.
    exists 0%nat, a. split; [reflexivity |]. split; [exact E |].
    intros j a' Hj. lia.
  - destruct (IH H) as (k & a0 & Hk & Hb & Hbefore).
    exists (S k), a0. split; [exact Hk |]. split; [exact Hb |].
    intros [| j] a' Hj Hn.
    + injection Hn as <-. exact E.
    + apply (Hbefore j a'); [lia | exact Hn].
Qed.

Lemma bind_cong {A B : Type} (m m' : M A) (f f' : A -> M B) (g : Graph) :
  m g = m' g ->
  (forall a g1, m' g = Ret a g1 -> f a g1 = f' a g1) ->
  bind m f g = bind m' f' g.
Proof.
  intros Hm Hf. unfold bind. rewrite Hm.
  destruct (m' g) as [a g1 | g1 |]; try reflexivity.
  apply Hf. reflexivity.
Qed.

(** The index [addVertex] asks [validateVertexPosition] to leave out is
    the position the new vertex will take: no vertex and no edge is at
    it yet, so nothing is left out. *)
Lemma validateVertexPosition_newIndex (x y : R) (g : Graph) :
  edgesInRange g ->
  Part000.validateVertexPosition x y (JS.length (vertices g)) g =
  Part000.validateVertexPosition x y (-1) g.
Proof.
  intro He. unfold Part000.validateVertexPosition.
  apply bind_cong; [reflexivity |].
  intros vs g1 Hvs. unfold gets in Hvs. injection Hvs as <- <-.
  apply bind_cong.
  { apply forOf_ext. intros [i v] Hi g0. cbn [fst snd].
    apply indexed_In, JS_get_range in Hi.
    destruct (i =? JS.length (vertices g))%Z eqn:E1;
      [apply Z.eqb_eq in E1; lia |].
    destruct (i =? -1)%Z eqn:E2; [apply Z.eqb_eq in E2; lia |].
    reflexivity. }
  intros r1 g2 Hr1.
  assert (g2 = g) as ->.
  { match type of Hr1 with
    | ?m g = _ => assert (reads m) as Hreads by frame
    end.
    specialize (Hreads g). rewrite Hr1 in Hreads. exact Hreads. }
  destruct r1 as [a |]; [reflexivity |].
  apply bind_cong; [reflexivity |].
  intros es g1 Hes. unfold gets in Hes. injection Hes as <- <-.
  apply bind_cong; [| reflexivity].
  apply forOf_ext. intros [i j] Hij g0. cbn [fst snd].
  destruct (He _ Hij) as [Hi Hj]. unfold isVertex in Hi, Hj.
  cbn [fst snd] in Hi, Hj.
  destruct (i =? JS.length (vertices g))%Z eqn:E1;
    [apply Z.eqb_eq in E1; lia |].
  destruct (j =? JS.length (vertices g))%Z eqn:E2;
    [apply Z.eqb_eq in E2; lia |].
  destruct (i =? -1)%Z eqn:E3; [apply Z.eqb_eq in E3; lia |].
  destruct (j =? -1)%Z eqn:E4; [apply Z.eqb_eq in E4; lia |].
  reflexivity.
Qed.

(** X29.  The earlier [addVertex] validates with the test
    [findOptimalPosition] has already made: while every edge joins two
    positions of the vertex array and the limit is not reached, a
    position that [validateVertexPosition(x, y)] accepts is added by
    [addVertex(x, y)], with the counter as it then stands as
    identifier, and one it rejects is rejected with the same answer and
    nothing but the counter changed.  Either way the counter has moved
    on: by one, while it is in the range where [++] is the successor. *)
Theorem addVertex_agrees_with_validation :
  forall (x y : R) (g g' : Graph) (validation : Part000.Answer),
    edgesInRange g ->
    (JS.length (vertices g) < 10000)%Z ->
    Part000.validateVertexPosition x y (-1) g = Ret validation g' ->
    if Part000.success validation then
      exists g'',
        Part000.addVertex x y g =
          Ret (Part000.mkAnswer true
                 (Some (Part000.Added (maxVertexId g'')))) g'' /\
        vertices g'' =
          vertices g ++ [mkVertex x y true (maxVertexId g'')] /\
        selectedVertices g'' = [] /\
        (JS.incrementable (maxVertexId g) ->
         maxVertexId g'' = (maxVertexId g + 1)%Z)
    else
      exists id : Z,
        Part000.addVertex x y g = Ret validation (set_maxVertexId id g) /\
        (JS.incrementable (maxVertexId g) -> id = (maxVertexId g + 1)%Z).
Proof.
  intros x y g g' validation He Hlim Hrun.
  pose proof (proj2 (addVertex_steps x y g) Hlim) as H.
  rewrite (validateVertexPosition_newIndex x y g He), Hrun in H.
  destruct (Part000.success validation).
  - cbv zeta in H. destruct H as (p & Hp & _).
    match type of Hp with _ = Ret _ ?g2 => exists g2 end.
    split; [exact Hp |]. split; [reflexivity |].
    split; [reflexivity |]. intros _. reflexivity.
  - exists (maxVertexId g + 1)%Z. split; [exact H |]. intros _. reflexivity.
Qed.

(** X30.  What the earlier [findOptimalPosition] returns.  It leaves the
    graph as it is.  When the centroid of the selected vertices is at
    the graph center ([len === 0]) it answers the fallback position,
    which it has not validated.  Otherwise it answers the candidate at
    the first of the distances 60, 80, ..., 200 from the centroid, away
    from the graph center, that [validateVertexPosition] accepts, and
    [null] when it accepts none of the eight. *)
Theorem findOptimalPosition_first_accepted_distance :
  forall (selectedIndices : list Z) (g g' : Graph) (r : option Point),
    Part000.findOptimalPosition selectedIndices g = Ret r g' ->
    g' = g /\
    exists c,
      Part000.centroid (vertices g) selectedIndices = Some c /\
      let center := Part000.graphCenter (vertices g) in
      let dx := px c - px center in
      let dy := py c - py center in
      let len := Math_sqrt (dx * dx + dy * dy) in
      if len === #0 then
        exists v1 v2,
          option_map pos
            (Part000.getU (vertices g) (JS.get selectedIndices 0)) = Some v1 /\
          option_map pos
            (Part000.getU (vertices g)
               (Part000.secondOrFirst selectedIndices)) = Some v2 /\
          r = Some (Part000.fallback c v1 v2)
      else
        match r with
        | Some p =>
            exists (k : nat) (dist : Z) (validation : Part000.Answer),
              nth_error Part000.distances k = Some dist /\
              p = Part000.candidate c (dx / len) (dy / len) dist /\
              Part000.validateVertexPosition (px p) (py p) (-1) g
                = Ret validation g /\
              Part000.success validation = true /\
              forall (j : nat) (d : Z),
                (j < k)%nat -> nth_error Part000.distances j = Some d ->
                exists rejection,
                  Part000.validateVertexPosition
                    (px (Part000.candidate c (dx / len) (dy / len) d))
                    (py (Part000.candidate c (dx / len) (dy / len) d))
                    (-1) g = Ret rejection g /\
                  Part000.success rejection = false
        | None =>
            forall d : Z,
              In d Part000.distances ->
              exists rejection,
                Part000.validateVertexPosition
                  (px (Part000.candidate c (dx / len) (dy / len) d))
                  (py (Part000.candidate c (dx / len) (dy / len) d))
                  (-1) g = Ret rejection g /\
                Part000.success rejection = false
        end.
Proof.
  intros sel g g' r Hrun.
  unfold Part000.findOptimalPosition in Hrun.
  unfold bind at 1 in Hrun. unfold gets at 1 in Hrun.
  unfold bind at 1 in Hrun. unfold orThrow at 1 in Hrun.
  destruct (Part000.centroid (vertices g) sel) as [c |] eqn:Ec;
    [| discriminate Hrun].
  cbv zeta in Hrun. cbv zeta.
  set (center := Part000.graphCenter (vertices g)) in *.
  set (dx := px c - px center) in *.
  set (dy := py c - py center) in *.
  set (len := Math_sqrt (dx * dx + dy * dy)) in *.
  destruct (len === #0) eqn:El.
  - unfold bind, gets, orThrow, ret in Hrun.
    destruct (option_map pos
                (Part000.getU (vertices g) (Part000.secondOrFirst sel)))
      as [v2 |]; [| discriminate Hrun].
    destruct (option_map pos (Part000.getU (vertices g) (JS.get sel 0)))
      as [v1 |]; [| discriminate Hrun].
    injection Hrun as <- <-.
    split; [reflexivity |]. exists c. split; [reflexivity |].
    fold center. fold dx dy. fold len. rewrite El.
    exists v1, v2. repeat split.
  - set (body := fun dist : Z =>
                   bind (Part000.validateVertexPosition
                           (px (Part000.candidate c (dx / len) (dy / len) dist))
                           (py (Part000.candidate c (dx / len) (dy / len) dist))
                           (-1))
                     (fun validation =>
                        if Part000.success validation
                        then ret (Some (Part000.candidate c (dx / len)
                                          (dy / len) dist))
                        else ret None)) in *.
    assert (forall d, reads (body d)) as Hreads.
    { intro d. unfold body. apply reads_bind.
      - apply (proj1 (readsGraphOnly_validateVertexPosition _ _ _)).
      - intro a. destruct (Part000.success a); apply reads_ret. }
    assert (forall d (o : option Point),
              body d g = Ret o g ->
              exists validation,
                Part000.validateVertexPosition
                  (px (Part000.candidate c (dx / len) (dy / len) d))
                  (py (Part000.candidate c (dx / len) (dy / len) d))
                  (-1) g = Ret validation g /\
                (if Part000.success validation
                 then o = Some (Part000.candidate c (dx / len) (dy / len) d)
                 else o = None)) as Hbody.
    { intros d o Hd. unfold body, bind in Hd.
      pose proof (proj1 (readsGraphOnly_validateVertexPosition
                           (px (Part000.candidate c (dx / len) (dy / len) d))
                           (py (Part000.candidate c (dx / len) (dy / len) d))
                           (-1)) g) as Hg.
      destruct (Part000.validateVertexPosition _ _ _ g) as [a g1 | g1 |];
        try discriminate Hd. subst g1.
      exists a. split; [reflexivity |].
      destruct (Part000.success a); unfold ret in Hd; congruence. }
    assert (g' = g) as ->.
    { pose proof (reads_forOf Part000.distances body Hreads g) as Hg.
      rewrite Hrun in Hg. exact Hg. }
    split; [reflexivity |]. exists c. split; [reflexivity |].
    fold center. fold dx dy. fold len. rewrite El.
    destruct r as [p |].
    + destruct (forOf_first _ _ _ _ _ Hreads Hrun)
        as (k & dist & Hk & Hb & Hbefore).
      destruct (Hbody _ _ Hb) as (validation & Hv & Hs).
      destruct (Part000.success validation) eqn:Es; [| discriminate Hs].
      injection Hs as ->.
      exists k, dist, validation.
      split; [exact Hk |]. split; [reflexivity |].
      split; [exact Hv |]. split; [exact Es |].
      intros j d Hj Hd.
      destruct (Hbody _ _ (Hbefore j d Hj Hd)) as (rejection & Hv' & Hs').
      exists rejection. split; [exact Hv' |].
      destruct (Part000.success rejection); [discriminate Hs' | reflexivity].
    + intros d Hd.
      pose proof (forOf_None _ _ _ _ Hreads Hrun d Hd) as Hb.
      destruct (Hbody _ _ Hb) as (rejection & Hv' & Hs').
      exists rejection. split; [exact Hv' |].
      destruct (Part000.success rejection); [discriminate Hs' | reflexivity].
Qed.

End Properties.

(** * Properties that hold on binary64 *)

Module Binary64.

Import Float64.
Local Open Scope float_scope.

(** [x <= y] of the numbers is [nle]. *)
Lemma leb_nle (x y : float) : (x <=? y) = nle x y.
Proof.
  unfold nle. cbn [nlt neq number].
  rewrite leb_spec, ltb_spec, eqb_spec.
  unfold SFleb, SFltb, SFeqb. destruct (SFcompare _ _) as [[] |]; reflexivity.
Qed.

(** A finite number minus itself is [+0]. *)
Lemma sub_self (x : float) : finite x = true -> x - x = 0.
Proof.
  intro H. rewrite <- (SF2Prim_Prim2SF (x - x)), sub_spec.
  unfold finite in H. destruct (Prim2SF x) as [s | s | | s m e];
    try discriminate.
  - destruct s; reflexivity.
  - unfold SF64sub, SFsub. cbv zeta.
    rewrite Z.min_id. unfold shl_align.
    match goal with
    | |- context [binary_normalize _ _ (?a - ?b)%Z _ _] =>
        replace (a - b)%Z with 0%Z by (symmetry; apply Z.sub_diag)
    end.
    reflexivity.
Qed.

(** A point with finite coordinates is at distance 0 from itself,
    which is below the tolerance of [edgesShareVertex]. *)
Lemma distance_self (p : Point float) :
  finite (px p) = true -> finite (py p) = true ->
  nlt (distance p p) tolerance = true.
Proof.
  intros Hx Hy. unfold distance. cbn [nsub npow nadd Math_sqrt number].
  rewrite (sub_self _ Hx), (sub_self _ Hy). vm_compute. reflexivity.
Qed.

(** ** Opposites and sums of numbers

    The operations on the specification of the numbers: the sign goes
    through the rounding, and the sign of a zero is the only thing an
    operation can tell apart in two numbers that are [same]. *)

Lemma binary_round_aux_opp (s : bool) (m e : Z) (l : location) :
  binary_round_aux prec emax (negb s) m e l =
    SFopp (binary_round_aux prec emax s m e l).
Proof.
  unfold binary_round_aux.
  destruct (shr_fexp prec emax m e l) as [mrs' e'].
  destruct (shr_fexp prec emax _ e' loc_Exact) as [mrs'' e''].
  destruct (shr_m mrs''); [reflexivity | | reflexivity].
  destruct (Z.leb e'' (emax - prec)); reflexivity.
Qed.

Lemma binary_round_opp (s : bool) (m : positive) (e : Z) :
  binary_round prec emax (negb s) m e = SFopp (binary_round prec emax s m e).
Proof.
  unfold binary_round.
  destruct (shl_align m e _) as [mz ez]. apply binary_round_aux_opp.
Qed.

Lemma binary_normalize_opp (m e : Z) :
  unsigned (binary_normalize prec emax (- m) e false) =
    unsigned (SFopp (binary_normalize prec emax m e false)).
Proof.
  destruct m as [| p | p]; cbn [Z.opp binary_normalize].
  - reflexivity.
  - rewrite (binary_round_opp false). reflexivity.
  - rewrite <- (binary_round_opp true). reflexivity.
Qed.

Lemma unsigned_opp (x y : spec_float) :
  unsigned x = unsigned y -> unsigned (SFopp x) = unsigned (SFopp y).
Proof.
  destruct x as [sx | sx | | sx mx ex], y as [sy | sy | | sy my ey];
    cbn; intro H; try discriminate H; try reflexivity;
    injection H; intros; subst; reflexivity.
Qed.

Lemma SFsub_anti (x y : spec_float) :
  unsigned (SF64sub y x) = unsigned (SFopp (SF64sub x y)).
Proof.
  unfold SF64sub.
  destruct x as [sx | sx | | sx mx ex], y as [sy | sy | | sy my ey];
    try (destruct sx); try (destruct sy); try reflexivity.
  all: cbn [SFsub]; cbv zeta; rewrite (Z.min_comm ey ex);
    rewrite <- binary_normalize_opp; f_equal; f_equal; cbn [cond_Zopp]; lia.
Qed.

Lemma SFmul_opp (x y : spec_float) :
  SF64mul (SFopp x) y = SFopp (SF64mul x y).
Proof.
  unfold SF64mul.
  destruct x as [sx | sx | | sx mx ex], y as [sy | sy | | sy my ey];
    cbn [SFopp SFmul]; try reflexivity;
    try (destruct sx, sy; reflexivity).
  rewrite <- binary_round_aux_opp. destruct sx, sy; reflexivity.
Qed.

Lemma SFmul_unsigned (x x' y : spec_float) :
  unsigned x = unsigned x' ->
  unsigned (SF64mul x y) = unsigned (SF64mul x' y).
Proof.
  unfold SF64mul.
  destruct x as [sx | sx | | sx mx ex], x' as [sx' | sx' | | sx' mx' ex'];
    cbn [unsigned]; intro H; try discriminate H;
    try (injection H; intros; subst; reflexivity);
    destruct y; reflexivity.
Qed.

Lemma SFadd_unsigned (x x' y y' : spec_float) :
  unsigned x = unsigned x' -> unsigned y = unsigned y' ->
  unsigned (SF64add x y) = unsigned (SF64add x' y').
Proof.
  unfold SF64add. intros Hx Hy.
  destruct x as [sx | sx | | sx mx ex], x' as [sx' | sx' | | sx' mx' ex'];
    cbn [unsigned] in Hx; try discriminate Hx; inversion Hx; subst; clear Hx;
  destruct y as [sy | sy | | sy my ey], y' as [sy' | sy' | | sy' my' ey'];
    cbn [unsigned] in Hy; try discriminate Hy; inversion Hy; subst; clear Hy;
    try reflexivity;
    repeat match goal with s : bool |- _ => destruct s end; reflexivity.
Qed.

Lemma SFadd_opp (x y : spec_float) :
  unsigned (SF64add (SFopp x) (SFopp y)) = unsigned (SFopp (SF64add x y)).
Proof.
  unfold SF64add.
  destruct x as [sx | sx | | sx mx ex], y as [sy | sy | | sy my ey];
    try (destruct sx); try (destruct sy); try reflexivity.
  all: cbn [SFadd SFopp negb]; cbv zeta;
    rewrite <- binary_normalize_opp; f_equal; f_equal; cbn [cond_Zopp]; lia.
Qed.

Lemma SFadd_comm (x y : spec_float) : SF64add x y = SF64add y x.
Proof.
  unfold SF64add.
  destruct x as [sx | sx | | sx mx ex], y as [sy | sy | | sy my ey];
    try (destruct sx); try (destruct sy); try reflexivity.
  all: cbn [SFadd]; cbv zeta; rewrite (Z.min_comm ey ex); f_equal; lia.
Qed.

Lemma SFadd_zero (x : spec_float) :
  unsigned (SF64add (S754_zero false) x) = unsigned x.
Proof. destruct x as [[] | [] | | [] m e]; reflexivity. Qed.

Lemma SFltb_unsigned (x y : spec_float) :
  unsigned x = unsigned y ->
  SFltb x (S754_zero false) = SFltb y (S754_zero false).
Proof.
  destruct x as [sx | sx | | sx mx ex], y as [sy | sy | | sy my ey];
    cbn [unsigned]; intro H; try discriminate H; try reflexivity;
    injection H; intros; subst; reflexivity.
Qed.

Lemma SFltb_opp (x : spec_float) :
  SFltb x (S754_zero false) = true ->
  SFltb (SFopp x) (S754_zero false) = false.
Proof. destruct x as [[] | [] | | [] m e]; cbn; congruence. Qed.

Lemma Prim2SF_zero : Prim2SF 0 = S754_zero false.
Proof. vm_compute. reflexivity. Qed.

Lemma same_refl (x : float) : same x x.
Proof. reflexivity. Qed.

Lemma same_sym (x y : float) : same x y -> same y x.
Proof. unfold same. congruence. Qed.

Lemma same_trans (x y z : float) : same x y -> same y z -> same x z.
Proof. unfold same. congruence. Qed.

Lemma add_same (x x' y y' : float) :
  same x x' -> same y y' -> same (x + y) (x' + y').
Proof. unfold same. rewrite !add_spec. apply SFadd_unsigned. Qed.

Lemma mul_same_l (x x' y : float) : same x x' -> same (x * y) (x' * y).
Proof. unfold same. rewrite !mul_spec. apply SFmul_unsigned. Qed.

Lemma opp_same (x y : float) : same x y -> same (- x) (- y).
Proof. unfold same. rewrite !opp_spec. apply unsigned_opp. Qed.

Lemma sub_anti (x y : float) : same (y - x) (- (x - y)).
Proof. unfold same. rewrite opp_spec, !sub_spec. apply SFsub_anti. Qed.

Lemma mul_opp_l (x y : float) : same ((- x) * y) (- (x * y)).
Proof.
  unfold same. rewrite opp_spec, !mul_spec, opp_spec, SFmul_opp. reflexivity.
Qed.

Lemma add_opp (x y : float) : same ((- x) + (- y)) (- (x + y)).
Proof. unfold same. rewrite opp_spec, !add_spec, !opp_spec. apply SFadd_opp. Qed.

Lemma add_comm (x y : float) : x + y = y + x.
Proof. apply Prim2SF_inj. rewrite !add_spec. apply SFadd_comm. Qed.

Lemma add_zero_l (x : float) : same (0 + x) x.
Proof. unfold same. rewrite add_spec, Prim2SF_zero. apply SFadd_zero. Qed.

Lemma ltb_same (x y : float) : same x y -> (x <? 0) = (y <? 0).
Proof. unfold same. rewrite !ltb_spec, Prim2SF_zero. apply SFltb_unsigned. Qed.

Lemma ltb_opp (x : float) : (x <? 0) = true -> (- x <? 0) = false.
Proof. rewrite !ltb_spec, opp_spec, Prim2SF_zero. apply SFltb_opp. Qed.

Lemma term_swap (xi yi xj yj : float) :
  same ((xi - xj) * (yi + yj)) (- ((xj - xi) * (yj + yi))).
Proof.
  rewrite (add_comm yi yj).
  eapply same_trans; [apply mul_same_l, sub_anti | apply mul_opp_l].
Qed.

Lemma sum3_reversed (t1 t2 t3 u1 u2 u3 : float) :
  same u1 (- t2) -> same u2 (- t1) -> same u3 (- t3) ->
  same (((0 + u1) + u2) + u3) (- (((0 + t1) + t2) + t3)).
Proof.
  intros H1 H2 H3.
  assert (same ((0 + u1) + u2) (- ((0 + t1) + t2))) as D.
  { eapply same_trans.
    - apply add_same; [eapply same_trans; [apply add_zero_l | exact H1]
                      | exact H2].
    - eapply same_trans; [apply add_opp |].
      apply opp_same. rewrite (add_comm t2 t1).
      apply add_same; [apply same_sym, add_zero_l | apply same_refl]. }
  eapply same_trans; [apply add_same; [exact D | exact H3] |].
  apply add_opp.
Qed.

(** The area sum of a periphery of three entries taken the other way
    round is the opposite of the area sum. *)
Lemma areaSum_three_reversed (a b c : Vertex float) :
  same (areaSum c [c; b; a] (nofZ 0)) (- areaSum a [a; b; c] (nofZ 0)).
Proof.
  cbn [areaSum nadd nsub nmul nofZ number ofZ].
  apply sum3_reversed; apply term_swap.
Qed.

(** What the orientation pass leaves: the area sum of the periphery is
    negative only if the periphery has four entries or more, the pass
    has reversed it (the sum the other way round is negative as well),
    and one of the two sums is not a sum over integers computed without
    rounding. *)
Lemma clockwise_area (vs : list (Vertex float)) (q p : list Z) :
  clockwise vs q = Some p ->
  (3 <= JS.length p)%Z ->
  exists area,
    signedArea vs p = Some area /\
    (nlt area (nofZ 0) = true ->
     (4 <= JS.length p)%Z /\
     (exists before,
        signedArea vs (rev p) = Some before /\
        nlt before (nofZ 0) = true) /\
     areaExact States.toZ vs p && areaExact States.toZ vs (rev p) = false).
Proof.
  intros Hc Hlen. pose proof Hc as Hc0. unfold clockwise in Hc.
  destruct (JS.length q <? 3)%Z eqn:Hq.
  { injection Hc as <-. apply Z.ltb_lt in Hq. lia. }
  destruct (signedArea vs q) as [area0 |] eqn:Ha; [| discriminate Hc].
  destruct (nlt area0 (nofZ 0)) eqn:Hneg; injection Hc as <-.
  2:{ exists area0. split; [exact Ha |]. intro H. congruence. }
  assert (q <> []) as Hne by (intros ->; discriminate Hq).
  destruct q as [| i q]; [congruence |].
  pose proof Ha as Ha'. unfold signedArea in Ha'.
  destruct (areaLoop_defined vs i (i :: q) _ _ Ha' Hne) as [Hl _].
  destruct (lookupAll vs (i :: q)) as [l |] eqn:El; [| congruence].
  destruct l as [| v l].
  { simpl in El. destruct (JS.get vs i); [| discriminate El].
    destruct (lookupAll vs q); discriminate El. }
  pose proof (lookupAll_rev vs _ _ El) as Elr.
  destruct (rev (v :: l)) as [| w m] eqn:Erl.
  { apply (f_equal (@List.length _)) in Erl. rewrite length_rev in Erl.
    discriminate Erl. }
  assert (area0 = areaSum v (v :: l) (nofZ 0)) as ->
    by (rewrite (signedArea_areaSum vs _ _ _ El) in Ha; congruence).
  rewrite (signedArea_areaSum vs _ _ _ Elr).
  eexists. split; [reflexivity |]. intro Hstill.
  split; [| split].
  - destruct (Z_lt_le_dec (JS.length (rev (i :: q))) 4) as [Hshort | Hlong];
      [exfalso | exact Hlong].
    unfold JS.length in Hshort, Hlen. rewrite length_rev in Hshort, Hlen.
    destruct q as [| j [| k [| x q]]]; cbn [List.length] in Hshort, Hlen;
      try lia.
    cbn [lookupAll] in El.
    destruct (JS.get vs i) as [vi |]; [| discriminate El].
    destruct (JS.get vs j) as [vj |]; [| discriminate El].
    destruct (JS.get vs k) as [vk |]; [| discriminate El].
    injection El as <- <-. cbn in Erl. injection Erl as <- <-.
    pose proof (areaSum_three_reversed vi vj vk) as Hsame.
    change ((areaSum vk [vk; vj; vi] (nofZ 0) <? 0) = true) in Hstill.
    change ((areaSum vi [vi; vj; vk] (nofZ 0) <? 0) = true) in Hneg.
    rewrite (ltb_same _ _ Hsame) in Hstill.
    rewrite (ltb_opp _ Hneg) in Hstill. discriminate Hstill.
  - rewrite rev_involutive. exists (areaSum v (v :: l) (nofZ 0)).
    split; [apply (signedArea_areaSum vs _ _ _ El) | exact Hneg].
  - destruct (areaExact States.toZ vs (rev (i :: q)) &&
              areaExact States.toZ vs (rev (rev (i :: q)))) eqn:E;
      [| reflexivity].
    apply andb_prop in E. destruct E as [E1 E2].
    destruct (clockwise_not_negative States.toZ vs (i :: q) _ Hc0 Hlen E1 E2)
      as (area' & Ha1 & Hnot).
    assert (area' = areaSum w (w :: m) (nofZ 0)) as ->
      by (rewrite (signedArea_areaSum vs _ _ _ Elr) in Ha1; congruence).
    congruence.
Qed.


(** A number minus itself is never negative: it is [+0], or [NaN] when
    the number is an infinity or [NaN]. *)
Lemma sub_self_not_negative (x : float) : nlt (nsub x x) (nofZ 0) = false.
Proof.
  cbn [nlt nsub nofZ number ofZ].
  destruct (finite x) eqn:E.
  - rewrite (sub_self x E). vm_compute. reflexivity.
  - rewrite ltb_spec, sub_spec. unfold finite in E.
    destruct (Prim2SF x) as [s | s | | s m e]; try discriminate E.
    + destruct s; vm_compute; reflexivity.
    + vm_compute. reflexivity.
Qed.

(** C4 (as the code has it).  The sort that orders the sweep input
    compares polar angles only and is stable.  Points of one polar
    angle around the anchor are tied by its comparator, so they come
    out in the order they have in the array of visible vertices,
    whatever their distances from the anchor; no point comes out ahead
    of one that the comparator puts before it; and the points that come
    out are those that went in.  The comparator has to be consistent
    on the array, as the language requires for the result of [sort] to
    be fixed. *)
Theorem sortedPoints_keeps_array_order_of_ties :
  forall (visibleVertices : list (VertexRef float)) (start : Z)
         (startPoint : VertexRef float) (P : VertexRef float -> bool),
    consistent (compareAngle startPoint)
      (removeAt visibleVertices start) = true ->
    (forall a b,
       In a (removeAt visibleVertices start) ->
       In b (removeAt visibleVertices start) ->
       P a = true -> P b = true ->
       polarAngle startPoint a = polarAngle startPoint b) ->
    (forall a b,
       In a (removeAt visibleVertices start) ->
       In b (removeAt visibleVertices start) ->
       P a = true -> P b = true ->
       tie (compareAngle startPoint) a b = true) /\
    filter P (sortedPoints visibleVertices start startPoint) =
      filter P (removeAt visibleVertices start) /\
    ordered (compareAngle startPoint)
      (sortedPoints visibleVertices start startPoint) /\
    Permutation (removeAt visibleVertices start)
      (sortedPoints visibleVertices start startPoint).
Proof.
  intros visibleVertices start startPoint P Hc Hangle.
  pose proof (equal_angles_tied startPoint P _
                sub_self_not_negative Hangle) as Ht.
  split; [| split; [| split]].
  - intros a b Ha Hb Pa Pb. unfold tiedGroup in Ht.
    rewrite forallb_forall in Ht. specialize (Ht a Ha).
    rewrite forallb_forall in Ht. specialize (Ht b Hb).
    rewrite Pa, Pb in Ht. exact Ht.
  - unfold sortedPoints. apply sort_stable; assumption.
  - unfold sortedPoints. apply sort_ordered. exact Hc.
  - unfold sortedPoints. apply sort_Permutation.
Qed.

(** X24.  For a new vertex with finite coordinates, [validateNewEdges] never
    answers "New edges would intersect each other": the new edges all
    start at the new vertex, so [edgesShareVertex] holds of any two of
    them and the test of one new edge against another is skipped. *)
Theorem validateNewEdges_never_reports_new_edges :
  forall (newVertexPos : Point float) (segment : list Z)
         (g g' : Graph float) (check : Validation),
    finite (px newVertexPos) = true ->
    finite (py newVertexPos) = true ->
    validateNewEdges newVertexPos segment g = Ret check g' ->
    vmessage check <> Some MsgNewEdgesIntersect.
Proof.
  intros p segment g g' check Hx Hy Hrun Hmsg.
  destruct (validateNewEdges_new_edges_message p segment g g' check Hrun Hmsg)
    as (a & b & Hshare).
  unfold edgesShareVertex in Hshare. cbn [start end_] in Hshare.
  rewrite (distance_self p Hx Hy) in Hshare. discriminate.
Qed.

End Binary64.

(** * Runs of the program on binary64 *)

Module Scenarios.

Import Float64 States.
Local Open Scope float_scope.

(** ** The states above are states of the editor *)

Lemma afterFirst_reached :
  run [MouseDown 1; MouseDown 2] manual = Some afterFirst.
Proof. vm_compute. reflexivity. Qed.

Lemma crowded_reached :
  run [MouseDown 1; MouseDown 2; RedrawOptimize; MouseDown 2] manual
    = Some crowdedBeforeClick.
Proof. vm_compute. reflexivity. Qed.

Lemma tangled_reached :
  run [MouseDown 0; MouseDown 2; GoToVertex 3; RedrawOptimize;
       MouseDown 2; MouseDown 0; GoToVertex 6; MouseDown 4] manual
    = Some tangledBeforeClick.
Proof. vm_compute. reflexivity. Qed.

(** The last click, on index 1, runs the insertion on [tangled] and
    refreshes the segment display. *)
Lemma tangled_last_click :
  handleMouseDown 1 tangledBeforeClick
    = Ret tt (set_segmentVertices [4; 3; 1]%Z untangled).
Proof. vm_compute. reflexivity. Qed.

(** ** C1 *)

(** C1, counterexample.  The insertion on [tangled] is rolled back (the
    scan finds the edges V4-V3 and V5-V1 crossing); the periphery was
    [4; 1] before the attempt and is [2; 4; 3; 1] after it. *)
Lemma rollback_changes_periphery :
  processSegmentSelection tangled =
    Ret (mkResult false (MsgRolledBack (Some (MsgIntegrity 4 3 5 1)))) untangled /\
  periphery tangled = [4; 1]%Z /\
  periphery untangled = [2; 4; 3; 1]%Z.
Proof. vm_compute. repeat split. Qed.

(** C1, the theorem at [tangled]: the attempt reaches the commit, the
    scan finds the edges V4-V3 and V5-V1 crossing, and the attempt is
    rolled back. *)
Lemma processSegmentSelection_rollback_witness :
  exists g' d,
    processSegmentSelection tangled =
      Ret (mkResult false (MsgRolledBack d)) g' /\
    (JS.incrementable (maxVertexId tangled) ->
     d = Some (MsgIntegrity 4 3 5 1)) /\
    vertices g' = vertices tangled /\
    edges g' = edges tangled /\
    exists gu,
      updatePeriphery tangled = Ret tt gu /\ periphery g' = periphery gu.
Proof.
  assert (JS.indexOf (periphery tangled) 4 <> (-1)%Z) as Hp1
    by (intro H; vm_compute in H; discriminate H).
  assert (JS.indexOf (periphery tangled) 1 <> (-1)%Z) as Hp2
    by (intro H; vm_compute in H; discriminate H).
  assert (getPeripherySegment (JS.indexOf (periphery tangled) 4)
            (JS.indexOf (periphery tangled) 1) tangled
          = Ret [4; 1]%Z tangled) as Hseg by (vm_compute; reflexivity).
  assert (2 <= JS.length [4; 1]%Z)%Z as Hlen by (vm_compute; discriminate).
  eassert (findNonIntersectingPosition [4; 1]%Z tangled
           = Ret (Some _) tangled) as Hfind by (vm_compute; reflexivity).
  match type of Hfind with
  | _ = Ret (Some ?newPosition) _ =>
      eassert (updatePeripheryAfterSegmentReplacement
                 (JS.indexOf (periphery tangled) 4)
                 (JS.indexOf (periphery tangled) 1)
                 (JS.length (vertices tangled))
                 (committed (set_segmentVertices [4; 1]%Z tangled)
                    newPosition)
               = Ret tt _) as Hupd by (vm_compute; reflexivity)
  end.
  match type of Hupd with
  | _ = Ret tt ?g3 =>
      assert (validateGraphIntegrity g3
              = Ret (Invalid (MsgIntegrity 4 3 5 1)) g3) as Hint
        by (vm_compute; reflexivity)
  end.
  exact (processSegmentSelection_rollback tangled _ _ 4 1 [4; 1]%Z _
           (Invalid (MsgIntegrity 4 3 5 1))
           eq_refl Hp1 Hp2 Hseg Hlen Hfind Hupd Hint eq_refl).
Defined.

(** ** C2 and C5 *)

(** C2, the theorem at [crowded]: the search over the whole periphery
    finds no position. *)
Lemma processSegmentSelection_no_placement_witness :
  exists g',
    processSegmentSelection crowded = Ret (mkResult false MsgNoPlacement) g' /\
    vertices g' = vertices crowded /\
    edges g' = edges crowded /\
    periphery g' = periphery crowded.
Proof.
  apply (processSegmentSelection_no_placement crowded 2%Z 3%Z [2; 0; 1; 3]%Z).
  - reflexivity.
  - vm_compute. discriminate.
  - vm_compute. discriminate.
  - vm_compute. reflexivity.
  - vm_compute. discriminate.
  - vm_compute. reflexivity.
Defined.

(** C5, the code at a failing input.  The attempt on [crowded] fails
    (no placement) and returns with the selection [2; 3] and the segment
    list [2; 0; 1; 3] still in place; so does the click that triggers
    it. *)
Theorem failed_attempt_keeps_selection :
  (exists g',
     processSegmentSelection crowded = Ret (mkResult false MsgNoPlacement) g' /\
     selectedVertices g' = [2; 3]%Z /\
     segmentVertices g' = [2; 0; 1; 3]%Z) /\
  (exists g',
     run [MouseDown 3] crowdedBeforeClick = Some g' /\
     selectedVertices g' = [2; 3]%Z /\
     segmentVertices g' = [2; 0; 1; 3]%Z).
Proof.
  split; eexists; (split; [vm_compute; reflexivity | split; reflexivity]).
Qed.

(** ** C6 *)

(** C6, the code at a failing input.  On the triangle with vertices of
    indices 1 and 2 selected, the insertion succeeds, connects the new
    vertex to the two segment vertices, and reports a segment of 0
    vertices. *)
Theorem success_reports_empty_segment :
  exists g',
    processSegmentSelection (set_selectedVertices [1; 2]%Z newGraph)
      = Ret (mkResult true (MsgAdded 4 0)) g' /\
    edges g' = edges (@newGraph float _) ++ [(3, 1); (3, 2)]%Z.
Proof. eexists. split; [vm_compute; reflexivity | reflexivity]. Qed.

(** ** C9 *)

(** C9, counterexample.  The reset to the triangle takes the counter
    from 4 back to 3, and the next insertion assigns the identifier 4 a
    second time. *)
Lemma reset_lowers_counter :
  maxVertexId afterFirst = 4%Z /\
  option_map (@maxVertexId float) (run [StartTriangle] afterFirst) = Some 3%Z /\
  option_map (fun g => map (@vid float) (vertices g))
    (run [StartTriangle; ToggleManualMode; MouseDown 1; MouseDown 2] afterFirst)
    = Some [1; 2; 3; 4]%Z.
Proof. vm_compute. repeat split. Qed.

(** On numbers the increment is the successor up to [2^53 - 1], and
    leaves [2^53] as it is. *)
Lemma increment_stays_at_2_to_53 :
  ofZ (2 ^ 53 - 1) + 1 = ofZ (2 ^ 53) /\
  ofZ (2 ^ 53) + 1 = ofZ (2 ^ 53).
Proof. vm_compute. split; reflexivity. Qed.

(** C9, the theorem along the two clicks of the first insertion, and
    at the rolled-back insertion on [tangled], whose counter 5 is in
    the range where [++] is the successor. *)
Lemma maxVertexId_monotone_witness :
  (maxVertexId manual <= maxVertexId afterFirst)%Z /\
  vertices untangled = vertices tangled /\
  maxVertexId untangled = (maxVertexId tangled + 1)%Z.
Proof.
  split.
  - refine (proj1 (maxVertexId_monotone_between_resets
                     [MouseDown 1; MouseDown 2] manual afterFirst _ _)).
    + intros [H | [H | []]]; discriminate H.
    + vm_compute. reflexivity.
  - assert (processSegmentSelection tangled =
              Ret (mkResult false
                     (MsgRolledBack (Some (MsgIntegrity 4 3 5 1))))
                  untangled) as Hrun by (vm_compute; reflexivity).
    assert (- 2 ^ 53 <= maxVertexId tangled)%Z as Hlow
      by (vm_compute; discriminate).
    assert (maxVertexId tangled < 2 ^ 53)%Z as Hhigh
      by (vm_compute; reflexivity).
    exact (proj2 (proj2 (maxVertexId_monotone_between_resets
                           [] tangled tangled (fun H => H) eq_refl)
                    _ untangled Hlow Hhigh Hrun)
             (Some (MsgIntegrity 4 3 5 1)) eq_refl).
Defined.

(** ** C10 *)

(** C10, the theorem on the periphery of the triangle, from position 2
    round to position 0. *)
Lemma getPeripherySegment_terminates_witness :
  exists segment,
    getPeripherySegment_run 3 [0; 1; 2]%Z 2 0 = Some segment /\
    (List.length segment <= 3)%nat.
Proof.
  assert (0 <= 2 < JS.length [0; 1; 2]%Z)%Z as Hs
    by (unfold JS.length; simpl; lia).
  assert (0 <= 0 < JS.length [0; 1; 2]%Z)%Z as He
    by (unfold JS.length; simpl; lia).
  destruct (proj1 (getPeripherySegment_terminates [0; 1; 2]%Z 2 0 Hs) He)
    as (segment & Hrun & Hlen & _).
  exists segment. split; [apply Hrun; apply le_n | exact Hlen].
Defined.

(** ** C4 *)

(** C4, counterexample.  The two points level with the anchor have the
    same polar angle (the comparator returns 0 for them); the one of
    index 2 is nearer to the anchor than the one of index 1, and the
    sweep input has index 1 first.  The same four points stored with
    those two exchanged give another hull: the identifiers [1; 4; 2; 3]
    in one case, [1; 4; 2] in the other. *)
Lemma ties_not_ordered_by_distance :
  map fst (sortedPoints (JS.indexed aligned) 0 anchor) = [3; 1; 2]%Z /\
  compareAngle anchor (1%Z, mkVertex 2 0 true 2) (2%Z, mkVertex 1 0 true 3) = 0 /\
  (distance (mkPoint 0 0) (mkPoint 1 0) <? distance (mkPoint 0 0) (mkPoint 2 0)) = true /\
  map (fun r => vid (snd r)) (convexHull aligned) = [1; 4; 2; 3]%Z /\
  map (fun r => vid (snd r)) (convexHull alignedSwapped) = [1; 4; 2]%Z.
Proof. vm_compute. repeat split. Qed.

(** C4, the theorem on [aligned]: the two points level with the anchor
    keep their array order. *)
Lemma sortedPoints_keeps_array_order_witness :
  map fst (filter level (sortedPoints (JS.indexed aligned) 0 anchor)) = [1; 2]%Z.
Proof.
  assert (consistent (compareAngle anchor)
            (removeAt (JS.indexed aligned) 0) = true) as Hc
    by (vm_compute; reflexivity).
  assert (forall a b,
            In a (removeAt (JS.indexed aligned) 0) ->
            In b (removeAt (JS.indexed aligned) 0) ->
            level a = true -> level b = true ->
            polarAngle anchor a = polarAngle anchor b) as Hangle.
  { intros a b Ha Hb.
    change (removeAt (JS.indexed aligned) 0)
      with [ (1%Z, mkVertex 2 0 true 2); (2%Z, mkVertex 1 0 true 3);
             (3%Z, mkVertex 1 (-1) true 4) ] in Ha, Hb.
    destruct Ha as [<- | [<- | [<- | []]]];
      destruct Hb as [<- | [<- | [<- | []]]];
      intros Pa Pb;
      try (vm_compute in Pa; discriminate Pa);
      try (vm_compute in Pb; discriminate Pb);
      vm_compute; reflexivity. }
  rewrite (proj1 (proj2 (Binary64.sortedPoints_keeps_array_order_of_ties
                           (JS.indexed aligned) 0 anchor level Hc Hangle))).
  reflexivity.
Defined.

(** ** C7 *)



(** ** Further properties, on the states above *)

Lemma afterFirst_edgesInRange : edgesInRange afterFirst.
Proof.
  intros e He. unfold isVertex, afterFirst, JS.length in *.
  cbn [edges vertices List.length] in *.
  repeat (destruct He as [<- | He]; [cbn; lia |]).
  destruct He.
Defined.

(** The segment from position 2 round to position 0 of the periphery
    [2; 0; 1; 3] of [crowded]. *)
Lemma getPeripherySegment_slices_witness :
  getPeripherySegment 2 0 crowded = Ret [1; 3; 2]%Z crowded.
Proof.
  apply (getPeripherySegment_slices 2 0 crowded);
    unfold crowded, JS.length; cbn; lia.
Defined.

(** The first insertion, on the base of the triangle: the segment
    [1; 2] leaves the periphery [0; 1; 2], vertex 3 enters it. *)
Lemma segment_replaced_by_new_vertex_witness :
  Permutation ([1; 2] ++ [0; 3])%Z (3 :: [0; 1; 2])%Z.
Proof.
  refine (proj1 (segment_replaced_by_new_vertex 1 2 3
                   (set_vertices (vertices afterFirst) newGraph)
                   (set_periphery [0; 3]%Z
                      (set_vertices (vertices afterFirst) newGraph))
                   [1; 2]%Z _ _ _ _)).
  - unfold JS.length. cbn. lia.
  - unfold JS.length. cbn. lia.
  - vm_compute. reflexivity.
  - vm_compute. reflexivity.
Defined.

(** The integrity scan on [afterFirst] (no crossing) and the check of
    a position on it. *)
Lemma validateGraphIntegrity_scans_witness :
  exists check,
    validateGraphIntegrity afterFirst = Ret check afterFirst /\
    (valid check = true <->
     forall (i j : nat) (edge1 edge2 : Z * Z),
       (i < j)%nat ->
       nth_error (edges afterFirst) i = Some edge1 ->
       nth_error (edges afterFirst) j = Some edge2 ->
       crosses (vertices afterFirst) edge1 edge2 = false).
Proof.
  destruct (validateGraphIntegrity_scans_every_pair afterFirst
              afterFirst_edgesInRange) as (check & H1 & H2 & _).
  exists check. split; assumption.
Defined.

Lemma validateBasicPosition_checks_witness :
  exists outside,
    isOutsideGraph 0 0 40 afterFirst = Ret outside afterFirst /\
    validateBasicPosition (mkPoint 0 0) afterFirst =
      Ret (if outside then Valid else Invalid MsgNotOutside) afterFirst.
Proof.
  exact (validateBasicPosition_checks_in_order (mkPoint 0 0) afterFirst
           afterFirst_edgesInRange).
Defined.

Lemma validateNewEdges_checks_witness :
  exists check,
    validateNewEdges (mkPoint 0 (-200)) [0; 3]%Z afterFirst
      = Ret check afterFirst.
Proof.
  destruct (validateNewEdges_checks_every_edge (mkPoint 0 (-200)) [0; 3]%Z
              afterFirst afterFirst_edgesInRange) as (check & H & _).
  - intros i [<- | [<- | []]]; unfold isVertex, JS.length; cbn; lia.
  - exists check. exact H.
Defined.

(** The attempt on [crowded] fails for want of a position, the one on
    [tangled] is rolled back, the one on the base of the triangle
    succeeds. *)
Lemma processSegmentSelection_never_cannot_add_witness :
  (forall d, MsgNoPlacement <> MsgCannotAdd d) /\
  success (mkResult false MsgNoPlacement) = false.
Proof.
  split; [| reflexivity].
  apply (processSegmentSelection_never_cannot_add crowded
           (set_segmentVertices [2; 0; 1; 3]%Z crowded)
           (mkResult false MsgNoPlacement)).
  vm_compute. reflexivity.
Defined.

Lemma processSegmentSelection_failure_witness :
  vertices untangled = vertices tangled /\
  edges untangled = edges tangled /\
  selectedVertices untangled = selectedVertices tangled /\
  manualMode untangled = manualMode tangled.
Proof.
  destruct (processSegmentSelection_failure_leaves_graph tangled untangled
              (mkResult false (MsgRolledBack (Some (MsgIntegrity 4 3 5 1)))))
    as (H1 & H2 & H3 & H4 & _).
  - vm_compute. reflexivity.
  - reflexivity.
  - auto.
Defined.

Lemma validations_depend_witness :
  sameAnswer (validateGraphIntegrity crowded)
             (validateGraphIntegrity afterFirst) /\
  sameAnswer (findNonIntersectingPosition [1; 3]%Z crowded)
             (findNonIntersectingPosition [1; 3]%Z afterFirst).
Proof.
  destruct (validations_depend_on_vertices_and_edges crowded afterFirst)
    as (H1 & _ & _ & H4); [reflexivity | reflexivity |].
  split; [exact H1 | apply H4].
Defined.

Lemma processSegmentSelection_success_witness :
  exists (segment : list Z) (newPosition : Point float) (g' : Graph float),
    processSegmentSelection (set_selectedVertices [1; 2]%Z newGraph)
      = Ret (mkResult true (MsgAdded 4 0)) g' /\
    findNonIntersectingPosition segment (set_selectedVertices [1; 2]%Z newGraph)
      = Ret (Some newPosition) (set_selectedVertices [1; 2]%Z newGraph) /\
    Permutation (segment ++ periphery g') (3%Z :: [0; 1; 2]%Z) /\
    maxVertexId g' = 4%Z.
Proof.
  eassert (processSegmentSelection (set_selectedVertices [1; 2]%Z newGraph)
           = Ret (mkResult true (MsgAdded 4 0)) _) as Hrun
    by (vm_compute; reflexivity).
  destruct (processSegmentSelection_success_effect _ _ _ Hrun eq_refl)
    as (v1 & v2 & segment & newPosition & check & _ & _ & Hfind & _ & _ &
        Hperm & _ & _ & _ & Hmax & _).
  exists segment, newPosition. eexists.
  split; [exact Hrun |]. split; [exact Hfind |]. split; [exact Hperm |].
  apply Hmax. unfold JS.incrementable. cbn. lia.
Defined.

Lemma addRandomSegment_clears_witness :
  exists g',
    addRandomSegment 0 1 newGraph = Ret (mkResult true (MsgAdded 4 0)) g' /\
    selectedVertices g' = [] /\ segmentVertices g' = [].
Proof.
  eassert (addRandomSegment 0 1 newGraph
           = Ret (mkResult true (MsgAdded 4 0)) _) as Hrun
    by (vm_compute; reflexivity).
  eexists. split; [exact Hrun |].
  apply (addRandomSegment_clears_selection 0 1 _ _ _ Hrun).
  unfold JS.length. cbn. lia.
Defined.

(** [afterFirst] is a state of the editor: manual mode switched on, then
    two clicks. *)
Lemma afterFirst_reachable : reachable afterFirst.
Proof.
  apply (reachable_step (set_selectedVertices [1%Z] manual) _ (MouseDown 2));
    [| exact I | vm_compute; reflexivity].
  apply (reachable_step manual _ (MouseDown 1));
    [| exact I | vm_compute; reflexivity].
  apply (reachable_step newGraph _ ToggleManualMode);
    [apply reachable_new | exact I | vm_compute; reflexivity].
Qed.

Lemma reachable_states_are_sound_witness :
  NoDup (map (@vid float) (vertices afterFirst)) /\
  (forall v, In v (vertices afterFirst) -> (vid v <= 4)%Z).
Proof.
  destruct (reachable_states_are_sound afterFirst afterFirst_reachable)
    as (_ & _ & H3 & H4).
  split; [exact H3 | exact H4].
Defined.

Lemma reachable_states_keep_selection_witness :
  (List.length (selectedVertices afterFirst) <= 2)%nat /\
  NoDup (selectedVertices afterFirst).
Proof.
  destruct (reachable_states_keep_selection afterFirst afterFirst_reachable)
    as (H1 & H2 & _).
  split; [exact H1 | exact H2].
Defined.

Lemma commands_never_throw_witness :
  exists g', exec (AddRandom 0 1) afterFirst = Ret tt g'.
Proof.
  apply (commands_never_throw afterFirst (AddRandom 0 1) afterFirst_reachable).
  right. unfold JS.length. cbn. lia.
Defined.

(** [twoShown] is what "go to" 2 makes of the triangle. *)
Lemma goToVertex_two_shown :
  goToVertex 2 newGraph = Ret tt twoShown.
Proof. vm_compute. reflexivity. Qed.

Lemma isOutsideGraph_few_visible_vertices_witness :
  (JS.length (filter (@visible float) (vertices twoShown)) < 3)%Z /\
  isOutsideGraph 0 0 50 twoShown = Ret true twoShown.
Proof.
  assert (JS.length (filter (@visible float) (vertices twoShown)) < 3)%Z
    as Hfew by (vm_compute; reflexivity).
  split; [exact Hfew |].
  exact (isOutsideGraph_few_visible_vertices 0 0 50 twoShown Hfew).
Defined.

Lemma validateNewEdges_never_reports_new_edges_witness :
  exists check g',
    validateNewEdges (mkPoint 0 (-200)) [0; 1]%Z afterFirst = Ret check g' /\
    vmessage check <> Some MsgNewEdgesIntersect.
Proof.
  destruct (validateNewEdges (mkPoint 0 (-200)) [0; 1]%Z afterFirst)
    as [check g' | g' |] eqn:Hrun.
  - exists check, g'. split; [reflexivity |].
    apply (Binary64.validateNewEdges_never_reports_new_edges
             (mkPoint 0 (-200)) [0; 1]%Z afterFirst g' check);
      [vm_compute; reflexivity | vm_compute; reflexivity | exact Hrun].
  - vm_compute in Hrun. discriminate Hrun.
  - vm_compute in Hrun. discriminate Hrun.
Defined.

(** ** The earlier engine *)

Lemma earlier_hull_agrees_witness :
  Part000.getConvexHull afterFirst = getConvexHull afterFirst /\
  Part000.updatePeriphery afterFirst = updatePeriphery afterFirst.
Proof.
  apply (earlier_hull_agrees_while_all_visible afterFirst).
  intros v Hv. unfold afterFirst in Hv. cbn [vertices] in Hv.
  repeat (destruct Hv as [<- | Hv]; [reflexivity |]).
  destruct Hv.
Defined.

(** A vertex added above the apex of the triangle. *)
Lemma addVertex_agrees_with_validation_witness :
  exists g'',
    Part000.addVertex 0 (-200) newGraph =
      Ret (Part000.mkAnswer true (Some (Part000.Added (maxVertexId g''))))
          g'' /\
    vertices g'' =
      vertices newGraph ++ [mkVertex 0 (-200) true (maxVertexId g'')] /\
    selectedVertices g'' = [] /\
    (JS.incrementable (maxVertexId (@newGraph float _)) ->
     maxVertexId g'' = 4%Z).
Proof.
  assert (Part000.validateVertexPosition 0 (-200) (-1) newGraph =
            Ret (Part000.mkAnswer true None) newGraph) as Hrun
    by (vm_compute; reflexivity).
  assert (JS.length (vertices (@newGraph float _)) < 10000)%Z as Hlim
    by (vm_compute; reflexivity).
  exact (addVertex_agrees_with_validation 0 (-200) newGraph newGraph
           (Part000.mkAnswer true None)
           (proj1 (@sound_newGraph float _)) Hlim Hrun).
Defined.

(** The position proposed for the side (0, 1) of the triangle. *)
Lemma findOptimalPosition_first_accepted_witness :
  exists r g',
    Part000.findOptimalPosition [0; 1]%Z newGraph = Ret r g' /\
    g' = @newGraph float _.
Proof.
  destruct (Part000.findOptimalPosition [0; 1]%Z (@newGraph float _))
    as [r g' | g' |] eqn:Hrun.
  - exists r, g'. split; [reflexivity |].
    exact (proj1 (findOptimalPosition_first_accepted_distance
                    [0; 1]%Z newGraph g' r Hrun)).
  - vm_compute in Hrun. discriminate Hrun.
  - vm_compute in Hrun. discriminate Hrun.
Defined.

End Scenarios.
